(** * CMM: parser with user-extensible operator precedence, and tree-walking interpreter

    A shallow embedding of [src/src/CMMParser.cpp], of
    [src/src/CMMInterpreter.cpp] and of the diagnostics of
    [src/src/SourceManager.cpp], followed by the properties of the
    specification stated over it.

    Conventions of the embedding.
    - A C++ member function that returns [bool] ("true on error") and fills
      an out-parameter is a computation in the monad [M]: [Done a s] is
      "returned false with out-parameter [a]", [Raise e s] is "returned true"
      or, where the function asserts something that does not hold, the abort
      of the process.
    - Loops and mutual recursion that are not structural take a [fuel]
      argument; running out of fuel is the distinct outcome [OutOfFuel].
    - [std::unique_ptr<StatementAST>] is [option StatementAST]: [None] is the
      null pointer. *)

From Stdlib Require Import ZArith String List PrimFloat Uint63 Lia.
From stdpp Require Import gmap strings pretty.

Set Warnings "-register-all".
Local Open Scope string_scope.
Local Open Scope Z_scope.

(** ** Tokens (the lexer is an external collaborator; only its interface is used) *)

Module Token.
Inductive TokenKind : Set :=
| Eof | Error
| Identifier | Integer | Double | String | Boolean | InfixOp
| Kw_bool | Kw_int | Kw_double | Kw_void | Kw_string
| Kw_if | Kw_else | Kw_while | Kw_for
| Kw_return | Kw_break | Kw_continue | Kw_infix
| LParen | RParen | LCurly | RCurly | LBrac | RBrac
| Comma | Semicolon
| Equal | EqualEqual | ExclaimEqual
| Less | LessEqual | Greater | GreaterEqual
| LessLess | GreaterGreater
| Plus | Minus | Star | Slash | Percent
| Amp | Pipe | Caret | Tilde | Exclaim
| AmpAmp | PipePipe.

Definition TokenKind_eq_dec (a b : TokenKind) : {a = b} + {a <> b}.
Proof. decide equality. Defined.
End Token.

#[global] Instance TokenKind_eq_decision : EqDecision Token.TokenKind :=
  Token.TokenKind_eq_dec.

(** What the lexer exposes once a token has been read: [getKind()],
    [getStrVal()], [getIntVal()], [getDoubleVal()], [getBoolVal()]. *)
Record Lexeme : Type := mkLexeme {
  Kind : Token.TokenKind;
  StrVal : string;
  IntVal : Z;
  DoubleVal : float;
  BoolVal : bool
}.

Definition punct (K : Token.TokenKind) : Lexeme := mkLexeme K "" 0 0%float false.
Definition tokIdentifier (Name : string) : Lexeme :=
  mkLexeme Token.Identifier Name 0 0%float false.
Definition tokInfixOp (Symbol : string) : Lexeme :=
  mkLexeme Token.InfixOp Symbol 0 0%float false.
Definition tokInteger (V : Z) : Lexeme := mkLexeme Token.Integer "" V 0%float false.
Definition tokDouble (V : float) : Lexeme := mkLexeme Token.Double "" 0 V false.
Definition tokBoolean (V : bool) : Lexeme := mkLexeme Token.Boolean "" 0 0%float V.
Definition tokString (V : string) : Lexeme := mkLexeme Token.String V 0 0%float false.

(** A source location.  The token stream is fixed, so a location is modelled
    as the part of the stream that starts there; [seekLoc(Loc); Lex()] makes
    that part the pending input again. *)
Definition LocTy : Type := list Lexeme.

(** ** cvm basic types *)

Module cvm.
Inductive BasicType : Set :=
| BoolType | IntType | DoubleType | StringType | VoidType.

Definition BasicType_eq_dec (a b : BasicType) : {a = b} + {a <> b}.
Proof. decide equality. Defined.

(** Modelled from the spec: the declaration of [cvm::BasicValue] is not
    part of the sources; the spec describes it as a tagged union over
    bool, int, double and string carrying exactly one active payload
    matching its type tag.  [VoidValue] is the value whose tag is
    [VoidType]. *)
Inductive BasicValue : Type :=
| BoolValue (BoolVal : bool)
| IntValue (IntVal : Z)
| DoubleValue (DoubleVal : float)
| StringValue (StrVal : string)
| VoidValue.

Definition Type_ (V : BasicValue) : BasicType :=
  match V with
  | BoolValue _ => BoolType
  | IntValue _ => IntType
  | DoubleValue _ => DoubleType
  | StringValue _ => StringType
  | VoidValue => VoidType
  end.

Definition isInt (V : BasicValue) : bool :=
  match V with IntValue _ => true | _ => false end.
Definition isDouble (V : BasicValue) : bool :=
  match V with DoubleValue _ => true | _ => false end.
Definition isString (V : BasicValue) : bool :=
  match V with StringValue _ => true | _ => false end.

(** [static_cast<double>(int)]: exact, every [int] is a double. *)
Definition double_of_int (z : Z) : float :=
  if (z <? 0)%Z
  then PrimFloat.opp (PrimFloat.of_uint63 (Uint63.of_Z (- z)))
  else PrimFloat.of_uint63 (Uint63.of_Z z).

(** Modelled from the spec: [BasicValue(BasicType)], the zero/default
    value of a declared type that an uninitialized declaration binds. *)
Definition zeroValue (T : BasicType) : BasicValue :=
  match T with
  | BoolType => BoolValue false
  | IntType => IntValue 0
  | DoubleType => DoubleValue 0%float
  | StringType => StringValue ""
  | VoidType => VoidValue
  end.
End cvm.

#[global] Instance BasicType_eq_decision : EqDecision cvm.BasicType :=
  cvm.BasicType_eq_dec.

(** ** Abstract syntax tree *)

Module BinaryOperator.
(** [BinaryOperatorAST::OperatorKind] as in [CMMParser.h], with [Index],
    which [CMMParser.cpp] and [CMMInterpreter.cpp] use, and with [NotEqual]:
    the header is older than the two files and has no kind for the token
    [!=], which [getBinOpPrecedence] gives a level and for which
    [parseBinOpRHS] builds a node like for any other operator.  The two
    come after the kinds of the header, which keep their values. *)
Inductive OperatorKind : Set :=
| Add | Minus | Multiply | Division | Modulo
| LogicalAnd | LogicalOr
| Less | LessEqual | Equal | Greater | GreaterEqual
| BitwiseAnd | BitwiseOr | BitwiseXor | LeftShift | RightShift
| Assign | Index | NotEqual.
End BinaryOperator.

Module UnaryOperator.
Inductive OperatorKind : Set := Plus | Minus | LogicalNot | BitwiseNot.
End UnaryOperator.

(** Expression nodes.  The constructor plays the role of [getKind()]:
    [IntExpression], [DoubleExpression], [BoolExpression], [StringExpression],
    [IdentifierExpression], [FunctionCallExpression],
    [BinaryOperatorExpression], [UnaryOperatorExpression], and the
    application of a user-defined infix operator. *)
Inductive ExpressionAST : Type :=
| IntAST (Value : Z)
| DoubleAST (Value : float)
| BoolAST (Value : bool)
| StringAST (Value : string)
| IdentifierAST (Name : string)
| FunctionCallAST (Callee : string) (Arguments : list ExpressionAST) (Dynamic : bool)
| BinaryOperatorAST (OpKind : BinaryOperator.OperatorKind) (LHS RHS : ExpressionAST)
| UnaryOperatorAST (OpKind : UnaryOperator.OperatorKind) (Operand : ExpressionAST)
| InfixOpExprAST (Symbol : string) (LHS RHS : ExpressionAST).

(** One declarator of a declaration list: [Name], the declared type, the
    initializer (null when absent) and the array dimensions. *)
Record DeclarationAST : Type := mkDeclarationAST {
  DeclName : string;
  DeclType : cvm.BasicType;
  Initializer : option ExpressionAST;
  CountExprList : list ExpressionAST
}.

Definition isArray (Decl : DeclarationAST) : bool :=
  match CountExprList Decl with [] => false | _ => true end.

(** Statement nodes; a statement pointer is [option StatementAST]. *)
Inductive StatementAST : Type :=
| BlockAST (StatementList : list (option StatementAST))
| IfStatementAST (Condition : ExpressionAST)
                 (StatementThen StatementElse : option StatementAST)
| WhileStatementAST (Condition : ExpressionAST) (Statement : option StatementAST)
| ForStatementAST (Init Condition Post : option ExpressionAST)
                  (Statement : option StatementAST)
| ReturnStatementAST (ReturnValue : option ExpressionAST)
| BreakStatementAST
| ContinueStatementAST
| ExprStatementAST (Expression : ExpressionAST)
| DeclarationStatement (Decl : DeclarationAST)
| DeclarationListAST (Type_ : cvm.BasicType) (DeclarationList : list DeclarationAST).

Record FunctionParameter : Type := mkParameter {
  ParamName : string;
  ParamType : cvm.BasicType;
  ParamLoc : LocTy
}.

Record FunctionDefinitionAST : Type := mkFunctionDefinitionAST {
  FuncName : string;
  FuncType : cvm.BasicType;
  ParameterList : list FunctionParameter;
  FuncStatement : option StatementAST
}.

Definition getParameterCount (F : FunctionDefinitionAST) : nat :=
  length (ParameterList F).

Record InfixOpDefinitionAST : Type := mkInfixOpDefinitionAST {
  InfixSymbol : string;
  InfixLHS : string;
  InfixRHS : string;
  InfixStatement : option StatementAST
}.

(** Node factories of the AST library, which is not part of the sources
    examined here ([BinaryOperatorAST::create], [tryFoldBinOp],
    [UnaryOperatorAST::tryFoldUnaryOp], the [create] functions of the
    if/for/while nodes) and the constant
    [InfixOpDefinitionAST::DefaultPrecedence].  The parser is generic in
    them. *)
Class ASTFactory : Type := {
  BinaryOperatorAST_create :
    Token.TokenKind → ExpressionAST → ExpressionAST → ExpressionAST;
  tryFoldBinOp :
    Token.TokenKind → ExpressionAST → ExpressionAST → ExpressionAST;
  tryFoldUnaryOp :
    UnaryOperator.OperatorKind → ExpressionAST → ExpressionAST;
  IfStatementAST_create :
    ExpressionAST → option StatementAST → option StatementAST →
    option StatementAST;
  ForStatementAST_create :
    option ExpressionAST → option ExpressionAST → option ExpressionAST →
    option StatementAST → option StatementAST;
  WhileStatementAST_create :
    ExpressionAST → option StatementAST → option StatementAST;
  DefaultPrecedence : Z
}.

(** ** A state monad with failure and fuel *)

Inductive Outcome (S E A : Type) : Type :=
| Done (a : A) (s : S)
| Raise (e : E) (s : S)
| OutOfFuel.
Arguments Done {S E A} a s.
Arguments Raise {S E A} e s.
Arguments OutOfFuel {S E A}.

Definition M (S E A : Type) : Type := S → Outcome S E A.

Definition ret {S E A} (a : A) : M S E A := λ s, Done a s.
Definition bind {S E A B} (m : M S E A) (f : A → M S E B) : M S E B := λ s,
  match m s with
  | Done a s' => f a s'
  | Raise e s' => Raise e s'
  | OutOfFuel => OutOfFuel
  end.

Declare Scope monad_scope.
Delimit Scope monad_scope with monad.
Notation "x ← y ; z" := (bind y (λ x, z))
  (at level 20, y at level 100, z at level 200, only parsing) : monad_scope.
Notation "' x ← y ; z" := (bind y (λ x, z))
  (at level 20, x pattern, y at level 100, z at level 200, only parsing) : monad_scope.
Notation "x ;; z" := (bind x (λ _, z))
  (at level 100, z at level 200, only parsing, right associativity) : monad_scope.
Local Open Scope monad_scope.

Definition get {S E} : M S E S := λ s, Done s s.
Definition modify {S E} (f : S → S) : M S E unit := λ s, Done tt (f s).
Definition raise {S E A} (e : E) : M S E A := λ s, Raise e s.
Definition outOfFuel {S E A} : M S E A := λ _, OutOfFuel.

(** ** Source manager ([SourceManager.cpp]) and parser state *)

Module ErrorKind.
Inductive t : Set := Error | Warning.
End ErrorKind.

(** An entry of [SourceManager::ErrorList].  With [DumpInstantly] the same
    entries go to the error stream instead, in the same order. *)
Record Diagnostic : Type := mkDiagnostic {
  DiagLoc : LocTy;
  DiagKind : ErrorKind.t;
  DiagMsg : string
}.

(** The members of [CMMParser] that the parsing functions read and write.
    [Input] is the lexer: its head is the current token [Lexer.getTok()]
    (end of input reads as [Token.Eof]).  [CurrentBlock] and the outer-block
    link of a block only record nesting while parsing and are left out, and
    with them the assert of [parseBlock] that [CurrentBlock] is the block
    being closed: where it is reached, every block opened in between has
    been closed and has put [CurrentBlock] back. *)
Record ParserState : Type := mkParserState {
  Input : list Lexeme;
  ErrorList : list Diagnostic;
  BinOpPrecedence : gmap string Z;
  FunctionDefinition : gmap string FunctionDefinitionAST;
  InfixOpDefinition : gmap string InfixOpDefinitionAST;
  TopLevelBlock : list (option StatementAST)
}.

Definition set_Input (i : list Lexeme) (st : ParserState) : ParserState :=
  mkParserState i (ErrorList st) (BinOpPrecedence st) (FunctionDefinition st)
                (InfixOpDefinition st) (TopLevelBlock st).
Definition set_ErrorList (l : list Diagnostic) (st : ParserState) : ParserState :=
  mkParserState (Input st) l (BinOpPrecedence st) (FunctionDefinition st)
                (InfixOpDefinition st) (TopLevelBlock st).
Definition set_BinOpPrecedence (m : gmap string Z) (st : ParserState) : ParserState :=
  mkParserState (Input st) (ErrorList st) m (FunctionDefinition st)
                (InfixOpDefinition st) (TopLevelBlock st).
Definition set_FunctionDefinition (m : gmap string FunctionDefinitionAST)
    (st : ParserState) : ParserState :=
  mkParserState (Input st) (ErrorList st) (BinOpPrecedence st) m
                (InfixOpDefinition st) (TopLevelBlock st).
Definition set_InfixOpDefinition (m : gmap string InfixOpDefinitionAST)
    (st : ParserState) : ParserState :=
  mkParserState (Input st) (ErrorList st) (BinOpPrecedence st)
                (FunctionDefinition st) m (TopLevelBlock st).
Definition set_TopLevelBlock (l : list (option StatementAST))
    (st : ParserState) : ParserState :=
  mkParserState (Input st) (ErrorList st) (BinOpPrecedence st)
                (FunctionDefinition st) (InfixOpDefinition st) l.

(** How a parsing function ends early: it has returned [true] ([Error] has
    reported why), or an [assert] on the current token has failed and the
    process is aborted (the asserts are compiled in, [NDEBUG] is not
    defined). *)
Inductive ParserExit : Type :=
| ReturnedTrue
| AssertionFailed (Msg : string).

Abbreviation Parser := (M ParserState ParserExit).

(** [SourceManager::Error] and [SourceManager::Warning]. *)
Definition SourceManager_Error (L : LocTy) (Msg : string) (st : ParserState) : ParserState :=
  set_ErrorList (ErrorList st ++ [mkDiagnostic L ErrorKind.Error Msg])%list st.
Definition SourceManager_Warning (L : LocTy) (Msg : string) (st : ParserState) : ParserState :=
  set_ErrorList (ErrorList st ++ [mkDiagnostic L ErrorKind.Warning Msg])%list st.

(** Lexer interface. *)
Definition getTok : Parser Lexeme := λ st, Done (hd (punct Token.Eof) (Input st)) st.
Definition getKind : Parser Token.TokenKind := Tok ← getTok; ret (Kind Tok).
Definition getStrVal : Parser string := Tok ← getTok; ret (StrVal Tok).
Definition getIntVal : Parser Z := Tok ← getTok; ret (IntVal Tok).
Definition getLoc : Parser LocTy := λ st, Done (Input st) st.
Definition Lex : Parser unit := modify (λ st, set_Input (tl (Input st)) st).
Definition Lexer_is (K : Token.TokenKind) : Parser bool :=
  Tok ← getTok; ret (bool_decide (Kind Tok = K)).
Definition Lexer_isNot (K : Token.TokenKind) : Parser bool :=
  b ← Lexer_is K; ret (negb b).
(** [Lexer.seekLoc(Loc); Lex();] *)
Definition seekLoc_Lex (Loc : LocTy) : Parser unit := modify (set_Input Loc).

(** [Error] reports and yields the failure signal; [Warning] only reports. *)
Definition Error {A} (Msg : string) : Parser A :=
  λ st, Raise ReturnedTrue (SourceManager_Error (Input st) Msg st).
Definition Warning (Msg : string) : Parser unit :=
  modify (λ st, SourceManager_Warning (Input st) Msg st).
Definition WarningAt (Loc : LocTy) (Msg : string) : Parser unit :=
  modify (SourceManager_Warning Loc Msg).

(** [assert(Lexer.is(K) && Msg)] *)
Definition assert_Lexer_is (K : Token.TokenKind) (Msg : string) : Parser unit :=
  b ← Lexer_is K;
  if b then ret tt else raise (AssertionFailed Msg).

(** [std::map::emplace]: inserts only when the key is absent; the boolean
    tells whether the insertion took place. *)
Definition emplace {V} (k : string) (v : V) (m : gmap string V) : gmap string V * bool :=
  match m !! k with
  | Some _ => (m, false)
  | None => (<[k := v]> m, true)
  end.

(** [static_cast<int8_t>]: reduction modulo 2^8 into [-128, 127]. *)
Definition int8_t (z : Z) : Z := (z + 128) mod 256 - 128.

(** ** The parser ([CMMParser.cpp]) *)

Definition parseTypeSpecifier : Parser cvm.BasicType :=
  K ← getKind;
  match K with
  | Token.Kw_bool => Lex;; ret cvm.BoolType
  | Token.Kw_int => Lex;; ret cvm.IntType
  | Token.Kw_double => Lex;; ret cvm.DoubleType
  | Token.Kw_void => Lex;; ret cvm.VoidType
  | Token.Kw_string => Lex;; ret cvm.StringType
  | _ => Error "unknown type specifier"
  end.

Definition getBinOpPrecedence : Parser Z :=
  Tok ← getTok;
  st ← get;
  ret match Kind Tok with
       | Token.Equal => 1
       | Token.PipePipe => 2
       | Token.AmpAmp => 3
       | Token.Pipe => 4
       | Token.Caret => 5
       | Token.Amp => 6
       | Token.EqualEqual | Token.ExclaimEqual => 7
       | Token.Less | Token.LessEqual | Token.Greater | Token.GreaterEqual => 8
       | Token.LessLess | Token.GreaterGreater => 9
       | Token.Plus | Token.Minus => 10
       | Token.Star | Token.Slash | Token.Percent => 11
       | Token.InfixOp =>
           match BinOpPrecedence st !! StrVal Tok with
           | Some Prec => Prec
           | None => -1
           end
       | _ => -1
       end.

Definition parseConstantExpression : Parser ExpressionAST :=
  Tok ← getTok;
  match Kind Tok with
  | Token.Integer => Lex;; ret (IntAST (IntVal Tok))
  | Token.Double => Lex;; ret (DoubleAST (DoubleVal Tok))
  | Token.Boolean => Lex;; ret (BoolAST (BoolVal Tok))
  | Token.String => Lex;; ret (StringAST (StrVal Tok))
  | _ => Error "unknown token in literal constant expression"
  end.

Definition parseEmptyStatement : Parser (option StatementAST) :=
  Warning "empty statement";;
  Lex;;
  ret None.

Definition parseBreakStatement : Parser (option StatementAST) :=
  assert_Lexer_is Token.Kw_break "parseIfStatement: unknown token";;
  Lex;;
  b ← Lexer_isNot Token.Semicolon;
  if b then Error "unexpected token after break"
  else Lex;; ret (Some BreakStatementAST).

Definition parseContinueStatement : Parser (option StatementAST) :=
  assert_Lexer_is Token.Kw_continue "parseIfStatement: unknown token";;
  Lex;;
  b ← Lexer_isNot Token.Semicolon;
  if b then Error "unexpected token after continue"
  else Lex;; ret (Some ContinueStatementAST).

(** A call whose error flag the caller looks at itself instead of passing
    it on: [None] is "returned true". *)
Definition returned {A} (m : Parser A) : Parser (option A) := λ st,
  match m st with
  | Done a st' => Done (Some a) st'
  | Raise ReturnedTrue st' => Done None st'
  | Raise (AssertionFailed Msg) st' => Raise (AssertionFailed Msg) st'
  | OutOfFuel => OutOfFuel
  end.

(** [parseParameterList] fills its list in place and its caller ignores the
    error flag, so the model returns the flag together with the list as far
    as it was built. *)
Fixpoint parseParameterList_loop (fuel : nat) (Params : list FunctionParameter)
    : Parser (bool * list FunctionParameter) :=
  match fuel with
  | O => outOfFuel
  | S n =>
      t ← returned parseTypeSpecifier;
      match t with
      | None => ret (true, Params)
      | Some Type_ =>
          Loc ← getLoc;
          b ← Lexer_is Token.Identifier;
          Identifier ← (if b
                        then (s ← getStrVal; Lex;; ret s)
                        else (Warning "missing identifier after type";; ret ""));
          let Params' := (Params ++ [mkParameter Identifier Type_ Loc])%list in
          c ← Lexer_isNot Token.Comma;
          if c then ret (false, Params')
          else Lex;; parseParameterList_loop n Params'
      end
  end.

Definition parseParameterList (fuel : nat) (Params : list FunctionParameter)
    : Parser (bool * list FunctionParameter) :=
  b ← Lexer_is Token.Kw_void;
  if b then Lex;; ret (false, Params)
  else parseParameterList_loop fuel Params.

Section Parser.
Context {Factory : ASTFactory}.

(** Expressions.  Every function of the recursive knot takes [fuel]. *)
Fixpoint parseExpression (fuel : nat) : Parser ExpressionAST :=
  match fuel with
  | O => outOfFuel
  | S n =>
      Res ← parsePrimaryExpression n;
      parseBinOpRHS n 1 Res
  end

with parseParenExpression (fuel : nat) : Parser ExpressionAST :=
  match fuel with
  | O => outOfFuel
  | S n =>
      Lex;;
      Res ← parseExpression n;
      b ← Lexer_isNot Token.RParen;
      if b then Error "expected ')' in parentheses expression"
      else Lex;; ret Res
  end

with parsePrimaryExpression (fuel : nat) : Parser ExpressionAST :=
  match fuel with
  | O => outOfFuel
  | S n =>
      K ← getKind;
      let unary (UnaryOpKind : UnaryOperator.OperatorKind) :=
        Lex;;
        Operand ← parsePrimaryExpression n;
        ret (tryFoldUnaryOp UnaryOpKind Operand) in
      match K with
      | Token.LParen => parseParenExpression n
      | Token.Identifier =>
          Res ← parseIdentifierExpression n;
          parseIndexExpressions n Res
      | Token.Integer | Token.Double | Token.String | Token.Boolean =>
          parseConstantExpression
      | Token.Plus => unary UnaryOperator.Plus
      | Token.Minus => unary UnaryOperator.Minus
      | Token.Tilde => unary UnaryOperator.BitwiseNot
      | Token.Exclaim => unary UnaryOperator.LogicalNot
      | _ => Error "unexpected token in expression"
      end
  end

(** The [while (Lexer.is(Token::LBrac))] loop of [parsePrimaryExpression]. *)
with parseIndexExpressions (fuel : nat) (Res : ExpressionAST) : Parser ExpressionAST :=
  match fuel with
  | O => outOfFuel
  | S n =>
      b ← Lexer_is Token.LBrac;
      if b then
        Lex;;
        IndexExpr ← parseExpression n;
        c ← Lexer_isNot Token.RBrac;
        if c then Error "RBrac ']' expected in index expression"
        else
          Lex;;
          parseIndexExpressions n
            (BinaryOperatorAST BinaryOperator.Index Res IndexExpr)
      else ret Res
  end

with parseBinOpRHS (fuel : nat) (ExprPrec : Z) (Res : ExpressionAST)
    : Parser ExpressionAST :=
  match fuel with
  | O => outOfFuel
  | S n =>
      (* Handle assignment expression first. *)
      b ← Lexer_is Token.Equal;
      if b then
        Lex;;
        RHS ← parseExpression n;
        ret (BinaryOperatorAST_create Token.Equal Res RHS)
      else parseBinOpRHS_loop n ExprPrec Res
  end

(** The [for (;;)] loop of [parseBinOpRHS]. *)
with parseBinOpRHS_loop (fuel : nat) (ExprPrec : Z) (Res : ExpressionAST)
    : Parser ExpressionAST :=
  match fuel with
  | O => outOfFuel
  | S n =>
      TokenKind ← getKind;
      TokPrec ← getBinOpPrecedence;
      if TokPrec <? ExprPrec then ret Res
      else
        Symbol ← getStrVal;
        Lex;;
        RHS ← parsePrimaryExpression n;
        NextPrec ← getBinOpPrecedence;
        RHS ← (if TokPrec <? NextPrec
               then parseBinOpRHS n (int8_t (TokPrec + 1)) RHS
               else ret RHS);
        parseBinOpRHS_loop n ExprPrec
          (if bool_decide (TokenKind = Token.InfixOp)
           then InfixOpExprAST Symbol Res RHS
           else tryFoldBinOp TokenKind Res RHS)
  end

with parseIdentifierExpression (fuel : nat) : Parser ExpressionAST :=
  match fuel with
  | O => outOfFuel
  | S n =>
      assert_Lexer_is Token.Identifier "parseIdentifierExpression: unknown token";;
      Identifier ← getStrVal;
      Lex;;
      Dynamic ← Lexer_is Token.Exclaim;
      ExclaimLoc ← getLoc;
      (if Dynamic then Lex else ret tt);;
      b ← Lexer_is Token.LParen;
      if b then
        Lex;;
        Args ← parseOptionalArgList n [];
        c ← Lexer_isNot Token.RParen;
        if c then Error "expect ')' in function call"
        else Lex;; ret (FunctionCallAST Identifier Args Dynamic)
      else
        (if Dynamic
         then WarningAt ExclaimLoc "trailing `!' is ignored in identifier"
         else ret tt);;
        ret (IdentifierAST Identifier)
  end

with parseOptionalArgList (fuel : nat) (ArgList : list ExpressionAST)
    : Parser (list ExpressionAST) :=
  match fuel with
  | O => outOfFuel
  | S n =>
      b ← Lexer_is Token.RParen;
      if b then ret ArgList else parseArgumentList n ArgList
  end

with parseArgumentList (fuel : nat) (ArgList : list ExpressionAST)
    : Parser (list ExpressionAST) :=
  match fuel with
  | O => outOfFuel
  | S n =>
      Expression ← parseExpression n;
      let ArgList := (ArgList ++ [Expression])%list in
      b ← Lexer_isNot Token.Comma;
      if b then ret ArgList
      else Lex;; parseArgumentList n ArgList
  end.

(** Statements built from expressions only. *)
Definition parseExprStatement (fuel : nat) : Parser (option StatementAST) :=
  Expression ← parseExpression fuel;
  b ← Lexer_isNot Token.Semicolon;
  if b then Error "missing semicolon in statement"
  else Lex;; ret (Some (ExprStatementAST Expression)).

Definition parseReturnStatement (fuel : nat) : Parser (option StatementAST) :=
  assert_Lexer_is Token.Kw_return "parseIfStatement: unknown token";;
  Lex;;
  b ← Lexer_isNot Token.Semicolon;
  ReturnValue ← (if b then e ← parseExpression fuel; ret (Some e) else ret None);
  c ← Lexer_isNot Token.Semicolon;
  if c then Error "unexpected token after return value"
  else Lex;; ret (Some (ReturnStatementAST ReturnValue)).

(** The [while (Lexer.is(Token::LBrac))] loop of a declarator. *)
Fixpoint parseCountExprList (fuel : nat) (CountExprs : list ExpressionAST)
    : Parser (list ExpressionAST) :=
  match fuel with
  | O => outOfFuel
  | S n =>
      b ← Lexer_is Token.LBrac;
      if b then
        Lex;;
        CountExpr ← parseExpression n;
        c ← Lexer_isNot Token.RBrac;
        if c then Error "RBrac ']' expected in array declaration"
        else Lex;; parseCountExprList n (CountExprs ++ [CountExpr])%list
      else ret CountExprs
  end.

(** The [for (;;)] loop of [parseDeclarationStatement(Type, Res)]. *)
Fixpoint parseDeclarators (fuel : nat) (Type_ : cvm.BasicType)
    (DeclList : list DeclarationAST) : Parser (list DeclarationAST) :=
  match fuel with
  | O => outOfFuel
  | S n =>
      b ← Lexer_isNot Token.Identifier;
      if b then Error "identifier expected"
      else
        Name ← getStrVal;
        Lex;;
        CountExprs ← parseCountExprList n [];
        e ← Lexer_is Token.Equal;
        InitExpr ← (if e then Lex;; i ← parseExpression n; ret (Some i)
                    else ret None);
        let DeclList :=
          (DeclList ++ [mkDeclarationAST Name Type_ InitExpr CountExprs])%list in
        c ← Lexer_isNot Token.Comma;
        if c then ret DeclList
        else Lex;; parseDeclarators n Type_ DeclList
  end.

(** [parseDeclarationStatement(cvm::BasicType Type, Res)] *)
Definition parseDeclarationStatement_typed (fuel : nat) (Type_ : cvm.BasicType)
    : Parser (option StatementAST) :=
  DeclList ← parseDeclarators fuel Type_ [];
  b ← Lexer_isNot Token.Semicolon;
  if b then Error "expected semicolon in the declaration"
  else Lex;; ret (Some (DeclarationListAST Type_ DeclList)).

(** [parseDeclarationStatement(Res)] *)
Definition parseDeclarationStatement (fuel : nat) : Parser (option StatementAST) :=
  Type_ ← parseTypeSpecifier;
  parseDeclarationStatement_typed fuel Type_.

(** Statements. *)
Fixpoint parseStatement (fuel : nat) : Parser (option StatementAST) :=
  match fuel with
  | O => outOfFuel
  | S n =>
      K ← getKind;
      match K with
      | Token.LCurly => parseBlock n
      | Token.Kw_if => parseIfStatement n
      | Token.Kw_while => parseWhileStatement n
      | Token.Kw_for => parseForStatement n
      | Token.Kw_return => parseReturnStatement n
      | Token.Kw_break => parseBreakStatement
      | Token.Kw_continue => parseContinueStatement
      | Token.Semicolon => parseEmptyStatement
      | Token.Kw_bool | Token.Kw_int | Token.Kw_double | Token.Kw_string =>
          parseDeclarationStatement n
      | Token.Kw_void => Error "`void' only appears before function definition"
      | Token.LParen | Token.Identifier
      | Token.Double | Token.String
      | Token.Boolean | Token.Integer
      | Token.Plus | Token.Minus
      | Token.Tilde | Token.Exclaim =>
          parseExprStatement n
      | _ => Error "unexpected token in statement"
      end
  end

with parseBlock (fuel : nat) : Parser (option StatementAST) :=
  match fuel with
  | O => outOfFuel
  | S n =>
      assert_Lexer_is Token.LCurly "first token in parseBlock()";;
      Lex;;
      StatementList ← parseBlock_loop n [];
      Lex;;
      ret (Some (BlockAST StatementList))
  end

(** The [while (Lexer.isNot(Token::RCurly))] loop of [parseBlock]; the
    statement pointer is added to the block whatever it is. *)
with parseBlock_loop (fuel : nat) (StatementList : list (option StatementAST))
    : Parser (list (option StatementAST)) :=
  match fuel with
  | O => outOfFuel
  | S n =>
      b ← Lexer_isNot Token.RCurly;
      if b then
        Statement ← parseStatement n;
        parseBlock_loop n (StatementList ++ [Statement])%list
      else ret StatementList
  end

with parseIfStatement (fuel : nat) : Parser (option StatementAST) :=
  match fuel with
  | O => outOfFuel
  | S n =>
      assert_Lexer_is Token.Kw_if "parseIfStatement: unknown token";;
      Lex;;
      b ← Lexer_isNot Token.LParen;
      if b then Error "left parenthesis expected"
      else
        Lex;;
        Condition ← parseExpression n;
        c ← Lexer_isNot Token.RParen;
        if c then Error "right parenthesis expected"
        else
          Lex;;
          StatementThen ← parseStatement n;
          e ← Lexer_is Token.Kw_else;
          StatementElse ← (if e then Lex;; parseStatement n else ret None);
          ret (IfStatementAST_create Condition StatementThen StatementElse)
  end

with parseForStatement (fuel : nat) : Parser (option StatementAST) :=
  match fuel with
  | O => outOfFuel
  | S n =>
      let optionalExpression (Stop : Token.TokenKind) : Parser (option ExpressionAST) :=
        b ← Lexer_isNot Stop;
        if b then e ← parseExpression n; ret (Some e) else ret None in
      assert_Lexer_is Token.Kw_for "parseIfStatement: unknown token";;
      Lex;;
      b ← Lexer_isNot Token.LParen;
      if b then Error "left parenthesis expected in for loop"
      else
        Lex;;
        Init ← optionalExpression Token.Semicolon;
        c ← Lexer_isNot Token.Semicolon;
        if c then Error "missing semicolon for initial expression in for loop"
        else
          Lex;;
          Condition ← optionalExpression Token.Semicolon;
          d ← Lexer_isNot Token.Semicolon;
          if d then Error "missing semicolon for conditional expression in for loop"
          else
            Lex;;
            Post ← optionalExpression Token.RParen;
            e ← Lexer_isNot Token.RParen;
            if e then Error "missing semicolon for post expression in for loop"
            else
              Lex;;
              Statement ← parseStatement n;
              ret (ForStatementAST_create Init Condition Post Statement)
  end

with parseWhileStatement (fuel : nat) : Parser (option StatementAST) :=
  match fuel with
  | O => outOfFuel
  | S n =>
      assert_Lexer_is Token.Kw_while
        "parseIfStatement: unknown token, 'while' expexted";;
      Lex;;
      b ← Lexer_isNot Token.LParen;
      if b then Error "left parenthesis expected in while loop"
      else
        Lex;;
        Condition ← parseExpression n;
        c ← Lexer_isNot Token.RParen;
        if c then Error "right parenthesis expected in while loop"
        else
          Lex;;
          Statement ← parseStatement n;
          ret (WhileStatementAST_create Condition Statement)
  end.

(** Top-level entities. *)
Definition parseInfixOpDefinition (fuel : nat) : Parser unit :=
  assert_Lexer_is Token.Kw_infix "";;
  Loc ← getLoc;
  Lex;;
  i ← Lexer_is Token.Integer;
  Precedence ← (if i then v ← getIntVal; Lex;; ret v else ret DefaultPrecedence);
  b ← Lexer_isNot Token.Identifier;
  if b then Error "left hand operand name for infix operator expected"
  else
    LHS ← getStrVal;
    Lex;;
    c ← Lexer_isNot Token.InfixOp;
    if c then Error "symbol of infix operator expected"
    else
      Symbol ← getStrVal;
      Lex;;
      d ← Lexer_isNot Token.Identifier;
      if d then Error "right hand operand name for infix operator expected"
      else
        RHS ← getStrVal;
        Lex;;
        e ← Lexer_is Token.Equal;
        Statement ← (if e then Lex;; parseExprStatement fuel
                     else parseStatement fuel);
        st ← get;
        let '(Precs, Inserted) :=
          emplace Symbol (int8_t Precedence) (BinOpPrecedence st) in
        modify (set_BinOpPrecedence Precs);;
        (if Inserted then ret tt
         else WarningAt Loc ("infix operator " ++ Symbol ++ " overrides another"));;
        modify (λ st, set_InfixOpDefinition
                        (emplace Symbol
                           (mkInfixOpDefinitionAST Symbol LHS RHS Statement)
                           (InfixOpDefinition st)).1 st).

(** [parseFunctionDefinition(cvm::BasicType RetType, const std::string &Name)] *)
Definition parseFunctionDefinition_named (fuel : nat) (RetType : cvm.BasicType)
    (Name : string) : Parser unit :=
  assert_Lexer_is Token.LParen "parseFunctionDefinition: unknown token";;
  Loc ← getLoc;
  Lex;;
  b ← Lexer_isNot Token.RParen;
  '(_, Params) ← (if b then parseParameterList fuel [] else ret (false, []));
  c ← Lexer_isNot Token.RParen;
  if c then Error "right parenthesis expected"
  else
    Lex;;
    Statement ← parseStatement fuel;
    let FuncDef := mkFunctionDefinitionAST Name RetType Params Statement in
    st ← get;
    let '(Funcs, Inserted) := emplace Name FuncDef (FunctionDefinition st) in
    modify (set_FunctionDefinition Funcs);;
    if Inserted then ret tt
    else WarningAt Loc ("function `" ++ Name ++ "' overrides another one").

(** [parseFunctionDefinition()] *)
Definition parseFunctionDefinition (fuel : nat) : Parser unit :=
  RetType ← parseTypeSpecifier;
  b ← Lexer_isNot Token.Identifier;
  if b then Error "expect identifier in function definition"
  else
    Identifier ← getStrVal;
    Lex;;
    parseFunctionDefinition_named fuel RetType Identifier.

Definition addStatement (Statement : option StatementAST) : Parser unit :=
  modify (λ st, set_TopLevelBlock (TopLevelBlock st ++ [Statement])%list st).

Definition parseTopLevel (fuel : nat) : Parser unit :=
  K ← getKind;
  match K with
  | Token.Kw_infix => parseInfixOpDefinition fuel
  | Token.Kw_void => parseFunctionDefinition fuel
  | Token.Kw_int | Token.Kw_bool | Token.Kw_double | Token.Kw_string =>
      (* Function definition or variable declaration: both start with
         Type Identifier. *)
      Type_ ← parseTypeSpecifier;
      Loc ← getLoc;
      b ← Lexer_isNot Token.Identifier;
      if b then Error "expect identifier after type"
      else
        Name ← getStrVal;
        Lex;;
        p ← Lexer_is Token.LParen;
        if p then parseFunctionDefinition_named fuel Type_ Name
        else
          seekLoc_Lex Loc;;
          DeclStatement ← parseDeclarationStatement_typed fuel Type_;
          addStatement DeclStatement
  | _ =>
      Statement ← parseStatement fuel;
      addStatement Statement
  end.

(** [parse()]: the first [Lex()] is what puts the first token at the head
    of [Input]. *)
Fixpoint parse (fuel : nat) : Parser unit :=
  match fuel with
  | O => outOfFuel
  | S n =>
      K ← getKind;
      match K with
      | Token.Eof | Token.Error => ret tt
      | _ => parseTopLevel n;; parse n
      end
  end.

End Parser.

Definition initialParserState (Tokens : list Lexeme) : ParserState :=
  mkParserState Tokens [] ∅ ∅ ∅ [].

(** ** The interpreter ([CMMInterpreter.cpp]) *)

(** How a run can stop early: [RuntimeError] prints its message and calls
    [std::exit(EXIT_FAILURE)]; dereferencing a null statement pointer and
    using a node through a [static_cast] to a class it is not are undefined
    behaviour, kept apart from every defined result. *)
Inductive Abort : Type :=
| ExitFailure (Msg : string)
| NullPointerDereference
| InvalidDowncast
| InvalidIterator.

(** The parts of the virtual machine library the interpreter calls and
    whose definitions are not part of the sources: the four binary
    evaluators (each may end the run through [RuntimeError], hence the sum),
    [BasicValue::toString], [cvm::TypeToStr], the value of a
    default-constructed [cvm::BasicValue], and the native functions. *)
Class Runtime : Type := {
  evaluateBinArith :
    BinaryOperator.OperatorKind → cvm.BasicValue → cvm.BasicValue →
    string + cvm.BasicValue;
  evaluateBinLogic :
    BinaryOperator.OperatorKind → cvm.BasicValue → cvm.BasicValue →
    string + cvm.BasicValue;
  evaluateBinRelation :
    BinaryOperator.OperatorKind → cvm.BasicValue → cvm.BasicValue →
    string + cvm.BasicValue;
  evaluateBinBitwise :
    BinaryOperator.OperatorKind → cvm.BasicValue → cvm.BasicValue →
    string + cvm.BasicValue;
  toString : cvm.BasicValue → string;
  TypeToStr : cvm.BasicType → string;
  DefaultBasicValue : cvm.BasicValue;
  NativePrint : list cvm.BasicValue → string + cvm.BasicValue;
  NativePrintln : list cvm.BasicValue → string + cvm.BasicValue;
  NativeSystem : list cvm.BasicValue → string + cvm.BasicValue
}.

Definition NativeFunction : Type := list cvm.BasicValue → string + cvm.BasicValue.

Module ExecutionResult.
(** [NormalStatementResult] and [ReturnStatementResult] are the two kinds
    the sources name; the other two are the spec's Break and Continue. *)
Inductive ResultKind : Set :=
| NormalStatementResult
| ReturnStatementResult
| BreakStatementResult
| ContinueStatementResult.

Definition ResultKind_eq_dec (a b : ResultKind) : {a = b} + {a <> b}.
Proof. decide equality. Defined.

Record t : Type := mk { Kind : ResultKind; ReturnValue : cvm.BasicValue }.
End ExecutionResult.

#[global] Instance ResultKind_eq_decision : EqDecision ExecutionResult.ResultKind :=
  ExecutionResult.ResultKind_eq_dec.

(** The environments alive at one moment.  [TopLevelEnv] is the member of
    the interpreter; [Scopes] are the [VariableEnv] objects of the running
    blocks and of the running call, innermost first.  The current [Env] is
    the head of [Scopes] (or [TopLevelEnv] when there is none) and following
    [OuterEnv] walks down [Scopes] and ends in [TopLevelEnv]. *)
Record InterpreterState : Type := mkInterpreterState {
  TopLevelEnv : gmap string cvm.BasicValue;
  Scopes : list (gmap string cvm.BasicValue)
}.

Abbreviation Interp := (M InterpreterState Abort).

Definition RuntimeError {A} (Msg : string) : Interp A := raise (ExitFailure Msg).

Definition liftRuntime {A} (r : string + A) : Interp A :=
  match r with
  | inl Msg => RuntimeError Msg
  | inr a => ret a
  end.

(** The chain of environments seen from the current [Env]. *)
Definition EnvChain (st : InterpreterState) : list (gmap string cvm.BasicValue) :=
  (Scopes st ++ [TopLevelEnv st])%list.

(** The current [Env] and its replacement. *)
Definition CurrentEnv (st : InterpreterState) : gmap string cvm.BasicValue :=
  match Scopes st with
  | [] => TopLevelEnv st
  | E :: _ => E
  end.

Definition set_CurrentEnv (E : gmap string cvm.BasicValue) (st : InterpreterState)
    : InterpreterState :=
  match Scopes st with
  | [] => mkInterpreterState E []
  | _ :: Outer => mkInterpreterState (TopLevelEnv st) (E :: Outer)
  end.

(** The environment at position [i] of the chain and its replacement; an
    iterator into a [VarMap] is a position of the chain together with the
    name. *)
Definition set_EnvAt (i : nat) (E : gmap string cvm.BasicValue) (st : InterpreterState)
    : InterpreterState :=
  if (i <? length (Scopes st))%nat
  then mkInterpreterState (TopLevelEnv st) (<[i := E]> (Scopes st))
  else mkInterpreterState E (Scopes st).

Fixpoint findEnv (Name : string) (Chain : list (gmap string cvm.BasicValue))
    (i : nat) : option nat :=
  match Chain with
  | [] => None
  | E :: Outer =>
      match E !! Name with
      | Some _ => Some i
      | None => findEnv Name Outer (S i)
      end
  end.

Definition searchVariable (Name : string) : Interp nat :=
  st ← get;
  match findEnv Name (EnvChain st) 0 with
  | Some i => ret i
  | None => RuntimeError ("variable `" ++ Name ++ "' is undefined")
  end.

(** Reading and writing through an iterator obtained from [searchVariable]. *)
Definition readVariable (i : nat) (Name : string) : Interp cvm.BasicValue :=
  st ← get;
  match EnvChain st !! i ≫= (.!! Name) with
  | Some V => ret V
  | None => raise InvalidIterator
  end.

Definition writeVariable (i : nat) (Name : string) (V : cvm.BasicValue) : Interp unit :=
  modify (λ st,
    match EnvChain st !! i with
    | Some E => set_EnvAt i (<[Name := V]> E) st
    | None => st
    end).

(** The immutable members of [CMMInterpreter]. *)
Record CMMInterpreter : Type := mkCMMInterpreter {
  InterpTopLevelBlock : list (option StatementAST);
  UserFunctionMap : gmap string FunctionDefinitionAST;
  NativeFunctionMap : gmap string NativeFunction
}.

(** [BinaryOperatorAST::OperatorKind] as the integer [std::to_string] prints. *)
Definition OperatorKind_code (OpKind : BinaryOperator.OperatorKind) : nat :=
  match OpKind with
  | BinaryOperator.Add => 0 | BinaryOperator.Minus => 1
  | BinaryOperator.Multiply => 2 | BinaryOperator.Division => 3
  | BinaryOperator.Modulo => 4
  | BinaryOperator.LogicalAnd => 5 | BinaryOperator.LogicalOr => 6
  | BinaryOperator.Less => 7 | BinaryOperator.LessEqual => 8
  | BinaryOperator.Equal => 9 | BinaryOperator.Greater => 10
  | BinaryOperator.GreaterEqual => 11
  | BinaryOperator.BitwiseAnd => 12 | BinaryOperator.BitwiseOr => 13
  | BinaryOperator.BitwiseXor => 14
  | BinaryOperator.LeftShift => 15 | BinaryOperator.RightShift => 16
  | BinaryOperator.Assign => 17 | BinaryOperator.Index => 18
  | BinaryOperator.NotEqual => 19
  end%nat.

Section Interpreter.
Context {RT : Runtime}.
Variable This : CMMInterpreter.

(** [ExecutionResult()] and [ExecutionResult(Kind)].  The default kind is
    the normal one: [executeExprStatement] and [executeDeclaration] return
    [ExecutionResult()] on normal completion, and [interpret] ends the run on
    every other kind. *)
Definition ExecutionResult_default : ExecutionResult.t :=
  ExecutionResult.mk ExecutionResult.NormalStatementResult DefaultBasicValue.
Definition ExecutionResult_of (K : ExecutionResult.ResultKind) : ExecutionResult.t :=
  ExecutionResult.mk K DefaultBasicValue.

Definition addNativeFunctions : gmap string NativeFunction :=
  <["system" := NativeSystem]>
    (<["println" := NativePrintln]> (<["print" := NativePrint]> ∅)).

(** The functions below are written against the two entry points of the
    recursion, [executeStatement] and [evaluateExpression], which are tied
    together by fuel afterwards.  The [Env] argument of the C++ functions is
    the current environment of the state. *)
Section Bodies.
Variable executeStatement : option StatementAST → Interp ExecutionResult.t.
Variable evaluateExpression : ExpressionAST → Interp cvm.BasicValue.

(** The [for] loop of [executeBlock]; [Res] is the result so far. *)
Fixpoint executeStatementList (StatementList : list (option StatementAST))
    (Res : ExecutionResult.t) : Interp ExecutionResult.t :=
  match StatementList with
  | [] => ret Res
  | Statement :: Rest =>
      Res ← executeStatement Statement;
      if bool_decide (ExecutionResult.Kind Res ≠ ExecutionResult.NormalStatementResult)
      then ret Res
      else executeStatementList Rest Res
  end.

Definition executeBlock (StatementList : list (option StatementAST))
    : Interp ExecutionResult.t :=
  (* VariableEnv CurrentEnv(OuterEnv); *)
  modify (λ st, mkInterpreterState (TopLevelEnv st) (∅ :: Scopes st));;
  Res ← executeStatementList StatementList ExecutionResult_default;
  (* CurrentEnv goes out of scope *)
  modify (λ st, mkInterpreterState (TopLevelEnv st) (tl (Scopes st)));;
  ret Res.

Definition executeIfStatement (Stmt : StatementAST) : Interp ExecutionResult.t :=
  (* todo *)
  ret ExecutionResult_default.

Definition executeExprStatement (Expression : ExpressionAST)
    : Interp ExecutionResult.t :=
  evaluateExpression Expression;;
  ret ExecutionResult_default.

Definition executeReturnStatement (ReturnValue : option ExpressionAST)
    : Interp ExecutionResult.t :=
  match ReturnValue with
  | Some ReturnValueExpr =>
      V ← evaluateExpression ReturnValueExpr;
      ret (ExecutionResult.mk ExecutionResult.ReturnStatementResult V)
  | None => ret (ExecutionResult_of ExecutionResult.ReturnStatementResult)
  end.

Definition executeDeclaration (Decl : DeclarationAST) : Interp ExecutionResult.t :=
  let Name := DeclName Decl in
  st ← get;
  (* Env->contains(Name) *)
  if bool_decide (is_Some (CurrentEnv st !! Name))
  then RuntimeError ("variable `" ++ Name ++ "' is already defined in current scope")
  else if isArray Decl
  then RuntimeError "unimplemented!"
  else
    Val ← match Initializer Decl with
          | Some Init =>
              Val ← evaluateExpression Init;
              if bool_decide (cvm.Type_ Val ≠ DeclType Decl) then
                if bool_decide (DeclType Decl = cvm.DoubleType) && cvm.isInt Val
                then match Val with
                     | cvm.IntValue IntVal =>
                         ret (cvm.DoubleValue (cvm.double_of_int IntVal))
                     | _ => ret Val
                     end
                else RuntimeError ("variable `" ++ Name ++ "' is declared to be " ++
                                   TypeToStr (DeclType Decl) ++
                                   ", but is initialized to be " ++
                                   TypeToStr (cvm.Type_ Val))
              else ret Val
          | None => ret (cvm.zeroValue (DeclType Decl))
          end;
    (* Env->VarMap.emplace(std::make_pair(Name, Val)) *)
    modify (λ st, set_CurrentEnv (emplace Name Val (CurrentEnv st)).1 st);;
    ret ExecutionResult_default.

Fixpoint executeDeclarationList (DeclarationList : list DeclarationAST)
    : Interp ExecutionResult.t :=
  match DeclarationList with
  | [] => ret ExecutionResult_default
  | Decl :: Rest => executeDeclaration Decl;; executeDeclarationList Rest
  end.

Definition evaluateIdentifierExpr (Name : string) : Interp cvm.BasicValue :=
  It ← searchVariable Name;
  readVariable It Name.

Definition evaluateAssignment (Name : string) (Expr : ExpressionAST)
    : Interp cvm.BasicValue :=
  It ← searchVariable Name;
  RHS ← evaluateExpression Expr;
  LHS ← readVariable It Name;
  if bool_decide (cvm.Type_ LHS ≠ cvm.Type_ RHS) then
    match LHS, RHS with
    | cvm.DoubleValue _, cvm.IntValue IntVal =>
        let LHS := cvm.DoubleValue (cvm.double_of_int IntVal) in
        writeVariable It Name LHS;;
        ret LHS
    | _, _ =>
        RuntimeError ("assignment to " ++ TypeToStr (cvm.Type_ LHS) ++
                      " variable `" ++ Name ++ "' with " ++
                      TypeToStr (cvm.Type_ RHS) ++ " expression")
    end
  else
    writeVariable It Name RHS;;
    ret RHS.

Definition evaluateBinaryCalc (OpKind : BinaryOperator.OperatorKind)
    (LHS RHS : cvm.BasicValue) : Interp cvm.BasicValue :=
  match OpKind with
  | BinaryOperator.Add =>
      if cvm.isString LHS || cvm.isString RHS
      then ret (cvm.StringValue (toString LHS ++ toString RHS))
      else liftRuntime (evaluateBinArith OpKind LHS RHS)
  | BinaryOperator.Minus
  | BinaryOperator.Multiply
  | BinaryOperator.Division =>
      liftRuntime (evaluateBinArith OpKind LHS RHS)
  | BinaryOperator.LogicalAnd
  | BinaryOperator.LogicalOr =>
      liftRuntime (evaluateBinLogic OpKind LHS RHS)
  | BinaryOperator.Less
  | BinaryOperator.LessEqual
  | BinaryOperator.Equal
  | BinaryOperator.Greater
  | BinaryOperator.GreaterEqual =>
      liftRuntime (evaluateBinRelation OpKind LHS RHS)
  | BinaryOperator.BitwiseAnd
  | BinaryOperator.BitwiseOr
  | BinaryOperator.BitwiseXor
  | BinaryOperator.LeftShift
  | BinaryOperator.RightShift =>
      liftRuntime (evaluateBinBitwise OpKind LHS RHS)
  | BinaryOperator.Assign
  | BinaryOperator.Index =>
      RuntimeError "assignment/index should be handled in evaluateBinaryOpExpr"
  | _ (* default *) =>
      RuntimeError ("unknown binary operator kind (code :" ++
                    pretty (OperatorKind_code OpKind) ++ ")")
  end.

Definition evaluateBinaryOpExpr (OpKind : BinaryOperator.OperatorKind)
    (LHS RHS : ExpressionAST) : Interp cvm.BasicValue :=
  match OpKind with
  | BinaryOperator.Assign =>
      (* static_cast<IdentifierAST *>(Expr->getLHS())->getName() *)
      match LHS with
      | IdentifierAST Name => evaluateAssignment Name RHS
      | _ => raise InvalidDowncast
      end
  | BinaryOperator.Index => RuntimeError "array unimplemented!"
  | _ =>
      L ← evaluateExpression LHS;
      R ← evaluateExpression RHS;
      evaluateBinaryCalc OpKind L R
  end.

Fixpoint evaluateArgumentList (Args : list ExpressionAST)
    : Interp (list cvm.BasicValue) :=
  match Args with
  | [] => ret []
  | P :: Rest =>
      V ← evaluateExpression P;
      Vs ← evaluateArgumentList Rest;
      ret (V :: Vs)
  end.

Definition callNativeFunction (Function : NativeFunction)
    (Args : list cvm.BasicValue) : Interp cvm.BasicValue :=
  liftRuntime (Function Args).

(** The [for] loop of [callUserFunction] that checks and binds the
    arguments; [Paras] is what is left from [ParaIt] on. *)
Fixpoint bindArguments (Function : FunctionDefinitionAST)
    (Paras : list FunctionParameter) (Args : list cvm.BasicValue)
    (FuncEnv : gmap string cvm.BasicValue)
    : Interp (gmap string cvm.BasicValue) :=
  match Args with
  | [] => ret FuncEnv
  | Arg :: Args' =>
      match Paras with
      | [] => raise InvalidIterator
      | Para :: Paras' =>
          if bool_decide (ParamType Para ≠ cvm.Type_ Arg)
          then RuntimeError ("in function `" ++ FuncName Function ++
                             "', parameter `" ++ ParamName Para ++
                             "' has type " ++ TypeToStr (ParamType Para) ++
                             ", but argument has type " ++
                             TypeToStr (cvm.Type_ Arg))
          else bindArguments Function Paras' Args'
                 (<[ParamName Para := Arg]> FuncEnv)
      end
  end.

Definition callUserFunction (Function : FunctionDefinitionAST)
    (Args : list cvm.BasicValue) : Interp cvm.BasicValue :=
  if bool_decide (length Args ≠ getParameterCount Function)
  then RuntimeError ("Function `" ++ FuncName Function ++ "' expects " ++
                     pretty (getParameterCount Function) ++ " parameter(s), " ++
                     pretty (length Args) ++ " argument(s) provided")
  else
    (* VariableEnv FuncEnv(&TopLevelEnv); *)
    FuncEnv ← bindArguments Function (ParameterList Function) Args ∅;
    Caller ← get;
    modify (λ st, mkInterpreterState (TopLevelEnv st) [FuncEnv]);;
    Result ← executeStatement (FuncStatement Function);
    (* back in the caller: FuncEnv is gone, the caller's scopes are current *)
    modify (λ st, mkInterpreterState (TopLevelEnv st) (Scopes Caller));;
    if bool_decide (cvm.Type_ (ExecutionResult.ReturnValue Result) ≠ FuncType Function)
    then RuntimeError ("function `" ++ FuncName Function ++ "' ought to return " ++
                       TypeToStr (FuncType Function) ++ ", but got " ++
                       TypeToStr (cvm.Type_ (ExecutionResult.ReturnValue Result)))
    else ret (ExecutionResult.ReturnValue Result).

Definition evaluateFunctionCallExpr (Callee : string) (Arguments : list ExpressionAST)
    : Interp cvm.BasicValue :=
  match UserFunctionMap This !! Callee with
  | Some UserFunc =>
      Args ← evaluateArgumentList Arguments;
      callUserFunction UserFunc Args
  | None =>
      match NativeFunctionMap This !! Callee with
      | Some NativeFunc =>
          Args ← evaluateArgumentList Arguments;
          callNativeFunction NativeFunc Args
      | None => RuntimeError ("function `" ++ Callee ++ "' is undefined")
      end
  end.

(** The [switch] of [executeStatement]; [Stmt->getKind()] on a null [Stmt]
    dereferences it. *)
Definition executeStatement_switch (Stmt : option StatementAST)
    : Interp ExecutionResult.t :=
  match Stmt with
  | None => raise NullPointerDereference
  | Some (ExprStatementAST Expression) => executeExprStatement Expression
  | Some (BlockAST StatementList) => executeBlock StatementList
  | Some (IfStatementAST _ _ _) =>
      (* Res = executeIfStatement(...) is commented out *)
      ret ExecutionResult_default
  | Some (ReturnStatementAST ReturnValue) => executeReturnStatement ReturnValue
  | Some (WhileStatementAST _ _)
  | Some (ForStatementAST _ _ _ _)
  | Some ContinueStatementAST
  | Some BreakStatementAST
  | Some (DeclarationStatement _) =>
      RuntimeError "single declaration should not be used by user"
  | Some (DeclarationListAST _ DeclarationList) =>
      executeDeclarationList DeclarationList
  end.

(** The [switch] of [evaluateExpression]. *)
Definition evaluateExpression_switch (Expr : ExpressionAST) : Interp cvm.BasicValue :=
  match Expr with
  | IntAST Value => ret (cvm.IntValue Value)
  | DoubleAST Value => ret (cvm.DoubleValue Value)
  | BoolAST Value => ret (cvm.BoolValue Value)
  | StringAST Value => ret (cvm.StringValue Value)
  | IdentifierAST Name => evaluateIdentifierExpr Name
  | FunctionCallAST Callee Arguments _ => evaluateFunctionCallExpr Callee Arguments
  | BinaryOperatorAST OpKind LHS RHS => evaluateBinaryOpExpr OpKind LHS RHS
  | UnaryOperatorAST _ _ => RuntimeError "unimplemented"
  | _ (* default *) => RuntimeError "unknown expression kind"
  end.

End Bodies.

Fixpoint executeStatement (fuel : nat) (Stmt : option StatementAST)
    : Interp ExecutionResult.t :=
  match fuel with
  | O => outOfFuel
  | S n => executeStatement_switch (executeStatement n) (evaluateExpression n) Stmt
  end

with evaluateExpression (fuel : nat) (Expr : ExpressionAST) : Interp cvm.BasicValue :=
  match fuel with
  | O => outOfFuel
  | S n => evaluateExpression_switch (executeStatement n) (evaluateExpression n) Expr
  end.

(** The loop of [interpret()]. *)
Fixpoint interpretStatements (fuel : nat) (StatementList : list (option StatementAST))
    : Interp unit :=
  match StatementList with
  | [] => ret tt
  | Stmt :: Rest =>
      Res ← executeStatement fuel Stmt;
      if bool_decide (ExecutionResult.Kind Res ≠ ExecutionResult.NormalStatementResult)
      then RuntimeError "unbounded break/continue/return"
      else interpretStatements fuel Rest
  end.

Definition interpret (fuel : nat) : Interp unit :=
  interpretStatements fuel (InterpTopLevelBlock This).

End Interpreter.

Definition initialInterpreterState : InterpreterState := mkInterpreterState ∅ [].

(** ** Reference instances

    Every theorem below is proved for all node factories and all runtimes.
    The two instances of this section give closed examples something to
    run on. *)

Definition OperatorKind_of_token (K : Token.TokenKind)
    : option BinaryOperator.OperatorKind :=
  match K with
  | Token.Plus => Some BinaryOperator.Add
  | Token.Minus => Some BinaryOperator.Minus
  | Token.Star => Some BinaryOperator.Multiply
  | Token.Slash => Some BinaryOperator.Division
  | Token.Percent => Some BinaryOperator.Modulo
  | Token.AmpAmp => Some BinaryOperator.LogicalAnd
  | Token.PipePipe => Some BinaryOperator.LogicalOr
  | Token.Less => Some BinaryOperator.Less
  | Token.LessEqual => Some BinaryOperator.LessEqual
  | Token.EqualEqual => Some BinaryOperator.Equal
  | Token.ExclaimEqual => Some BinaryOperator.NotEqual
  | Token.Greater => Some BinaryOperator.Greater
  | Token.GreaterEqual => Some BinaryOperator.GreaterEqual
  | Token.Amp => Some BinaryOperator.BitwiseAnd
  | Token.Pipe => Some BinaryOperator.BitwiseOr
  | Token.Caret => Some BinaryOperator.BitwiseXor
  | Token.LessLess => Some BinaryOperator.LeftShift
  | Token.GreaterGreater => Some BinaryOperator.RightShift
  | Token.Equal => Some BinaryOperator.Assign
  | _ => None
  end.

(** Modelled from the spec: the node factories are not part of the sources;
    the spec says the result of an operator and its two sides is a
    binary-operator node, and that nodes are plain data.  [PlainNodes] builds
    exactly the node, with the operator kind of the token, for each of the
    nineteen tokens of the builtin precedence table, the only ones the parser
    passes (any other token leaves the left side as it is), and does no
    folding. *)
Definition PlainNodes (DefaultPrec : Z) : ASTFactory := {|
  BinaryOperatorAST_create K L R :=
    match OperatorKind_of_token K with
    | Some OpKind => BinaryOperatorAST OpKind L R
    | None => L
    end;
  tryFoldBinOp K L R :=
    match OperatorKind_of_token K with
    | Some OpKind => BinaryOperatorAST OpKind L R
    | None => L
    end;
  tryFoldUnaryOp := UnaryOperatorAST;
  IfStatementAST_create C T E := Some (IfStatementAST C T E);
  ForStatementAST_create I C P S := Some (ForStatementAST I C P S);
  WhileStatementAST_create C S := Some (WhileStatementAST C S);
  DefaultPrecedence := DefaultPrec
|}.

(** Modelled from the spec: the evaluators and the native functions are not
    part of the sources.  Arithmetic is int/int to int and otherwise promotes
    to double; logic takes bool operands; relations produce bool from numeric
    or string operands; bitwise and shift operators take integer operands;
    each rejects the operand types it does not define.  Output of the native
    functions is not modelled. *)
Module Reference.
Definition rejected {A} (What : string) : string + A :=
  inl ("invalid operands to " ++ What).

Definition asDouble (V : cvm.BasicValue) : option float :=
  match V with
  | cvm.IntValue i => Some (cvm.double_of_int i)
  | cvm.DoubleValue d => Some d
  | _ => None
  end.

Definition BinArith (OpKind : BinaryOperator.OperatorKind)
    (L R : cvm.BasicValue) : string + cvm.BasicValue :=
  match L, R with
  | cvm.IntValue a, cvm.IntValue b =>
      match OpKind with
      | BinaryOperator.Add => inr (cvm.IntValue (a + b))
      | BinaryOperator.Minus => inr (cvm.IntValue (a - b))
      | BinaryOperator.Multiply => inr (cvm.IntValue (a * b))
      | BinaryOperator.Division =>
          if b =? 0 then rejected "division" else inr (cvm.IntValue (Z.quot a b))
      | _ => rejected "arithmetic"
      end
  | _, _ =>
      match asDouble L, asDouble R with
      | Some a, Some b =>
          match OpKind with
          | BinaryOperator.Add => inr (cvm.DoubleValue (a + b)%float)
          | BinaryOperator.Minus => inr (cvm.DoubleValue (a - b)%float)
          | BinaryOperator.Multiply => inr (cvm.DoubleValue (a * b)%float)
          | BinaryOperator.Division => inr (cvm.DoubleValue (a / b)%float)
          | _ => rejected "arithmetic"
          end
      | _, _ => rejected "arithmetic"
      end
  end.

Definition BinLogic (OpKind : BinaryOperator.OperatorKind)
    (L R : cvm.BasicValue) : string + cvm.BasicValue :=
  match L, R, OpKind with
  | cvm.BoolValue a, cvm.BoolValue b, BinaryOperator.LogicalAnd =>
      inr (cvm.BoolValue (a && b))
  | cvm.BoolValue a, cvm.BoolValue b, BinaryOperator.LogicalOr =>
      inr (cvm.BoolValue (a || b))
  | _, _, _ => rejected "logic"
  end.

Definition relation (OpKind : BinaryOperator.OperatorKind) (c : comparison)
    : string + cvm.BasicValue :=
  match OpKind, c with
  | BinaryOperator.Less, Lt
  | BinaryOperator.LessEqual, (Lt | Eq)
  | BinaryOperator.Equal, Eq
  | BinaryOperator.Greater, Gt
  | BinaryOperator.GreaterEqual, (Gt | Eq) => inr (cvm.BoolValue true)
  | (BinaryOperator.Less | BinaryOperator.LessEqual | BinaryOperator.Equal
    | BinaryOperator.Greater | BinaryOperator.GreaterEqual), _ =>
      inr (cvm.BoolValue false)
  | _, _ => rejected "relation"
  end.

Definition BinRelation (OpKind : BinaryOperator.OperatorKind)
    (L R : cvm.BasicValue) : string + cvm.BasicValue :=
  match L, R with
  | cvm.IntValue a, cvm.IntValue b => relation OpKind (a ?= b)
  | cvm.StringValue a, cvm.StringValue b => relation OpKind (String.compare a b)
  | _, _ =>
      match asDouble L, asDouble R with
      | Some a, Some b =>
          match PrimFloat.compare a b with
          | FEq => relation OpKind Eq
          | FLt => relation OpKind Lt
          | FGt => relation OpKind Gt
          | FNotComparable => inr (cvm.BoolValue false)
          end
      | _, _ => rejected "relation"
      end
  end.

Definition BinBitwise (OpKind : BinaryOperator.OperatorKind)
    (L R : cvm.BasicValue) : string + cvm.BasicValue :=
  match L, R with
  | cvm.IntValue a, cvm.IntValue b =>
      match OpKind with
      | BinaryOperator.BitwiseAnd => inr (cvm.IntValue (Z.land a b))
      | BinaryOperator.BitwiseOr => inr (cvm.IntValue (Z.lor a b))
      | BinaryOperator.BitwiseXor => inr (cvm.IntValue (Z.lxor a b))
      | BinaryOperator.LeftShift => inr (cvm.IntValue (Z.shiftl a b))
      | BinaryOperator.RightShift => inr (cvm.IntValue (Z.shiftr a b))
      | _ => rejected "bitwise"
      end
  | _, _ => rejected "bitwise"
  end.

Definition typeName (T : cvm.BasicType) : string :=
  match T with
  | cvm.BoolType => "bool"
  | cvm.IntType => "int"
  | cvm.DoubleType => "double"
  | cvm.StringType => "string"
  | cvm.VoidType => "void"
  end.

(** A double is printed by its type name only: the spec fixes no format. *)
Definition valueToString (V : cvm.BasicValue) : string :=
  match V with
  | cvm.BoolValue b => if b then "true" else "false"
  | cvm.IntValue i => pretty i
  | cvm.DoubleValue _ => "double"
  | cvm.StringValue s => s
  | cvm.VoidValue => "void"
  end.

Definition Native (Args : list cvm.BasicValue) : string + cvm.BasicValue :=
  inr cvm.VoidValue.

Definition runtime : Runtime := {|
  evaluateBinArith := BinArith;
  evaluateBinLogic := BinLogic;
  evaluateBinRelation := BinRelation;
  evaluateBinBitwise := BinBitwise;
  toString := valueToString;
  TypeToStr := typeName;
  DefaultBasicValue := cvm.VoidValue;
  NativePrint := Native;
  NativePrintln := Native;
  NativeSystem := Native
|}.
End Reference.

(** * Definitions used by the statements *)

(** The precedence [getBinOpPrecedence] reports for a current token [T]
    under the table [Precs]; [precedenceOf K] is the one of a builtin token
    kind. *)
Definition tokenPrecedence (Precs : gmap string Z) (T : Lexeme) : Z :=
  match getBinOpPrecedence (mkParserState [T] [] Precs ∅ ∅ []) with
  | Done Prec _ => Prec
  | _ => -1
  end.

Definition precedenceOf (K : Token.TokenKind) : Z := tokenPrecedence ∅ (punct K).

(** The operators of the builtin precedence table: the tokens with a level
    of their own in the [switch] of [getBinOpPrecedence], assignment
    included. *)
Definition isBinOp (K : Token.TokenKind) : bool :=
  match K with
  | Token.Equal
  | Token.PipePipe | Token.AmpAmp | Token.Pipe | Token.Caret | Token.Amp
  | Token.EqualEqual | Token.ExclaimEqual
  | Token.Less | Token.LessEqual | Token.Greater | Token.GreaterEqual
  | Token.LessLess | Token.GreaterGreater
  | Token.Plus | Token.Minus
  | Token.Star | Token.Slash | Token.Percent => true
  | _ => false
  end.

(** The operands of one token: a literal or a plain identifier, and the
    node each parses to. *)
Definition isOperand (T : Lexeme) : bool :=
  match Kind T with
  | Token.Integer | Token.Double | Token.Boolean | Token.String
  | Token.Identifier => true
  | _ => false
  end.

Definition operandExpr (T : Lexeme) : ExpressionAST :=
  match Kind T with
  | Token.Integer => IntAST (IntVal T)
  | Token.Double => DoubleAST (DoubleVal T)
  | Token.Boolean => BoolAST (BoolVal T)
  | Token.String => StringAST (StrVal T)
  | _ => IdentifierAST (StrVal T)
  end.

(** An operand in general: the tokens of a primary expression and the node
    they are parsed to. *)
Record Operand : Type := mkOperand {
  operandTokens : list Lexeme;
  operandNode : ExpressionAST
}.

Definition simpleOperand (T : Lexeme) : Operand := mkOperand [T] (operandExpr T).

(** A token that does not continue an identifier expression. *)
Definition endsOperand (T : Lexeme) : Prop :=
  Kind T ≠ Token.Exclaim ∧ Kind T ≠ Token.LParen ∧ Kind T ≠ Token.LBrac.

(** [parsePrimaryExpression] reads the tokens of [Opnd] as the node of [Opnd]:
    with [k + 2] units of fuel or more, whatever comes after them, as long as
    the next token does not continue an identifier expression, it returns
    the node, has consumed exactly these tokens and has changed nothing else
    of the state [st]. *)
Definition readsOperand {Factory : ASTFactory} (st : ParserState) (k : nat)
    (Opnd : Operand) : Prop :=
  ∀ (fuel : nat) (rest : list Lexeme),
    (k + 2 ≤ fuel)%nat →
    endsOperand (hd (punct Token.Eof) rest) →
    parsePrimaryExpression fuel (set_Input (operandTokens Opnd ++ rest) st) =
    Done (operandNode Opnd) (set_Input rest st).

(** The shape of an expression over binary operators: which operator
    token sits over which operands. *)
Inductive Shape : Type :=
| Leaf (Opnd : Operand)
| Node (Op : Lexeme) (L R : Shape).

Fixpoint tokens (T : Shape) : list Lexeme :=
  match T with
  | Leaf Opnd => operandTokens Opnd
  | Node Op L R => (tokens L ++ Op :: tokens R)%list
  end.

Definition rootPrecedence (T : Shape) : option Z :=
  match T with
  | Leaf _ => None
  | Node Op _ _ => Some (precedenceOf (Kind Op))
  end.

(** Standard precedence and left associativity: under an operator, the left
    side is an operand or an operator that binds at least as tightly, the
    right side is an operand or an operator that binds strictly tighter. *)
Fixpoint respectsPrecedence (T : Shape) : Prop :=
  match T with
  | Leaf _ => True
  | Node Op L R =>
      respectsPrecedence L ∧ respectsPrecedence R ∧
      (∀ p, rootPrecedence L = Some p → precedenceOf (Kind Op) ≤ p) ∧
      (∀ p, rootPrecedence R = Some p → precedenceOf (Kind Op) < p)
  end.

(** The tree of an operand followed by (operator, operand) pairs: each
    pair goes down the right spine past the operators that bind less
    tightly than its own and takes what it finds there as its left side. *)
Fixpoint attach (T : Shape) (Op : Lexeme) (Opnd : Operand) : Shape :=
  match T with
  | Leaf _ => Node Op T (Leaf Opnd)
  | Node Op' L R =>
      if precedenceOf (Kind Op') <? precedenceOf (Kind Op)
      then Node Op' L (attach R Op Opnd)
      else Node Op T (Leaf Opnd)
  end.

Definition attachAll (T : Shape) (Ops : list (Lexeme * Operand)) : Shape :=
  fold_left (λ T p, attach T p.1 p.2) Ops T.

Definition precedenceTree (First : Operand) (Rest : list (Lexeme * Operand)) : Shape :=
  attachAll (Leaf First) Rest.

(** The tokens of (operator, operand) pairs, in their order. *)
Definition flatOps (Ops : list (Lexeme * Operand)) : list Lexeme :=
  concat (map (λ p, p.1 :: operandTokens p.2) Ops).

(** The expression a shape stands for, with the nodes the loop of
    [parseBinOpRHS] builds. *)
Fixpoint build {Factory : ASTFactory} (T : Shape) : ExpressionAST :=
  match T with
  | Leaf Opnd => operandNode Opnd
  | Node Op L R => tryFoldBinOp (Kind Op) (build L) (build R)
  end.

(** The expression of an operand followed by (operator, operand) pairs, as
    [parseExpression] builds it.  When the first operator is [=], the first
    operand is assigned the expression of everything after the [=]; after
    any other first operator the expression is the one of the precedence
    tree, in which a later [=] is an operator of level 1 like any other. *)
Fixpoint expressionNode {Factory : ASTFactory} (First : Operand)
    (Rest : list (Lexeme * Operand)) : ExpressionAST :=
  match Rest with
  | [] => operandNode First
  | (Op, Next) :: Rest' =>
      if bool_decide (Kind Op = Token.Equal)
      then BinaryOperatorAST_create Token.Equal (operandNode First)
             (expressionNode Next Rest')
      else build (precedenceTree First Rest)
  end.

(** The first operator, if there is one, is not [=]. *)
Definition startsWithOperator (Rest : list (Lexeme * Operand)) : Prop :=
  ∀ q, head Rest = Some q → Kind q.1 ≠ Token.Equal.

(** The token after the expression ends it: it is no binary operator (in
    particular not [=] and no registered infix symbol) and none of the tokens
    that continue an identifier. *)
Definition endsExpression (Precs : gmap string Z) (After : list Lexeme) : Prop :=
  let T := hd (punct Token.Eof) After in
  tokenPrecedence Precs T < 1 ∧
  Kind T ≠ Token.Exclaim ∧ Kind T ≠ Token.LParen ∧ Kind T ≠ Token.LBrac.

(** The operators at the front of [Ops] that bind at least as tightly as
    [p], and what follows them: what one run of the loop of [parseBinOpRHS]
    started with [ExprPrec = p] takes, and what it leaves. *)
Fixpoint spanPrec (p : Z) (Ops : list (Lexeme * Operand))
    : list (Lexeme * Operand) * list (Lexeme * Operand) :=
  match Ops with
  | [] => ([], [])
  | q :: Ops' =>
      if p <=? precedenceOf (Kind q.1)
      then (q :: (spanPrec p Ops').1, (spanPrec p Ops').2)
      else ([], Ops)
  end.

(** The precedence of the first operator of [Ops]. *)
Definition headPrecedence (Ops : list (Lexeme * Operand)) : option Z :=
  match Ops with
  | [] => None
  | q :: _ => Some (precedenceOf (Kind q.1))
  end.

(** The first operand of a shape and the (operator, operand) pairs after it:
    the expression read from left to right. *)
Fixpoint firstOperand (T : Shape) : Operand :=
  match T with
  | Leaf Opnd => Opnd
  | Node _ L _ => firstOperand L
  end.

Fixpoint operatorPairs (T : Shape) : list (Lexeme * Operand) :=
  match T with
  | Leaf _ => []
  | Node Op L R => (operatorPairs L ++ (Op, firstOperand R) :: operatorPairs R)%list
  end.

(** Every pair is an operator of the builtin table followed by an operand
    that [parsePrimaryExpression] reads. *)
Definition operatorsAndOperands {Factory : ASTFactory} (st : ParserState)
    (k : nat) (Ops : list (Lexeme * Operand)) : Prop :=
  Forall (λ q, isBinOp (Kind q.1) = true ∧ readsOperand st k q.2) Ops.

(** [1 + 2 * 3 ;] and [2 * 3 + 1 ;] *)
Definition tokens_1_plus_2_times_3 : list Lexeme :=
  [tokInteger 1; punct Token.Plus; tokInteger 2; punct Token.Star; tokInteger 3;
   punct Token.Semicolon].
Definition tokens_2_times_3_plus_1 : list Lexeme :=
  [tokInteger 2; punct Token.Star; tokInteger 3; punct Token.Plus; tokInteger 1;
   punct Token.Semicolon].

(** [( 1 + 2 ) * - 3 ;]: the operands are a parenthesised expression and a
    literal with a sign. *)
Definition tokens_paren_times_minus : list Lexeme :=
  [punct Token.LParen; tokInteger 1; punct Token.Plus; tokInteger 2;
   punct Token.RParen; punct Token.Star; punct Token.Minus; tokInteger 3;
   punct Token.Semicolon].

(** [a = b = c ;] and [a + b = c = d ;] *)
Definition tokens_a_b_c : list Lexeme :=
  [tokIdentifier "a"; punct Token.Equal; tokIdentifier "b"; punct Token.Equal;
   tokIdentifier "c"; punct Token.Semicolon].
Definition tokens_a_plus_b_c_d : list Lexeme :=
  [tokIdentifier "a"; punct Token.Plus; tokIdentifier "b"; punct Token.Equal;
   tokIdentifier "c"; punct Token.Equal; tokIdentifier "d"; punct Token.Semicolon].

(** The outcome "control falls through". *)
Definition Normal (Res : ExecutionResult.t) : Prop :=
  ExecutionResult.Kind Res = ExecutionResult.NormalStatementResult.

(** The two outcomes the sources name. *)
Definition returnsOrFallsThrough (Res : ExecutionResult.t) : Prop :=
  ExecutionResult.Kind Res = ExecutionResult.NormalStatementResult ∨
  ExecutionResult.Kind Res = ExecutionResult.ReturnStatementResult.

(** Modelled from the spec: the constructor of the interpreter is not part
    of the sources; the interpreter executes the top-level statement list of
    the parser and calls the functions of its function table, next to the
    native functions registered by [addNativeFunctions]. *)
Definition makeInterpreter {RT : Runtime} (P : ParserState) : CMMInterpreter :=
  mkCMMInterpreter (TopLevelBlock P) (FunctionDefinition P) addNativeFunctions.

(** An interpreter with no statements and no user functions. *)
Definition emptyInterpreter : CMMInterpreter :=
  makeInterpreter (RT := Reference.runtime) (initialParserState []).

(** The program [1; ;] *)
Definition tokens_1_then_empty : list Lexeme :=
  [tokInteger 1; punct Token.Semicolon; punct Token.Semicolon].

(** The program [if (1) ;] and what it parses to. *)
Definition tokens_if_empty : list Lexeme :=
  [punct Token.Kw_if; punct Token.LParen; tokInteger 1; punct Token.RParen;
   punct Token.Semicolon].
Definition parsed_if_empty : ParserState :=
  mkParserState []
    [mkDiagnostic [punct Token.Semicolon] ErrorKind.Warning "empty statement"]
    ∅ ∅ ∅ [Some (IfStatementAST (IntAST 1) None None)].

(** The program [int f() ; 1;] and what it parses to. *)
Definition tokens_empty_body : list Lexeme :=
  [punct Token.Kw_int; tokIdentifier "f"; punct Token.LParen; punct Token.RParen;
   punct Token.Semicolon; tokInteger 1; punct Token.Semicolon].
Definition parsed_empty_body : ParserState :=
  mkParserState []
    [mkDiagnostic [punct Token.Semicolon; tokInteger 1; punct Token.Semicolon]
       ErrorKind.Warning "empty statement"]
    ∅ (<["f" := mkFunctionDefinitionAST "f" cvm.IntType [] None]> ∅) ∅
    [Some (ExprStatementAST (IntAST 1))].

(** The program [x; ;] and what it parses to. *)
Definition tokens_x_then_empty : list Lexeme :=
  [tokIdentifier "x"; punct Token.Semicolon; punct Token.Semicolon].
Definition parsed_x_then_empty : ParserState :=
  mkParserState []
    [mkDiagnostic [punct Token.Semicolon] ErrorKind.Warning "empty statement"]
    ∅ ∅ ∅ [Some (ExprStatementAST (IdentifierAST "x")); None].

(** An argument whose type is not the declared type of its parameter. *)
Definition typeMismatch (Paras : list FunctionParameter) (Args : list cvm.BasicValue)
    : Prop :=
  ∃ (i : nat) (Para : FunctionParameter) (Arg : cvm.BasicValue),
    Paras !! i = Some Para ∧ Args !! i = Some Arg ∧
    ParamType Para ≠ cvm.Type_ Arg.

(** [double half(double x) return x / 2;] called as [half(1)] *)
Definition function_half : FunctionDefinitionAST :=
  mkFunctionDefinitionAST "half" cvm.DoubleType
    [mkParameter "x" cvm.DoubleType []]
    (Some (ReturnStatementAST
             (Some (BinaryOperatorAST BinaryOperator.Division
                      (IdentifierAST "x") (IntAST 2))))).

(** What a declaration of type [T] stores for an initializer value [V]
    whose type it accepts. *)
Definition initialValue (T : cvm.BasicType) (V : cvm.BasicValue) : cvm.BasicValue :=
  match T, V with
  | cvm.DoubleType, cvm.IntValue IntVal => cvm.DoubleValue (cvm.double_of_int IntVal)
  | _, _ => V
  end.

(** The types a declaration of type [T] accepts from its initializer. *)
Definition initializerAccepted (T : cvm.BasicType) (V : cvm.BasicValue) : Prop :=
  cvm.Type_ V = T ∨ (T = cvm.DoubleType ∧ cvm.Type_ V = cvm.IntType).

(** [int x = v;] as a top-level statement. *)
Definition declare_int_x (v : Z) : option StatementAST :=
  Some (DeclarationListAST cvm.IntType
          [mkDeclarationAST "x" cvm.IntType (Some (IntAST v)) []]).

(** [infix 5 a <> b = a - b;  10 <> 3 <> 1;] *)
Definition tokens_infix_program : list Lexeme :=
  [punct Token.Kw_infix; tokInteger 5; tokIdentifier "a"; tokInfixOp "<>";
   tokIdentifier "b"; punct Token.Equal;
   tokIdentifier "a"; punct Token.Minus; tokIdentifier "b"; punct Token.Semicolon;
   tokInteger 10; tokInfixOp "<>"; tokInteger 3; tokInfixOp "<>"; tokInteger 1;
   punct Token.Semicolon].

(** (10 <> 3) <> 1 *)
Definition expr_10_3_1 : ExpressionAST :=
  InfixOpExprAST "<>" (InfixOpExprAST "<>" (IntAST 10) (IntAST 3)) (IntAST 1).

(** The parser after that program: [<>] has precedence 5 and the body
    [a - b], and the one top-level statement is the expression. *)
Definition parsed_infix_program {Factory : ASTFactory} : ParserState :=
  mkParserState [] []
    (<["<>" := 5]> ∅)
    ∅
    (<["<>" := mkInfixOpDefinitionAST "<>" "a" "b"
                 (Some (ExprStatementAST
                          (tryFoldBinOp Token.Minus
                             (IdentifierAST "a") (IdentifierAST "b"))))]> ∅)
    [Some (ExprStatementAST expr_10_3_1)].

(** [int f() return 1;  int f() return 2;] *)
Definition tokens_f_defined_twice : list Lexeme :=
  [punct Token.Kw_int; tokIdentifier "f"; punct Token.LParen; punct Token.RParen;
   punct Token.Kw_return; tokInteger 1; punct Token.Semicolon;
   punct Token.Kw_int; tokIdentifier "f"; punct Token.LParen; punct Token.RParen;
   punct Token.Kw_return; tokInteger 2; punct Token.Semicolon].

(** [infix 5 a <> b = a;  infix 7 a <> b = b;] *)
Definition tokens_infix_defined_twice : list Lexeme :=
  [punct Token.Kw_infix; tokInteger 5; tokIdentifier "a"; tokInfixOp "<>";
   tokIdentifier "b"; punct Token.Equal; tokIdentifier "a"; punct Token.Semicolon;
   punct Token.Kw_infix; tokInteger 7; tokIdentifier "a"; tokInfixOp "<>";
   tokIdentifier "b"; punct Token.Equal; tokIdentifier "b"; punct Token.Semicolon].

(** What a parse left behind: the diagnostics and the three tables. *)
Definition parsedAs (r : Outcome ParserState ParserExit unit)
    : option (list (ErrorKind.t * string) *
              list (string * Z) *
              list (string * FunctionDefinitionAST) *
              list (string * InfixOpDefinitionAST)) :=
  match r with
  | Done _ st =>
      Some (map (λ d, (DiagKind d, DiagMsg d)) (ErrorList st),
            map_to_list (BinOpPrecedence st),
            map_to_list (FunctionDefinition st),
            map_to_list (InfixOpDefinition st))
  | _ => None
  end.

(** [1 = 3;] *)
Definition tokens_assign_to_literal : list Lexeme :=
  [tokInteger 1; punct Token.Equal; tokInteger 3; punct Token.Semicolon].

(** [c2] gives the result of [c1] wherever [c1] does not run out of fuel. *)
Definition refines {S E A} (c1 c2 : M S E A) : Prop :=
  ∀ s, c1 s ≠ OutOfFuel → c2 s = c1 s.

(** What more fuel means for the functions of the expression knot, and of
    the statement knot. *)
Definition exprFuel {Factory : ASTFactory} (n m : nat) : Prop :=
  refines (parseExpression n) (parseExpression m) ∧
  refines (parseParenExpression n) (parseParenExpression m) ∧
  refines (parsePrimaryExpression n) (parsePrimaryExpression m) ∧
  (∀ Res, refines (parseIndexExpressions n Res) (parseIndexExpressions m Res)) ∧
  (∀ p Res, refines (parseBinOpRHS n p Res) (parseBinOpRHS m p Res)) ∧
  (∀ p Res, refines (parseBinOpRHS_loop n p Res) (parseBinOpRHS_loop m p Res)) ∧
  refines (parseIdentifierExpression n) (parseIdentifierExpression m) ∧
  (∀ l, refines (parseOptionalArgList n l) (parseOptionalArgList m l)) ∧
  (∀ l, refines (parseArgumentList n l) (parseArgumentList m l)).

Definition stmtFuel {Factory : ASTFactory} (n m : nat) : Prop :=
  refines (parseStatement n) (parseStatement m) ∧
  refines (parseBlock n) (parseBlock m) ∧
  (∀ l, refines (parseBlock_loop n l) (parseBlock_loop m l)) ∧
  refines (parseIfStatement n) (parseIfStatement m) ∧
  refines (parseForStatement n) (parseForStatement m) ∧
  refines (parseWhileStatement n) (parseWhileStatement m).

(** * Definitions used by the further properties *)

(** ** Relating the state before and after a computation *)

(** [post D R c]: wherever [c] returns normally the states before and after
    are related by [D], wherever it ends early, with the exit [e], they are
    related by [R e]. *)
Definition post {S E A} (D : S → S → Prop) (R : E → S → S → Prop)
    (c : M S E A) : Prop :=
  ∀ s, match c s with
       | Done _ s' => D s s'
       | Raise e s' => R e s s'
       | OutOfFuel => True
       end.

(** What makes [post D R] go through a sequence. *)
Record Sequential {S E} (D : S → S → Prop) (R : E → S → S → Prop) : Prop := {
  seq_refl : ∀ s, D s s;
  seq_trans : ∀ s1 s2 s3, D s1 s2 → D s2 s3 → D s1 s3;
  seq_fail : ∀ e s1 s2 s3, D s1 s2 → R e s2 s3 → R e s1 s3
}.

(** The relation [R] at every exit of the parser, and at the exit "returned
    true" only (nothing is said of the state an assert has failed in). *)
Definition atExit (R : ParserState → ParserState → Prop)
    : ParserExit → ParserState → ParserState → Prop :=
  λ _, R.
Definition onReturn (R : ParserState → ParserState → Prop)
    : ParserExit → ParserState → ParserState → Prop :=
  λ e s s', match e with
            | ReturnedTrue => R s s'
            | AssertionFailed _ => True
            end.

(** The lexer and diagnostic primitives every parsing function is made of. *)
Record ParserSteps (D : ParserState → ParserState → Prop)
    (R : ParserExit → ParserState → ParserState → Prop) : Prop := {
  steps_seq : Sequential D R;
  steps_Lex : post D R Lex;
  steps_Error : ∀ A Msg, post D R (Error (A := A) Msg);
  steps_Warning : ∀ Msg, post D R (Warning Msg);
  steps_WarningAt : ∀ Loc Msg, post D R (WarningAt Loc Msg);
  steps_assert : ∀ K Msg, post D R (assert_Lexer_is K Msg)
}.

Definition exprPost {Factory : ASTFactory}
    (D : ParserState → ParserState → Prop)
    (R : ParserExit → ParserState → ParserState → Prop) (n : nat) : Prop :=
  post D R (parseExpression n) ∧
  post D R (parseParenExpression n) ∧
  post D R (parsePrimaryExpression n) ∧
  (∀ Res, post D R (parseIndexExpressions n Res)) ∧
  (∀ p Res, post D R (parseBinOpRHS n p Res)) ∧
  (∀ p Res, post D R (parseBinOpRHS_loop n p Res)) ∧
  post D R (parseIdentifierExpression n) ∧
  (∀ l, post D R (parseOptionalArgList n l)) ∧
  (∀ l, post D R (parseArgumentList n l)).

Definition stmtPost {Factory : ASTFactory}
    (D : ParserState → ParserState → Prop)
    (R : ParserExit → ParserState → ParserState → Prop) (n : nat) : Prop :=
  post D R (parseStatement n) ∧
  post D R (parseBlock n) ∧
  (∀ l, post D R (parseBlock_loop n l)) ∧
  post D R (parseIfStatement n) ∧
  post D R (parseForStatement n) ∧
  post D R (parseWhileStatement n).

(** The end of [parseInfixOpDefinition]: the two [emplace] calls and the
    warning between them. *)
Definition registerInfixOp (Loc : LocTy) (Symbol : string) (Precedence : Z)
    (Def : InfixOpDefinitionAST) : Parser unit :=
  st ← get;
  let '(Precs, Inserted) :=
    emplace Symbol (int8_t Precedence) (BinOpPrecedence st) in
  modify (set_BinOpPrecedence Precs);;
  (if Inserted then ret tt
   else WarningAt Loc ("infix operator " ++ Symbol ++ " overrides another"));;
  modify (λ st, set_InfixOpDefinition
                  (emplace Symbol Def (InfixOpDefinition st)).1 st).

(** The end of [parseFunctionDefinition(RetType, Name)]: the [emplace] call
    and the warning after it. *)
Definition registerFunction (Loc : LocTy) (Name : string)
    (FuncDef : FunctionDefinitionAST) : Parser unit :=
  st ← get;
  let '(Funcs, Inserted) := emplace Name FuncDef (FunctionDefinition st) in
  modify (set_FunctionDefinition Funcs);;
  if Inserted then ret tt
  else WarningAt Loc ("function `" ++ Name ++ "' overrides another one").

(** What the top-level functions do beyond the statement parsers: they
    ignore the error flag of the parameter list, register definitions under
    their own name and append to the top-level statement list. *)
Record TopLevelSteps (D : ParserState → ParserState → Prop)
    (R : ParserExit → ParserState → ParserState → Prop) : Prop := {
  top_steps : ParserSteps D R;
  top_ignored : ∀ s s', R ReturnedTrue s s' → D s s';
  top_registerInfixOp : ∀ Loc Symbol Precedence LHS RHS Statement,
    post D R (registerInfixOp Loc Symbol Precedence
                (mkInfixOpDefinitionAST Symbol LHS RHS Statement));
  top_registerFunction : ∀ Loc Name RetType Params Statement,
    post D R (registerFunction Loc Name
                (mkFunctionDefinitionAST Name RetType Params Statement));
  top_addStatement : ∀ x s,
    D s (set_TopLevelBlock (TopLevelBlock s ++ [x]) s)
}.

(** Relations that every single write of a table satisfies. *)
Record TableWrites (D : ParserState → ParserState → Prop) : Prop := {
  writes_BinOpPrecedence : ∀ k v s,
    D s (set_BinOpPrecedence (emplace k v (BinOpPrecedence s)).1 s);
  writes_FunctionDefinition : ∀ k v s,
    D s (set_FunctionDefinition (emplace k v (FunctionDefinition s)).1 s);
  writes_InfixOpDefinition : ∀ k v s,
    D s (set_InfixOpDefinition (emplace k v (InfixOpDefinition s)).1 s)
}.

(** ** What parsing keeps *)

(** Everything recorded so far is still there: diagnostics and top-level
    statements are only appended, table entries are neither removed nor
    replaced. *)
Definition keepsRecords (s s' : ParserState) : Prop :=
  ErrorList s `prefix_of` ErrorList s' ∧
  BinOpPrecedence s ⊆ BinOpPrecedence s' ∧
  FunctionDefinition s ⊆ FunctionDefinition s' ∧
  InfixOpDefinition s ⊆ InfixOpDefinition s' ∧
  TopLevelBlock s `prefix_of` TopLevelBlock s'.

(** The tables and the top-level statement list are as they were. *)
Definition sameTables (s s' : ParserState) : Prop :=
  BinOpPrecedence s' = BinOpPrecedence s ∧
  FunctionDefinition s' = FunctionDefinition s ∧
  InfixOpDefinition s' = InfixOpDefinition s ∧
  TopLevelBlock s' = TopLevelBlock s.

Definition isWarning (d : Diagnostic) : Prop := DiagKind d = ErrorKind.Warning.
Definition isError (d : Diagnostic) : Prop := DiagKind d = ErrorKind.Error.

(** Only warnings were reported. *)
Definition warned (s s' : ParserState) : Prop :=
  ∃ ws, ErrorList s' = (ErrorList s ++ ws)%list ∧ Forall isWarning ws.

(** Warnings were reported, then one error, and nothing after it. *)
Definition failed (s s' : ParserState) : Prop :=
  ∃ ws e, ErrorList s' = (ErrorList s ++ ws ++ [e])%list ∧
          Forall isWarning ws ∧ isError e.

(** The diagnostics end with an error. *)
Definition endsWithError (s s' : ParserState) : Prop :=
  ∃ l e, ErrorList s' = (l ++ [e])%list ∧ isError e.

(** The tokens left are an end piece of the tokens there were. *)
Definition consumed (s s' : ParserState) : Prop :=
  Input s' `suffix_of` Input s.

(** Every definition is filed under its own name, the infix symbols with a
    precedence are the ones with a definition, and every precedence fits a
    signed byte. *)
Definition tablesWellFormed (s : ParserState) : Prop :=
  (∀ k d, FunctionDefinition s !! k = Some d → FuncName d = k) ∧
  (∀ k d, InfixOpDefinition s !! k = Some d → InfixSymbol d = k) ∧
  (∀ k, is_Some (BinOpPrecedence s !! k) ↔ is_Some (InfixOpDefinition s !! k)) ∧
  (∀ k p, BinOpPrecedence s !! k = Some p → -128 ≤ p ≤ 127).

Definition keepsWellFormed (s s' : ParserState) : Prop :=
  tablesWellFormed s → tablesWellFormed s'.

(** ** Asserts *)

(** Where [c], run from [s], ends in a failed assert, [P] holds of the
    message and of the state the assert has failed in. *)
Definition abortsOnlyWhere {A} (P : string → ParserState → Prop)
    (c : Parser A) (s : ParserState) : Prop :=
  match c s with
  | Raise (AssertionFailed Msg) s' => P Msg s'
  | _ => True
  end.

(** No assert fails in [c] run from [s]. *)
Definition neverAborts {A} (c : Parser A) (s : ParserState) : Prop :=
  abortsOnlyWhere (λ _ _, False) c s.

(** The current token is of kind [K]. *)
Definition currentIs (K : Token.TokenKind) (s : ParserState) : Prop :=
  Kind (hd (punct Token.Eof) (Input s)) = K.

(** No assert fails in the expression parser, provided
    [parseIdentifierExpression] is entered on an identifier (as
    [parsePrimaryExpression] enters it). *)
Definition exprGuarded {Factory : ASTFactory} (n : nat) : Prop :=
  (∀ s, neverAborts (parseExpression n) s) ∧
  (∀ s, neverAborts (parseParenExpression n) s) ∧
  (∀ s, neverAborts (parsePrimaryExpression n) s) ∧
  (∀ Res s, neverAborts (parseIndexExpressions n Res) s) ∧
  (∀ p Res s, neverAborts (parseBinOpRHS n p Res) s) ∧
  (∀ p Res s, neverAborts (parseBinOpRHS_loop n p Res) s) ∧
  (∀ s, currentIs Token.Identifier s → neverAborts (parseIdentifierExpression n) s) ∧
  (∀ l s, neverAborts (parseOptionalArgList n l) s) ∧
  (∀ l s, neverAborts (parseArgumentList n l) s).

(** No assert fails in the statement parser, provided each function that
    asserts its first token is entered on that token (as [parseStatement]
    enters it). *)
Definition stmtGuarded {Factory : ASTFactory} (n : nat) : Prop :=
  (∀ s, neverAborts (parseStatement n) s) ∧
  (∀ s, currentIs Token.LCurly s → neverAborts (parseBlock n) s) ∧
  (∀ l s, neverAborts (parseBlock_loop n l) s) ∧
  (∀ s, currentIs Token.Kw_if s → neverAborts (parseIfStatement n) s) ∧
  (∀ s, currentIs Token.Kw_for s → neverAborts (parseForStatement n) s) ∧
  (∀ s, currentIs Token.Kw_while s → neverAborts (parseWhileStatement n) s).

(** The one assert that can fail: the one at the head of
    [parseFunctionDefinition(RetType, Name)], on a current token that is
    not a left parenthesis. *)
Definition functionDefinitionAssert (Msg : string) (s : ParserState) : Prop :=
  Msg = "parseFunctionDefinition: unknown token" ∧ ¬ currentIs Token.LParen s.

(** ** Returning *)

(** [c] ends from [s]: it does not run out of fuel; and where it returns
    normally it has not put tokens back. *)
Definition returnsLe {A} (c : Parser A) (s : ParserState) : Prop :=
  match c s with
  | Done _ s' => (length (Input s') ≤ length (Input s))%nat
  | Raise _ _ => True
  | OutOfFuel => False
  end.

(** [c] ends from [s], and where it returns normally it has taken at
    least one token. *)
Definition returnsLt {A} (c : Parser A) (s : ParserState) : Prop :=
  match c s with
  | Done _ s' => (length (Input s') < length (Input s))%nat
  | Raise _ _ => True
  | OutOfFuel => False
  end.

(** The lexer is at the end of what it can read. *)
Definition atEnd (s : ParserState) : Prop :=
  Kind (hd (punct Token.Eof) (Input s)) = Token.Eof ∨
  Kind (hd (punct Token.Eof) (Input s)) = Token.Error.

(** The fuel that is enough for each function of the expression parser:
    eight units for every token left, and a few more for the calls that
    come before the first token is taken. *)
Definition exprReturns {Factory : ASTFactory} (n : nat) : Prop :=
  (∀ s, (8 * length (Input s) + 3 ≤ n)%nat → returnsLt (parseExpression n) s) ∧
  (∀ s, Input s ≠ [] → (8 * length (Input s) + 1 ≤ n)%nat →
        returnsLt (parseParenExpression n) s) ∧
  (∀ s, (8 * length (Input s) + 2 ≤ n)%nat → returnsLt (parsePrimaryExpression n) s) ∧
  (∀ Res s, (8 * length (Input s) + 4 ≤ n)%nat →
            returnsLe (parseIndexExpressions n Res) s) ∧
  (∀ p Res s, (8 * length (Input s) + 4 ≤ n)%nat → returnsLe (parseBinOpRHS n p Res) s) ∧
  (∀ p Res s, (8 * length (Input s) + 3 ≤ n)%nat →
              returnsLe (parseBinOpRHS_loop n p Res) s) ∧
  (∀ s, Input s ≠ [] → (8 * length (Input s) + 1 ≤ n)%nat →
        returnsLt (parseIdentifierExpression n) s) ∧
  (∀ l s, (8 * length (Input s) + 5 ≤ n)%nat → returnsLe (parseOptionalArgList n l) s) ∧
  (∀ l s, (8 * length (Input s) + 4 ≤ n)%nat → returnsLt (parseArgumentList n l) s).

Definition stmtReturns {Factory : ASTFactory} (n : nat) : Prop :=
  (∀ s, (8 * length (Input s) + 6 ≤ n)%nat → returnsLt (parseStatement n) s) ∧
  (∀ s, Input s ≠ [] → (8 * length (Input s) + 1 ≤ n)%nat →
        returnsLt (parseBlock n) s) ∧
  (∀ l s, (8 * length (Input s) + 7 ≤ n)%nat → returnsLe (parseBlock_loop n l) s) ∧
  (∀ s, Input s ≠ [] → (8 * length (Input s) + 1 ≤ n)%nat →
        returnsLt (parseIfStatement n) s) ∧
  (∀ s, Input s ≠ [] → (8 * length (Input s) + 1 ≤ n)%nat →
        returnsLt (parseForStatement n) s) ∧
  (∀ s, Input s ≠ [] → (8 * length (Input s) + 1 ≤ n)%nat →
        returnsLt (parseWhileStatement n) s).

(** Programs the examples run on: [int x ;], [1 @ 2 ;] and
    [( int a , ) return 1 ;], the rest of a function definition whose
    parameter list ends in a comma. *)
Definition tokens_int_x : list Lexeme :=
  [punct Token.Kw_int; tokIdentifier "x"; punct Token.Semicolon].
(** [void f ;] *)
Definition tokens_void_f : list Lexeme :=
  [punct Token.Kw_void; tokIdentifier "f"; punct Token.Semicolon].
Definition tokens_1_at_2 : list Lexeme :=
  [tokInteger 1; tokInfixOp "@"; tokInteger 2; punct Token.Semicolon].
Definition tokens_trailing_comma : list Lexeme :=
  [punct Token.LParen; punct Token.Kw_int; tokIdentifier "a"; punct Token.Comma;
   punct Token.RParen; punct Token.Kw_return; tokInteger 1; punct Token.Semicolon].

(** ** Scopes and variables of the interpreter *)

(** The two environments hold the same variables, each with a value of the
    same type on both sides. *)
Definition envSame (E E' : gmap string cvm.BasicValue) : Prop :=
  ∀ Name, match E !! Name, E' !! Name with
          | Some V, Some V' => cvm.Type_ V' = cvm.Type_ V
          | None, None => True
          | _, _ => False
          end.

(** Every variable of [E] is a variable of [E'], with a value of the same
    type. *)
Definition envGrows (E E' : gmap string cvm.BasicValue) : Prop :=
  ∀ Name V, E !! Name = Some V →
            ∃ V', E' !! Name = Some V' ∧ cvm.Type_ V' = cvm.Type_ V.

(** The same scopes, each with the same variables at the same types. *)
Definition chainSame (st st' : InterpreterState) : Prop :=
  Forall2 envSame (EnvChain st) (EnvChain st').

(** The same scopes; the current one may have new variables, the outer ones
    have the same variables; every variable has kept its type. *)
Definition chainGrows (st st' : InterpreterState) : Prop :=
  envGrows (CurrentEnv st) (CurrentEnv st') ∧
  Forall2 envSame (tl (EnvChain st)) (tl (EnvChain st')).

(** Nothing is said of the state a run has ended in. *)
Definition anyState (e : Abort) (st st' : InterpreterState) : Prop := True.

(** [Inner] are the scopes searched before the scope [E] that holds the
    name: none of them holds it. *)
Definition innermost (Name : string) (Chain Inner : list (gmap string cvm.BasicValue))
    (E : gmap string cvm.BasicValue) : Prop :=
  (∃ Outer, Chain = Inner ++ E :: Outer)%list ∧
  Forall (λ E0, E0 !! Name = None) Inner ∧
  is_Some (E !! Name).

(** The environment the loop of [callUserFunction] builds from [Env]. *)
Fixpoint bindAll (Paras : list FunctionParameter) (Args : list cvm.BasicValue)
    (Env : gmap string cvm.BasicValue) : gmap string cvm.BasicValue :=
  match Args, Paras with
  | Arg :: Args', Para :: Paras' =>
      bindAll Paras' Args' (<[ParamName Para := Arg]> Env)
  | _, _ => Env
  end.

From Stdlib Require Import Sorted.

(** ** The line table of the source manager ([SourceManager.cpp]) *)

Module SourceManager.

(** A position in the source stream ([std::streampos]). *)
Abbreviation LocTy := Z.

(** The members [get] and [getLineColByLoc] use: the stream, as the
    characters of the file and the read position, and the table of the
    offsets at which lines start. *)
Record t : Type := mk {
  SourceStream : list Ascii.ascii;
  StreamPos : nat;
  LineNoOffsets : list LocTy
}.

(** The constructor, for a file that could be opened. *)
Definition create (Source : list Ascii.ascii) : t := mk Source 0 [0].

(** [std::lower_bound] and [std::upper_bound] on a sorted range, as the
    index of the iterator they return: the first element that is not less
    than [v], and the first element that is greater than [v]. *)
Fixpoint lower_bound (v : LocTy) (l : list LocTy) : nat :=
  match l with
  | [] => 0
  | x :: l' => if x <? v then S (lower_bound v l') else 0
  end.

Fixpoint upper_bound (v : LocTy) (l : list LocTy) : nat :=
  match l with
  | [] => 0
  | x :: l' => if x <=? v then S (upper_bound v l') else 0
  end.

(** [std::vector::insert(It, v)] *)
Definition insert_at (It : nat) (v : LocTy) (l : list LocTy) : list LocTy :=
  (take It l ++ v :: drop It l)%list.

(** [EOF] and the code of the newline character. *)
Definition EOF : Z := -1.
Definition newline : Z := 10.

(** [get()]: the character read (or [EOF], and then the table is not
    touched) and the state after it. *)
Definition get (s : t) : Z * t :=
  match SourceStream s !! StreamPos s with
  | None => (EOF, s)
  | Some c =>
      let CurChar := Z.of_nat (Ascii.nat_of_ascii c) in
      let CurPos := Z.of_nat (S (StreamPos s)) in
      let Offsets := LineNoOffsets s in
      let Offsets' :=
        if CurChar =? newline then
          let It := lower_bound CurPos Offsets in
          match Offsets !! It with
          | Some x => if x =? CurPos then Offsets else insert_at It CurPos Offsets
          | None => insert_at It CurPos Offsets
          end
        else Offsets in
      (CurChar, mk (SourceStream s) (S (StreamPos s)) Offsets')
  end.

(** [getLineColByLoc(L)].  [upper_bound(...) - 1] on the first iterator
    of the table is no iterator of the table: no result. *)
Definition getLineColByLoc (s : t) (L : LocTy) : option (nat * Z) :=
  match upper_bound L (LineNoOffsets s) with
  | O => None
  | S LineIndex =>
      match LineNoOffsets s !! LineIndex with
      | Some Offset => Some (LineIndex, L - Offset)
      | None => None
      end
  end.

End SourceManager.

(** [n] calls of [get] in a row. *)
Fixpoint readChars (n : nat) (s : SourceManager.t) : SourceManager.t :=
  match n with
  | O => s
  | S n' => readChars n' (SourceManager.get s).2
  end.

(** The table starts with offset 0 and is strictly increasing. *)
Definition lineTable (l : list Z) : Prop :=
  (∃ l', l = 0 :: l') ∧ StronglySorted Z.lt l.

Definition isNewline (c : Ascii.ascii) : bool :=
  Z.of_nat (Ascii.nat_of_ascii c) =? SourceManager.newline.

(** The offsets just behind the newline characters of [Text], which
    starts at offset [i]. *)
Fixpoint lineStarts (Text : list Ascii.ascii) (i : nat) : list Z :=
  match Text with
  | [] => []
  | c :: Text' =>
      if isNewline c
      then Z.of_nat (S i) :: lineStarts Text' (S i)
      else lineStarts Text' (S i)
  end.

(** The number of newline characters of [Text], and the number of
    characters behind its last newline, for a text that starts in column
    [Col]. *)
Fixpoint newlines (Text : list Ascii.ascii) : nat :=
  match Text with
  | [] => 0
  | c :: Text' => if isNewline c then S (newlines Text') else newlines Text'
  end.

Fixpoint column (Col : nat) (Text : list Ascii.ascii) : nat :=
  match Text with
  | [] => Col
  | c :: Text' => if isNewline c then column 0 Text' else column (S Col) Text'
  end.

(** What [get] does to the table for a newline read up to [v]. *)
Definition recorded (v : Z) (l : list Z) : list Z :=
  let It := SourceManager.lower_bound v l in
  match l !! It with
  | Some x => if x =? v then l else SourceManager.insert_at It v l
  | None => SourceManager.insert_at It v l
  end.

(** The two lines [ab] and [c], each ended by a newline. *)
Definition source_ab_c : list Ascii.ascii :=
  map Ascii.ascii_of_nat [97; 98; 10; 99; 10]%nat.

(** * Properties *)

(** ** Fuel: more of it does not change a result *)

Lemma refines_refl {S E A} (c : M S E A) : refines c c.
Proof. intros s _. reflexivity. Qed.

Lemma refines_outOfFuel {S E A} (c : M S E A) : refines outOfFuel c.
Proof. intros s H. contradiction. Qed.

Lemma refines_bind {S E A B} (m1 m2 : M S E A) (f1 f2 : A → M S E B) :
  refines m1 m2 → (∀ a, refines (f1 a) (f2 a)) →
  refines (bind m1 f1) (bind m2 f2).
Proof.
  intros Hm Hf s H. unfold bind in *.
  destruct (m1 s) as [a s' | e s' |] eqn:Hms.
  - rewrite (Hm s) by (rewrite Hms; discriminate). rewrite Hms. apply Hf, H.
  - rewrite (Hm s) by (rewrite Hms; discriminate). rewrite Hms. reflexivity.
  - contradiction.
Qed.

Ltac refines_step :=
  match goal with
  | |- refines ?c ?c => apply refines_refl
  | |- refines outOfFuel _ => apply refines_outOfFuel
  | |- refines (bind _ _) (bind _ _) => apply refines_bind; [| intros ?]
  | |- refines (if ?b then _ else _) (if ?b then _ else _) => destruct b
  | |- refines (match ?x with _ => _ end) (match ?x with _ => _ end) => destruct x
  | H : _ |- refines _ _ => apply H
  end.
Ltac refines_auto := repeat refines_step.

Section ParserFuel.
Context {Factory : ASTFactory}.

Lemma parseExpression_fuel : ∀ n m, (n ≤ m)%nat → exprFuel n m.
Proof.
  induction n as [| n IH]; intros m Hm.
  - repeat split; intros; apply refines_outOfFuel.
  - destruct m as [| m]; [lia |].
    destruct (IH m ltac:(lia)) as (H1 & H2 & H3 & H4 & H5 & H6 & H7 & H8 & H9).
    repeat split; intros; cbn -[bool_decide]; refines_auto.
Qed.

Lemma parseExpression_refines n m :
  (n ≤ m)%nat → refines (parseExpression n) (parseExpression m).
Proof. intros H. apply (parseExpression_fuel n m H). Qed.

Lemma parseCountExprList_refines : ∀ n m, (n ≤ m)%nat →
  ∀ l, refines (parseCountExprList n l) (parseCountExprList m l).
Proof.
  induction n as [| n IH]; intros m Hm l; [apply refines_outOfFuel |].
  destruct m as [| m]; [lia |].
  pose proof (parseExpression_refines n m ltac:(lia)) as HE.
  pose proof (IH m ltac:(lia)) as IH'.
  cbn -[bool_decide]. refines_auto.
Qed.

Lemma parseDeclarators_refines : ∀ n m, (n ≤ m)%nat →
  ∀ T l, refines (parseDeclarators n T l) (parseDeclarators m T l).
Proof.
  induction n as [| n IH]; intros m Hm T l; [apply refines_outOfFuel |].
  destruct m as [| m]; [lia |].
  pose proof (parseExpression_refines n m ltac:(lia)) as HE.
  pose proof (parseCountExprList_refines n m ltac:(lia)) as HC.
  pose proof (IH m ltac:(lia)) as IH'.
  cbn -[bool_decide]. refines_auto.
Qed.

Lemma parseExprStatement_refines n m :
  (n ≤ m)%nat → refines (parseExprStatement n) (parseExprStatement m).
Proof.
  intros H. pose proof (parseExpression_refines n m H) as HE.
  unfold parseExprStatement. refines_auto.
Qed.

Lemma parseReturnStatement_refines n m :
  (n ≤ m)%nat → refines (parseReturnStatement n) (parseReturnStatement m).
Proof.
  intros H. pose proof (parseExpression_refines n m H) as HE.
  unfold parseReturnStatement. refines_auto.
Qed.

Lemma parseDeclarationStatement_typed_refines n m T :
  (n ≤ m)%nat →
  refines (parseDeclarationStatement_typed n T) (parseDeclarationStatement_typed m T).
Proof.
  intros H. pose proof (parseDeclarators_refines n m H) as HD.
  unfold parseDeclarationStatement_typed. refines_auto.
Qed.

Lemma parseDeclarationStatement_refines n m :
  (n ≤ m)%nat →
  refines (parseDeclarationStatement n) (parseDeclarationStatement m).
Proof.
  intros H. unfold parseDeclarationStatement.
  apply refines_bind; [apply refines_refl |].
  intros T. apply parseDeclarationStatement_typed_refines, H.
Qed.

Lemma parseStatement_fuel : ∀ n m, (n ≤ m)%nat → stmtFuel n m.
Proof.
  induction n as [| n IH]; intros m Hm.
  - repeat split; intros; apply refines_outOfFuel.
  - destruct m as [| m]; [lia |].
    destruct (IH m ltac:(lia)) as (H1 & H2 & H3 & H4 & H5 & H6).
    pose proof (parseExpression_refines n m ltac:(lia)) as HE.
    pose proof (parseExprStatement_refines n m ltac:(lia)) as HX.
    pose proof (parseReturnStatement_refines n m ltac:(lia)) as HR.
    pose proof (parseDeclarationStatement_refines n m ltac:(lia)) as HD.
    repeat split; intros; cbn -[bool_decide]; refines_auto.
Qed.

Lemma parseStatement_refines n m :
  (n ≤ m)%nat → refines (parseStatement n) (parseStatement m).
Proof. intros H. apply (parseStatement_fuel n m H). Qed.

Lemma parseParameterList_loop_refines : ∀ n m, (n ≤ m)%nat →
  ∀ l, refines (parseParameterList_loop n l) (parseParameterList_loop m l).
Proof.
  induction n as [| n IH]; intros m Hm l; [apply refines_outOfFuel |].
  destruct m as [| m]; [lia |].
  pose proof (IH m ltac:(lia)) as IH'.
  cbn -[bool_decide]. refines_auto.
Qed.

Lemma parseParameterList_refines n m l :
  (n ≤ m)%nat → refines (parseParameterList n l) (parseParameterList m l).
Proof.
  intros H. pose proof (parseParameterList_loop_refines n m H) as HL.
  unfold parseParameterList. refines_auto.
Qed.

Lemma parseInfixOpDefinition_refines n m :
  (n ≤ m)%nat → refines (parseInfixOpDefinition n) (parseInfixOpDefinition m).
Proof.
  intros H. pose proof (parseStatement_refines n m H) as HS.
  pose proof (parseExprStatement_refines n m H) as HX.
  unfold parseInfixOpDefinition. refines_auto.
Qed.

Lemma parseFunctionDefinition_named_refines n m T Name :
  (n ≤ m)%nat →
  refines (parseFunctionDefinition_named n T Name) (parseFunctionDefinition_named m T Name).
Proof.
  intros H. pose proof (parseStatement_refines n m H) as HS.
  pose proof (λ l, parseParameterList_refines n m l H) as HP.
  unfold parseFunctionDefinition_named. refines_auto.
Qed.

Lemma parseTopLevel_refines n m :
  (n ≤ m)%nat → refines (parseTopLevel n) (parseTopLevel m).
Proof.
  intros H. pose proof (parseStatement_refines n m H) as HS.
  pose proof (parseInfixOpDefinition_refines n m H) as HI.
  pose proof (λ T Name, parseFunctionDefinition_named_refines n m T Name H) as HF.
  pose proof (λ T, parseDeclarationStatement_typed_refines n m T H) as HD.
  unfold parseTopLevel, parseFunctionDefinition. refines_auto.
Qed.

(** More fuel does not change what [parse] answers. *)
Lemma parse_refines : ∀ n m, (n ≤ m)%nat → refines (parse n) (parse m).
Proof.
  induction n as [| n IH]; intros m Hm; [apply refines_outOfFuel |].
  destruct m as [| m]; [lia |].
  pose proof (IH m ltac:(lia)) as IH'.
  pose proof (parseTopLevel_refines n m ltac:(lia)) as HT.
  cbn -[bool_decide]. refines_auto.
Qed.

Lemma parse_more_fuel n extra st r :
  parse n st = r → r ≠ OutOfFuel → parse (n + extra) st = r.
Proof.
  intros <- H. apply (parse_refines n (n + extra)); [lia | exact H].
Qed.
End ParserFuel.

Section InterpreterFuel.
Context {RT : Runtime}.
Variable This : CMMInterpreter.

Section Bodies.
Variables exec1 exec2 : option StatementAST → Interp ExecutionResult.t.
Variables eval1 eval2 : ExpressionAST → Interp cvm.BasicValue.
Hypothesis Hexec : ∀ S, refines (exec1 S) (exec2 S).
Hypothesis Heval : ∀ e, refines (eval1 e) (eval2 e).

Lemma executeStatementList_refines l : ∀ Res,
  refines (executeStatementList exec1 l Res) (executeStatementList exec2 l Res).
Proof. induction l as [| S l IH]; intros Res; simpl; refines_auto. Qed.

Lemma executeDeclaration_refines Decl :
  refines (executeDeclaration eval1 Decl) (executeDeclaration eval2 Decl).
Proof. unfold executeDeclaration. refines_auto. Qed.

Lemma executeDeclarationList_refines l :
  refines (executeDeclarationList eval1 l) (executeDeclarationList eval2 l).
Proof.
  pose proof executeDeclaration_refines as HD.
  induction l as [| D l IH]; simpl; refines_auto.
Qed.

Lemma evaluateArgumentList_refines l :
  refines (evaluateArgumentList eval1 l) (evaluateArgumentList eval2 l).
Proof. induction l as [| e l IH]; simpl; refines_auto. Qed.

Lemma callUserFunction_refines F Args :
  refines (callUserFunction exec1 F Args) (callUserFunction exec2 F Args).
Proof. unfold callUserFunction. refines_auto. Qed.

Lemma executeStatement_switch_refines Stmt :
  refines (executeStatement_switch exec1 eval1 Stmt)
          (executeStatement_switch exec2 eval2 Stmt).
Proof.
  pose proof executeStatementList_refines as HL.
  pose proof executeDeclarationList_refines as HD.
  unfold executeStatement_switch, executeBlock, executeExprStatement,
    executeReturnStatement.
  refines_auto.
Qed.

Lemma evaluateExpression_switch_refines Expr :
  refines (evaluateExpression_switch This exec1 eval1 Expr)
          (evaluateExpression_switch This exec2 eval2 Expr).
Proof.
  pose proof evaluateArgumentList_refines as HA.
  pose proof callUserFunction_refines as HC.
  unfold evaluateExpression_switch, evaluateFunctionCallExpr, evaluateBinaryOpExpr,
    evaluateAssignment.
  refines_auto.
Qed.
End Bodies.

Lemma executeStatement_fuel : ∀ n m, (n ≤ m)%nat →
  (∀ S, refines (executeStatement This n S) (executeStatement This m S)) ∧
  (∀ e, refines (evaluateExpression This n e) (evaluateExpression This m e)).
Proof.
  induction n as [| n IH]; intros m Hm.
  - split; intros; apply refines_outOfFuel.
  - destruct m as [| m]; [lia |].
    destruct (IH m ltac:(lia)) as [H1 H2].
    split; intros; simpl.
    + apply executeStatement_switch_refines; assumption.
    + apply evaluateExpression_switch_refines; assumption.
Qed.

Lemma interpretStatements_refines n m l :
  (n ≤ m)%nat →
  refines (interpretStatements This n l) (interpretStatements This m l).
Proof.
  intros H. destruct (executeStatement_fuel n m H) as [HS _].
  induction l as [| S l IH]; simpl; refines_auto.
Qed.

Lemma interpret_more_fuel n extra st r :
  interpret This n st = r → r ≠ OutOfFuel → interpret This (n + extra) st = r.
Proof.
  intros <- H. apply (interpretStatements_refines n (n + extra)); [lia | exact H].
Qed.
End InterpreterFuel.


(** ** Operator precedence (C7) *)

Lemma tokens_attach T Op Opnd :
  tokens (attach T Op Opnd) = (tokens T ++ Op :: operandTokens Opnd)%list.
Proof.
  induction T as [t | Op' L IHL R IHR]; simpl; [reflexivity |].
  destruct (_ <? _); simpl.
  - rewrite IHR. rewrite <- app_assoc. reflexivity.
  - rewrite <- app_assoc. reflexivity.
Qed.

Lemma tokens_attachAll Ops : ∀ T,
  tokens (attachAll T Ops) = (tokens T ++ flatOps Ops)%list.
Proof.
  induction Ops as [| [Op t] Ops IH]; intros T; simpl.
  - unfold flatOps. simpl. rewrite app_nil_r. reflexivity.
  - unfold attachAll in *. simpl. rewrite IH, tokens_attach.
    rewrite <- app_assoc. reflexivity.
Qed.

Lemma firstOperand_attach T Op Opnd : firstOperand (attach T Op Opnd) = firstOperand T.
Proof.
  induction T as [t | Op' L IHL R IHR]; simpl; [reflexivity |].
  destruct (_ <? _); reflexivity.
Qed.

Lemma operatorPairs_attach T Op Opnd :
  operatorPairs (attach T Op Opnd) = (operatorPairs T ++ [(Op, Opnd)])%list.
Proof.
  induction T as [t | Op' L IHL R IHR]; simpl; [reflexivity |].
  destruct (_ <? _); simpl.
  - rewrite IHR, firstOperand_attach. rewrite <- app_assoc. reflexivity.
  - reflexivity.
Qed.

Lemma pairs_attachAll Ops : ∀ T,
  firstOperand (attachAll T Ops) = firstOperand T ∧
  operatorPairs (attachAll T Ops) = (operatorPairs T ++ Ops)%list.
Proof.
  induction Ops as [| [Op t] Ops IH]; intros T.
  - simpl. rewrite app_nil_r. split; reflexivity.
  - change (attachAll T ((Op, t) :: Ops)) with (attachAll (attach T Op t) Ops).
    destruct (IH (attach T Op t)) as [-> ->].
    rewrite firstOperand_attach, operatorPairs_attach, <- app_assoc.
    split; reflexivity.
Qed.

Lemma rootPrecedence_attach T Op Opnd p :
  rootPrecedence (attach T Op Opnd) = Some p →
  p = precedenceOf (Kind Op) ∨ rootPrecedence T = Some p.
Proof.
  destruct T as [t | Op' L R]; simpl.
  - intros [= <-]. left. reflexivity.
  - destruct (_ <? _); simpl; intros [= <-]; [right | left]; reflexivity.
Qed.

Lemma respectsPrecedence_attach T Op Opnd :
  respectsPrecedence T → respectsPrecedence (attach T Op Opnd).
Proof.
  induction T as [t | Op' L IHL R IHR]; simpl.
  - intros _. repeat split; simpl; intros p [=].
  - intros (HL & HR & Hl & Hr).
    destruct (precedenceOf (Kind Op') <? precedenceOf (Kind Op)) eqn:Hlt; simpl.
    + apply Z.ltb_lt in Hlt. repeat split; auto.
      intros p Hp. apply rootPrecedence_attach in Hp as [-> | Hp]; auto.
    + apply Z.ltb_ge in Hlt. repeat split; auto.
      * intros p [= <-]. exact Hlt.
      * intros p [=].
Qed.

Lemma respectsPrecedence_attachAll Ops : ∀ T,
  respectsPrecedence T → respectsPrecedence (attachAll T Ops).
Proof.
  induction Ops as [| [Op t] Ops IH]; intros T HT; simpl; [exact HT |].
  apply IH, respectsPrecedence_attach, HT.
Qed.

Lemma spanPrec_length p Ops : (length ((spanPrec p Ops).2) ≤ length Ops)%nat.
Proof.
  induction Ops as [| q Ops IH]; simpl; [lia |].
  destruct (_ <=? _); simpl; lia.
Qed.

Lemma spanPrec_head p Ops r :
  headPrecedence ((spanPrec p Ops).2) = Some r → r < p.
Proof.
  induction Ops as [| q Ops IH]; simpl; [discriminate |].
  destruct (p <=? precedenceOf (Kind q.1)) eqn:E; simpl; [exact IH |].
  intros [= <-]. apply Z.leb_gt in E. exact E.
Qed.

Lemma spanPrec_Forall (P : Lexeme * Operand → Prop) p Ops :
  Forall P Ops → Forall P (spanPrec p Ops).1 ∧ Forall P (spanPrec p Ops).2.
Proof.
  induction 1 as [| q Ops Hq HOps [IH1 IH2]]; simpl; [split; constructor |].
  destruct (_ <=? _); simpl; split; auto.
Qed.

Lemma spanPrec_above p Ops :
  Forall (λ q, p ≤ precedenceOf (Kind q.1)) (spanPrec p Ops).1.
Proof.
  induction Ops as [| q Ops IH]; simpl; [constructor |].
  destruct (p <=? precedenceOf (Kind q.1)) eqn:E; simpl; [| constructor].
  constructor; [apply Z.leb_le, E | exact IH].
Qed.

Lemma spanPrec_split p q Ops :
  p ≤ q →
  spanPrec p Ops =
  ((spanPrec q Ops).1 ++ (spanPrec p (spanPrec q Ops).2).1,
   (spanPrec p (spanPrec q Ops).2).2)%list.
Proof.
  intros Hpq. induction Ops as [| x Ops IH]; simpl; [reflexivity |].
  destruct (q <=? precedenceOf (Kind x.1)) eqn:Eq; simpl.
  - assert ((p <=? precedenceOf (Kind x.1)) = true) as ->
      by (apply Z.leb_le; apply Z.leb_le in Eq; lia).
    rewrite IH. reflexivity.
  - destruct (p <=? precedenceOf (Kind x.1)); reflexivity.
Qed.

Lemma attachAll_right Op L Ops : ∀ R,
  Forall (λ q, precedenceOf (Kind Op) < precedenceOf (Kind q.1)) Ops →
  attachAll (Node Op L R) Ops = Node Op L (attachAll R Ops).
Proof.
  induction Ops as [| x Ops IH]; intros R H; [reflexivity |].
  inversion H as [| ? ? Hx HOps]; subst.
  unfold attachAll in *. simpl.
  apply Z.ltb_lt in Hx. rewrite Hx. apply IH, HOps.
Qed.

Lemma attachAll_app T A B :
  attachAll T (A ++ B) = attachAll (attachAll T A) B.
Proof. apply fold_left_app. Qed.

Lemma attach_root T Op Opnd :
  (∀ r, rootPrecedence T = Some r → precedenceOf (Kind Op) ≤ r) →
  attach T Op Opnd = Node Op T (Leaf Opnd).
Proof.
  destruct T as [t | Op' L R]; simpl; [reflexivity |].
  intros H. specialize (H _ eq_refl). apply Z.ltb_ge in H. rewrite H. reflexivity.
Qed.

Lemma flatOps_app A B : flatOps (A ++ B) = (flatOps A ++ flatOps B)%list.
Proof. unfold flatOps. rewrite map_app, concat_app. reflexivity. Qed.

Lemma respectsPrecedence_pairs T : ∀ p,
  respectsPrecedence T → rootPrecedence T = Some p →
  Forall (λ q, p ≤ precedenceOf (Kind q.1)) (operatorPairs T).
Proof.
  induction T as [t | Op L IHL R IHR]; intros p HT Hp; simpl; [constructor |].
  destruct HT as (HL & HR & Hl & Hr). simpl in Hp. injection Hp as <-.
  apply Forall_app. split; [| constructor; [simpl; lia |]].
  - destruct (rootPrecedence L) as [pl |] eqn:El.
    + eapply Forall_impl; [apply (IHL pl HL eq_refl) |].
      intros q Hq. simpl in Hq. specialize (Hl _ eq_refl). lia.
    + destruct L; [constructor | discriminate El].
  - destruct (rootPrecedence R) as [pr |] eqn:Er.
    + eapply Forall_impl; [apply (IHR pr HR eq_refl) |].
      intros q Hq. simpl in Hq. specialize (Hr _ eq_refl). lia.
    + destruct R; [constructor | discriminate Er].
Qed.

Lemma respectsPrecedence_is_precedenceTree T :
  respectsPrecedence T → T = precedenceTree (firstOperand T) (operatorPairs T).
Proof.
  unfold precedenceTree.
  induction T as [t | Op L IHL R IHR]; simpl; [reflexivity |].
  intros (HL & HR & Hl & Hr).
  rewrite attachAll_app. rewrite <- (IHL HL).
  change (attachAll L ((Op, firstOperand R) :: operatorPairs R))
    with (attachAll (attach L Op (firstOperand R)) (operatorPairs R)).
  rewrite (attach_root L Op (firstOperand R) Hl).
  rewrite attachAll_right.
  - rewrite <- (IHR HR). reflexivity.
  - destruct (rootPrecedence R) as [pr |] eqn:Er.
    + eapply Forall_impl; [apply (respectsPrecedence_pairs R pr HR Er) |].
      intros q Hq. simpl in Hq. specialize (Hr _ eq_refl). lia.
    + destruct R; [constructor | discriminate Er].
Qed.

Lemma respectsPrecedence_unique T (First : Operand) (Rest : list (Lexeme * Operand)) :
  firstOperand T = First → operatorPairs T = Rest →
  respectsPrecedence T →
  T = precedenceTree First Rest.
Proof.
  intros <- <- HT. apply respectsPrecedence_is_precedenceTree, HT.
Qed.

Lemma expressionNode_operator {Factory : ASTFactory} First Rest :
  startsWithOperator Rest →
  expressionNode First Rest = build (precedenceTree First Rest).
Proof.
  destruct Rest as [| [Op Next] Rest']; intros H; simpl; [reflexivity |].
  rewrite bool_decide_eq_false_2; [reflexivity |]. apply (H (Op, Next) eq_refl).
Qed.

Lemma expressionNode_assignment {Factory : ASTFactory} First Op Next Rest' :
  Kind Op = Token.Equal →
  expressionNode First ((Op, Next) :: Rest') =
  BinaryOperatorAST_create Token.Equal (operandNode First) (expressionNode Next Rest').
Proof. intros H. simpl. rewrite bool_decide_eq_true_2 by exact H. reflexivity. Qed.

Section ParserFacts.
Context {Factory : ASTFactory}.
Variables (errs : list Diagnostic) (precs : gmap string Z)
  (funcs : gmap string FunctionDefinitionAST)
  (infixes : gmap string InfixOpDefinitionAST)
  (top : list (option StatementAST)).

Local Abbreviation St toks := (mkParserState toks errs precs funcs infixes top).

Lemma getBinOpPrecedence_eq toks :
  getBinOpPrecedence (St toks) =
  Done (tokenPrecedence precs (hd (punct Token.Eof) toks)) (St toks).
Proof. reflexivity. Qed.

Lemma tokenPrecedence_binop T :
  isBinOp (Kind T) = true → tokenPrecedence precs T = precedenceOf (Kind T).
Proof. destruct T as [k s i d b]; simpl. destruct k; intros [=]; reflexivity. Qed.

Lemma precedenceOf_binop K :
  isBinOp K = true → 1 ≤ precedenceOf K ≤ 11 ∧ K ≠ Token.InfixOp.
Proof.
  destruct K; intros [=];
    (split; [vm_compute; split; discriminate | discriminate]).
Qed.

Lemma tokenPrecedence_Equal T :
  Kind T = Token.Equal → tokenPrecedence precs T = 1.
Proof. destruct T as [k s i d b]; simpl. intros ->. reflexivity. Qed.

Lemma endsOperand_binop T : isBinOp (Kind T) = true → endsOperand T.
Proof.
  destruct T as [k s i d b]; simpl.
  destruct k; intros [=]; repeat split; discriminate.
Qed.

Lemma int8_t_small z : -128 ≤ z ≤ 127 → int8_t z = z.
Proof. intros H. unfold int8_t. rewrite Z.mod_small by lia. lia. Qed.

Lemma parsePrimaryExpression_operand T toks n :
  isOperand T = true →
  endsOperand (hd (punct Token.Eof) toks) →
  parsePrimaryExpression (S (S n)) (St (T :: toks)) = Done (operandExpr T) (St toks).
Proof.
  intros HT (H1 & H2 & H3).
  destruct T as [k s i d b]. simpl in HT.
  destruct k; try discriminate HT; try reflexivity.
  (* identifier *)
  cbn -[bool_decide].
  unfold bind, Lexer_is, getTok, bind, ret. simpl.
  rewrite !bool_decide_eq_false_2 by assumption. reflexivity.
Qed.

(** What [readsOperand] says in a state written out. *)
Lemma readsOperand_St k Opnd toks0 :
  readsOperand (St toks0) k Opnd →
  ∀ fuel rest, (k + 2 ≤ fuel)%nat → endsOperand (hd (punct Token.Eof) rest) →
    parsePrimaryExpression fuel (St (operandTokens Opnd ++ rest)) =
    Done (operandNode Opnd) (St rest).
Proof. intros H. exact H. Qed.

Lemma parseBinOpRHS_not_Equal f p Res toks :
  Kind (hd (punct Token.Eof) toks) ≠ Token.Equal →
  parseBinOpRHS (S f) p Res (St toks) = parseBinOpRHS_loop f p Res (St toks).
Proof.
  intros H. cbn -[bool_decide parseBinOpRHS_loop].
  unfold bind, Lexer_is, getTok, bind, ret. simpl.
  rewrite bool_decide_eq_false_2 by assumption. reflexivity.
Qed.

Lemma parseBinOpRHS_loop_eq f p Res :
  parseBinOpRHS_loop (S f) p Res =
  (TokenKind ← getKind;
   TokPrec ← getBinOpPrecedence;
   if TokPrec <? p then ret Res
   else
     Symbol ← getStrVal;
     Lex;;
     RHS ← parsePrimaryExpression f;
     NextPrec ← getBinOpPrecedence;
     RHS ← (if TokPrec <? NextPrec
            then parseBinOpRHS f (int8_t (TokPrec + 1)) RHS
            else ret RHS);
     parseBinOpRHS_loop f p
       (if bool_decide (TokenKind = Token.InfixOp)
        then InfixOpExprAST Symbol Res RHS
        else tryFoldBinOp TokenKind Res RHS))%monad.
Proof. reflexivity. Qed.

Lemma parseBinOpRHS_loop_stop f p Res toks :
  tokenPrecedence precs (hd (punct Token.Eof) toks) < p →
  parseBinOpRHS_loop (S f) p Res (St toks) = Done Res (St toks).
Proof.
  intros H. rewrite parseBinOpRHS_loop_eq.
  unfold bind at 1. unfold getKind, bind at 1, getTok, ret at 1.
  unfold bind at 1. rewrite getBinOpPrecedence_eq.
  apply Z.ltb_lt in H. rewrite H. reflexivity.
Qed.

Lemma parseBinOpRHS_Equal f p Res T toks :
  Kind T = Token.Equal →
  parseBinOpRHS (S f) p Res (St (T :: toks)) =
  (RHS ← parseExpression f;
   ret (BinaryOperatorAST_create Token.Equal Res RHS)) (St toks).
Proof.
  intros H. cbn -[bool_decide parseExpression].
  unfold bind, Lexer_is, getTok, bind, ret. simpl.
  rewrite bool_decide_eq_true_2 by assumption. reflexivity.
Qed.

Lemma parseBinOpRHS_loop_step f p Res Op Opnd toks k :
  isBinOp (Kind Op) = true →
  readsOperand (St []) k Opnd →
  (k + 2 ≤ f)%nat →
  p ≤ precedenceOf (Kind Op) →
  endsOperand (hd (punct Token.Eof) toks) →
  parseBinOpRHS_loop (S f) p Res (St (Op :: operandTokens Opnd ++ toks)) =
  match
    (if precedenceOf (Kind Op) <? tokenPrecedence precs (hd (punct Token.Eof) toks)
     then parseBinOpRHS f (precedenceOf (Kind Op) + 1) (operandNode Opnd) (St toks)
     else Done (operandNode Opnd) (St toks))
  with
  | Done RHS s => parseBinOpRHS_loop f p (tryFoldBinOp (Kind Op) Res RHS) s
  | Raise e s => Raise e s
  | OutOfFuel => OutOfFuel
  end.
Proof.
  intros HOp HO Hf Hp Hnext.
  destruct (precedenceOf_binop _ HOp) as (Hrange & HnI).
  rewrite parseBinOpRHS_loop_eq.
  unfold bind at 1. unfold getKind, bind at 1, getTok, ret at 1. cbn [hd].
  unfold bind at 1. rewrite getBinOpPrecedence_eq. cbn [hd].
  rewrite (tokenPrecedence_binop _ HOp).
  assert ((precedenceOf (Kind Op) <? p) = false) as -> by (apply Z.ltb_ge; lia).
  unfold bind at 1. unfold getStrVal, bind at 1, getTok, ret at 1. cbn [hd].
  unfold bind at 1. unfold Lex, modify, set_Input.
  cbn [Input tl ErrorList BinOpPrecedence FunctionDefinition InfixOpDefinition
       TopLevelBlock].
  unfold bind at 1.
  rewrite (readsOperand_St k Opnd [] HO f toks Hf Hnext).
  unfold bind at 1. rewrite getBinOpPrecedence_eq.
  rewrite int8_t_small by lia.
  rewrite (bool_decide_eq_false_2 _ HnI).
  unfold bind at 1.
  destruct (_ <? _); reflexivity.
Qed.

Lemma next_token k Ops After :
  operatorsAndOperands (St []) k Ops → endsExpression precs After →
  let T := hd (punct Token.Eof) (flatOps Ops ++ After) in
  endsOperand T ∧
  tokenPrecedence precs T = default (tokenPrecedence precs T) (headPrecedence Ops).
Proof.
  intros HOps (Hprec & H1 & H2 & H3).
  destruct HOps as [| [Op T] Ops [HOp HT] HOps]; simpl.
  - repeat split; auto.
  - simpl in HOp. rewrite (tokenPrecedence_binop _ HOp).
    split; [apply endsOperand_binop, HOp | reflexivity].
Qed.

Lemma parseBinOpRHS_loop_spec k n : ∀ Ops p lhs After fuel,
  (length Ops ≤ n)%nat →
  1 ≤ p →
  operatorsAndOperands (St []) k Ops →
  endsExpression precs After →
  (∀ h r, headPrecedence Ops = Some h → rootPrecedence lhs = Some r → h ≤ r) →
  (2 * length Ops + 1 + k ≤ fuel)%nat →
  parseBinOpRHS_loop fuel p (build lhs) (St (flatOps Ops ++ After)) =
  Done (build (attachAll lhs (spanPrec p Ops).1))
       (St (flatOps ((spanPrec p Ops).2) ++ After)).
Proof.
  assert (Hbase : ∀ p lhs After fuel, 1 ≤ p → endsExpression precs After →
            (1 ≤ fuel)%nat →
            parseBinOpRHS_loop fuel p (build lhs) (St After) =
            Done (build lhs) (St After)).
  { intros p lhs After [| f] Hp (HA & _) Hf; [lia |].
    apply parseBinOpRHS_loop_stop. lia. }
  induction n as [| n IH]; intros Ops p lhs After fuel Hlen Hp HOps HAfter Hroot Hfuel.
  { destruct Ops; [| simpl in Hlen; lia]. apply Hbase; auto. simpl in Hfuel. lia. }
  destruct Ops as [| [Op T] Ops1]; [apply Hbase; auto; simpl in Hfuel; lia |].
  pose proof HOps as HOps'.
  apply Forall_cons in HOps' as [[HOp HT] HOps1]. simpl in HOp, HT.
  destruct (precedenceOf_binop _ HOp) as (Hrange & HnI).
  simpl spanPrec. simpl in Hlen, Hfuel.
  destruct (p <=? precedenceOf (Kind Op)) eqn:E; cbn [fst snd].
  - change (flatOps ((Op, T) :: Ops1) ++ After)%list
      with (Op :: (operandTokens T ++ flatOps Ops1) ++ After)%list.
    rewrite <- (app_assoc (operandTokens T)).
    apply Z.leb_le in E.
    destruct fuel as [| [| f]]; try lia.
    destruct (next_token k Ops1 After HOps1 HAfter) as (N1 & N5).
    assert (Hf : (k + 2 ≤ S f)%nat) by lia.
    rewrite (parseBinOpRHS_loop_step (S f) p (build lhs) Op T
               (flatOps Ops1 ++ After) k HOp HT Hf E N1).
    set (q := precedenceOf (Kind Op) + 1).
    assert (Hrhs :
      (if precedenceOf (Kind Op) <?
          tokenPrecedence precs (hd (punct Token.Eof) (flatOps Ops1 ++ After))
       then parseBinOpRHS (S f) q (operandNode T) (St (flatOps Ops1 ++ After))
       else Done (operandNode T) (St (flatOps Ops1 ++ After))) =
      Done (build (attachAll (Leaf T) (spanPrec q Ops1).1))
           (St (flatOps ((spanPrec q Ops1).2) ++ After))).
    { destruct (_ <? _) eqn:Elt.
      - apply Z.ltb_lt in Elt.
        rewrite parseBinOpRHS_not_Equal
          by (intros HE; rewrite (tokenPrecedence_Equal _ HE) in Elt; lia).
        apply (IH Ops1 q (Leaf T)); auto; try lia.
        intros h r _ [=].
      - apply Z.ltb_ge in Elt. rewrite N5 in Elt.
        destruct Ops1 as [| [Op1 T1] Ops2]; [reflexivity |].
        simpl in Elt. simpl.
        assert ((q <=? precedenceOf (Kind Op1)) = false) as ->
          by (apply Z.leb_gt; unfold q; lia).
        reflexivity. }
    rewrite Hrhs.
    change (tryFoldBinOp (Kind Op) (build lhs)
              (build (attachAll (Leaf T) (spanPrec q Ops1).1)))
      with (build (Node Op lhs (attachAll (Leaf T) (spanPrec q Ops1).1))).
    pose proof (spanPrec_length q Ops1) as Hl.
    rewrite (IH ((spanPrec q Ops1).2) p); auto; try lia.
    + rewrite (spanPrec_split p q Ops1) by (unfold q; lia). simpl.
      f_equal. f_equal.
      rewrite attachAll_app.
      rewrite attach_root by (intros r Hr; apply (Hroot _ _ eq_refl Hr)).
      rewrite (attachAll_right Op lhs (spanPrec q Ops1).1 (Leaf T)); [reflexivity |].
      eapply Forall_impl; [apply spanPrec_above |].
      intros x Hx. simpl in Hx. unfold q in Hx. lia.
    + apply spanPrec_Forall, HOps1.
    + intros h r Hh [= <-]. apply spanPrec_head in Hh. unfold q in Hh. lia.
  - apply Z.leb_gt in E.
    destruct fuel as [| f]; [lia |].
    apply parseBinOpRHS_loop_stop. simpl.
    rewrite (tokenPrecedence_binop _ HOp). exact E.
Qed.

Lemma spanPrec_all k Ops :
  operatorsAndOperands (St []) k Ops → spanPrec 1 Ops = (Ops, []).
Proof.
  induction 1 as [| q Ops [Hq _] _ IH]; [reflexivity |].
  simpl. destruct (precedenceOf_binop _ Hq) as (Hr & _).
  assert ((1 <=? precedenceOf (Kind q.1)) = true) as -> by (apply Z.leb_le; lia).
  rewrite IH. reflexivity.
Qed.

(** The expression whose first operator is not [=]: the loop of
    [parseBinOpRHS] builds the precedence tree. *)
Lemma parseExpression_operator k First Rest After fuel :
  readsOperand (St []) k First →
  operatorsAndOperands (St []) k Rest →
  startsWithOperator Rest →
  endsExpression precs After →
  (2 * length Rest + 3 + k ≤ fuel)%nat →
  parseExpression fuel (St (operandTokens First ++ flatOps Rest ++ After)) =
  Done (build (precedenceTree First Rest)) (St After).
Proof.
  intros HF HR Hstart HA Hfuel.
  destruct fuel as [| [| f]]; try lia.
  destruct (next_token k Rest After HR HA) as (N1 & _).
  change (parseExpression (S (S f))
            (St (operandTokens First ++ flatOps Rest ++ After)))
    with (bind (parsePrimaryExpression (S f))
               (λ Res, parseBinOpRHS (S f) 1 Res)
               (St (operandTokens First ++ flatOps Rest ++ After))).
  assert (Hf : (k + 2 ≤ S f)%nat) by lia.
  unfold bind. rewrite (readsOperand_St k First [] HF (S f) _ Hf N1).
  rewrite parseBinOpRHS_not_Equal.
  - change (operandNode First) with (build (Leaf First)).
    rewrite (parseBinOpRHS_loop_spec k (length Rest) Rest 1 (Leaf First) After);
      auto; try lia.
    + rewrite (spanPrec_all k _ HR). reflexivity.
    + intros h r _ [=].
  - destruct Rest as [| [Op Next] Rest'].
    + intros HE. destruct HA as (HA & _). simpl in HE, HA.
      rewrite (tokenPrecedence_Equal _ HE) in HA. lia.
    + apply (Hstart (Op, Next) eq_refl).
Qed.

(** Every expression: when the first operator is [=], the special case at
    the head of [parseBinOpRHS] parses all that follows as one expression. *)
Lemma parseExpression_spec k Rest : ∀ First After fuel,
  readsOperand (St []) k First →
  operatorsAndOperands (St []) k Rest →
  endsExpression precs After →
  (2 * length Rest + 3 + k ≤ fuel)%nat →
  parseExpression fuel (St (operandTokens First ++ flatOps Rest ++ After)) =
  Done (expressionNode First Rest) (St After).
Proof.
  induction Rest as [| [Op Next] Rest' IH]; intros First After fuel HF HR HA Hfuel.
  - apply (parseExpression_operator k First [] After fuel); auto.
    intros q [=].
  - destruct (decide (Kind Op = Token.Equal)) as [HE | HE].
    + rewrite (expressionNode_assignment _ _ _ _ HE).
      apply Forall_cons in HR as [[HOp HN] HR']. simpl in HOp, HN.
      simpl in Hfuel. destruct fuel as [| [| f]]; try lia.
      change (flatOps ((Op, Next) :: Rest') ++ After)%list
        with (Op :: (operandTokens Next ++ flatOps Rest') ++ After)%list.
      rewrite <- (app_assoc (operandTokens Next)).
      change (parseExpression (S (S f))
                (St (operandTokens First ++
                     Op :: operandTokens Next ++ flatOps Rest' ++ After)))
        with (bind (parsePrimaryExpression (S f))
                   (λ Res, parseBinOpRHS (S f) 1 Res)
                   (St (operandTokens First ++
                        Op :: operandTokens Next ++ flatOps Rest' ++ After))).
      unfold bind at 1.
      assert (Hf : (k + 2 ≤ S f)%nat) by lia.
      rewrite (readsOperand_St k First [] HF (S f)
                 (Op :: operandTokens Next ++ flatOps Rest' ++ After) Hf
                 (endsOperand_binop Op HOp)).
      rewrite (parseBinOpRHS_Equal _ _ _ _ _ HE).
      assert (Hf' : (2 * length Rest' + 3 + k ≤ f)%nat) by lia.
      unfold bind. rewrite (IH Next After f HN HR' HA Hf'). reflexivity.
    + rewrite expressionNode_operator by (intros q [= <-]; exact HE).
      apply (parseExpression_operator k); auto.
      intros q [= <-]. exact HE.
Qed.

(** A parenthesised expression is an operand. *)
Lemma readsOperand_paren_St k LP RP First Rest :
  Kind LP = Token.LParen → Kind RP = Token.RParen →
  readsOperand (St []) k First →
  operatorsAndOperands (St []) k Rest →
  readsOperand (St []) (2 * length Rest + 3 + k)
    (mkOperand (LP :: operandTokens First ++ flatOps Rest ++ [RP])
               (expressionNode First Rest)).
Proof.
  intros HLP HRP HF HR fuel rest Hfuel _.
  destruct fuel as [| [| f]]; try lia.
  destruct LP as [kl sl il dl bl], RP as [kr sr ir dr br]. simpl in HLP, HRP.
  subst kl kr.
  cbn [operandTokens operandNode set_Input Input ErrorList BinOpPrecedence
       FunctionDefinition InfixOpDefinition TopLevelBlock].
  rewrite <- !app_comm_cons, <- !app_assoc. simpl app.
  change (parsePrimaryExpression (S (S f)) ?s)
    with ((Lex;; Res ← parseExpression f;
           b ← Lexer_isNot Token.RParen;
           if b then Error "expected ')' in parentheses expression"
           else Lex;; ret Res) s).
  unfold bind at 1. unfold Lex, modify, set_Input.
  cbn [Input tl ErrorList BinOpPrecedence FunctionDefinition InfixOpDefinition
       TopLevelBlock].
  unfold bind at 1.
  rewrite (parseExpression_spec k Rest First
             (mkLexeme Token.RParen sr ir dr br :: rest) f HF HR);
    [reflexivity | | lia].
  repeat split; try discriminate.
Qed.

(** An operand with a sign, a [~] or a [!] in front is an operand. *)
Lemma readsOperand_unary_St k U (UnaryOpKind : UnaryOperator.OperatorKind) Opnd :
  (Kind U = Token.Plus ∧ UnaryOpKind = UnaryOperator.Plus) ∨
  (Kind U = Token.Minus ∧ UnaryOpKind = UnaryOperator.Minus) ∨
  (Kind U = Token.Tilde ∧ UnaryOpKind = UnaryOperator.BitwiseNot) ∨
  (Kind U = Token.Exclaim ∧ UnaryOpKind = UnaryOperator.LogicalNot) →
  readsOperand (St []) k Opnd →
  readsOperand (St []) (S k)
    (mkOperand (U :: operandTokens Opnd) (tryFoldUnaryOp UnaryOpKind (operandNode Opnd))).
Proof.
  intros HU HO fuel rest Hfuel Hrest.
  destruct fuel as [| f]; try lia.
  destruct U as [ku su iu du bu]. simpl in HU.
  assert (Hop : parsePrimaryExpression f (St (operandTokens Opnd ++ rest)) =
                Done (operandNode Opnd) (St rest))
    by (apply (readsOperand_St k Opnd [] HO); [lia | exact Hrest]).
  cbn [operandTokens operandNode set_Input Input ErrorList BinOpPrecedence
       FunctionDefinition InfixOpDefinition TopLevelBlock].
  rewrite <- app_comm_cons.
  assert (Hrun : ∀ K,
            (Lex;; Operand ← parsePrimaryExpression f;
             ret (tryFoldUnaryOp UnaryOpKind Operand))
              (St (mkLexeme K su iu du bu :: operandTokens Opnd ++ rest)) =
            Done (tryFoldUnaryOp UnaryOpKind (operandNode Opnd)) (St rest)).
  { intros K. unfold bind at 1. unfold Lex, modify, set_Input.
    cbn [Input tl ErrorList BinOpPrecedence FunctionDefinition
         InfixOpDefinition TopLevelBlock].
    unfold bind. rewrite Hop. reflexivity. }
  destruct HU as [[-> ->] | [[-> ->] | [[-> ->] | [-> ->]]]]; apply Hrun.
Qed.

End ParserFacts.

Lemma readsOperand_simple {Factory : ASTFactory} (st : ParserState) (T : Lexeme) :
  isOperand T = true → readsOperand st 0 (simpleOperand T).
Proof.
  intros HT fuel rest Hfuel Hrest. destruct st as [inp errs precs funcs infixes top].
  destruct fuel as [| [| f]]; try lia.
  apply (parsePrimaryExpression_operand errs precs funcs infixes top T rest f HT Hrest).
Qed.

Lemma readsOperand_paren {Factory : ASTFactory} (st : ParserState) (k : nat)
    (LP RP : Lexeme) (First : Operand) (Rest : list (Lexeme * Operand)) :
  Kind LP = Token.LParen → Kind RP = Token.RParen →
  readsOperand st k First →
  operatorsAndOperands st k Rest →
  readsOperand st (2 * length Rest + 3 + k)
    (mkOperand (LP :: operandTokens First ++ flatOps Rest ++ [RP])
               (expressionNode First Rest)).
Proof.
  destruct st as [inp errs precs funcs infixes top]. intros HLP HRP HF HR.
  exact (readsOperand_paren_St errs precs funcs infixes top k LP RP First Rest
           HLP HRP HF HR).
Qed.

Lemma readsOperand_unary {Factory : ASTFactory} (st : ParserState) (k : nat)
    (U : Lexeme) (UnaryOpKind : UnaryOperator.OperatorKind) (Opnd : Operand) :
  (Kind U = Token.Plus ∧ UnaryOpKind = UnaryOperator.Plus) ∨
  (Kind U = Token.Minus ∧ UnaryOpKind = UnaryOperator.Minus) ∨
  (Kind U = Token.Tilde ∧ UnaryOpKind = UnaryOperator.BitwiseNot) ∨
  (Kind U = Token.Exclaim ∧ UnaryOpKind = UnaryOperator.LogicalNot) →
  readsOperand st k Opnd →
  readsOperand st (S k)
    (mkOperand (U :: operandTokens Opnd) (tryFoldUnaryOp UnaryOpKind (operandNode Opnd))).
Proof.
  destruct st as [inp errs precs funcs infixes top]. intros HU HO.
  exact (readsOperand_unary_St errs precs funcs infixes top k U UnaryOpKind Opnd HU HO).
Qed.

Lemma readsOperand_more {Factory : ASTFactory} (st : ParserState) (k k' : nat)
    (Opnd : Operand) :
  (k ≤ k')%nat → readsOperand st k Opnd → readsOperand st k' Opnd.
Proof. intros Hk H fuel rest Hfuel Hrest. apply H; [lia | exact Hrest]. Qed.

(** The levels of the builtin table, from the loosest operator to the
    tightest: assignment, then the usual order of C. *)
Lemma builtin_precedence_levels :
  map precedenceOf
    [Token.Equal;
     Token.PipePipe; Token.AmpAmp; Token.Pipe; Token.Caret; Token.Amp;
     Token.EqualEqual; Token.ExclaimEqual;
     Token.Less; Token.LessEqual; Token.Greater; Token.GreaterEqual;
     Token.LessLess; Token.GreaterGreater;
     Token.Plus; Token.Minus;
     Token.Star; Token.Slash; Token.Percent]
  = [1; 2; 3; 4; 5; 6; 7; 7; 8; 8; 8; 8; 9; 9; 10; 10; 11; 11; 11].
Proof. reflexivity. Qed.

(** C7, as amended: take any expression made of operands and of operators
    of the builtin precedence table, [=] included, where an operand is
    whatever [parsePrimaryExpression] reads as one node (a literal, an
    identifier, a parenthesised expression, an operand with a sign in
    front).  [parseExpression] succeeds, consumes exactly the expression and
    produces the node [expressionNode] describes.  When the first operator
    is not [=], that is the tree that has the operands and operators in
    their order and respects standard precedence and left associativity:
    under each operator the left side binds at least as tightly and the
    right side strictly tighter; there is one such tree only, the one
    [precedenceTree] computes, so that [1 + 2 * 3] gives Add(1, Mul(2,3))
    and [2 * 3 + 1] gives Add(Mul(2,3), 1), and in it a later [=] is the
    operator of the lowest level, left-associative like the others.  When the
    first operator is [=], the expression is the assignment, to the first
    operand, of the whole expression after the [=]: there [=] associates to
    the right. *)
Theorem parseExpression_precedence {Factory : ASTFactory} (st : ParserState)
    (k : nat) (First : Operand) (Rest : list (Lexeme * Operand))
    (After : list Lexeme) :
  readsOperand st k First →
  operatorsAndOperands st k Rest →
  Input st = (operandTokens First ++ flatOps Rest ++ After)%list →
  endsExpression (BinOpPrecedence st) After →
  (∀ fuel, (2 * length Rest + 3 + k ≤ fuel)%nat →
     parseExpression fuel st =
     Done (expressionNode First Rest) (set_Input After st)) ∧
  (startsWithOperator Rest →
     expressionNode First Rest = build (precedenceTree First Rest) ∧
     firstOperand (precedenceTree First Rest) = First ∧
     operatorPairs (precedenceTree First Rest) = Rest ∧
     tokens (precedenceTree First Rest) = (operandTokens First ++ flatOps Rest)%list ∧
     respectsPrecedence (precedenceTree First Rest) ∧
     (∀ T, firstOperand T = First → operatorPairs T = Rest →
           respectsPrecedence T → T = precedenceTree First Rest)) ∧
  (∀ Op Next Rest', Rest = (Op, Next) :: Rest' → Kind Op = Token.Equal →
     expressionNode First Rest =
     BinaryOperatorAST_create Token.Equal (operandNode First)
       (expressionNode Next Rest')).
Proof.
  intros HF HR HI HA. split; [| split].
  - intros fuel Hfuel. destruct st as [toks errs precs funcs infixes top].
    simpl in HI, HA. subst toks.
    apply (parseExpression_spec errs precs funcs infixes top k Rest First After fuel);
      assumption.
  - intros Hstart.
    split; [apply expressionNode_operator, Hstart |].
    split; [apply (pairs_attachAll Rest (Leaf First)) |].
    split; [apply (pairs_attachAll Rest (Leaf First)) |].
    split; [unfold precedenceTree; rewrite tokens_attachAll; reflexivity |].
    split; [apply respectsPrecedence_attachAll; exact I |].
    intros T. apply respectsPrecedence_unique.
  - intros Op Next Rest' -> HE. apply expressionNode_assignment, HE.
Qed.

Lemma endsExpression_Semicolon Precs After :
  endsExpression Precs (punct Token.Semicolon :: After).
Proof. repeat split; discriminate. Qed.

(** [1 + 2 * 3] and [2 * 3 + 1]; [(1 + 2) * -3], whose operands are a
    parenthesised expression and a literal with a sign; and [a + b = c = d],
    where [=] comes after another operator. *)
Lemma parseExpression_precedence_examples :
  (readsOperand (Factory := PlainNodes 0)
     (initialParserState tokens_1_plus_2_times_3) 0 (simpleOperand (tokInteger 1)) ∧
   operatorsAndOperands (Factory := PlainNodes 0)
     (initialParserState tokens_1_plus_2_times_3) 0
     [(punct Token.Plus, simpleOperand (tokInteger 2));
      (punct Token.Star, simpleOperand (tokInteger 3))] ∧
   endsExpression ∅ [punct Token.Semicolon]) ∧
  parseExpression (Factory := PlainNodes 0) 7
    (initialParserState tokens_1_plus_2_times_3) =
  Done (BinaryOperatorAST BinaryOperator.Add (IntAST 1)
          (BinaryOperatorAST BinaryOperator.Multiply (IntAST 2) (IntAST 3)))
       (initialParserState [punct Token.Semicolon]) ∧
  parseExpression (Factory := PlainNodes 0) 7
    (initialParserState tokens_2_times_3_plus_1) =
  Done (BinaryOperatorAST BinaryOperator.Add
          (BinaryOperatorAST BinaryOperator.Multiply (IntAST 2) (IntAST 3))
          (IntAST 1))
       (initialParserState [punct Token.Semicolon]) ∧
  parseExpression (Factory := PlainNodes 0) 10
    (initialParserState tokens_paren_times_minus) =
  Done (BinaryOperatorAST BinaryOperator.Multiply
          (BinaryOperatorAST BinaryOperator.Add (IntAST 1) (IntAST 2))
          (UnaryOperatorAST UnaryOperator.Minus (IntAST 3)))
       (initialParserState [punct Token.Semicolon]) ∧
  parseExpression (Factory := PlainNodes 0) 9
    (initialParserState tokens_a_plus_b_c_d) =
  Done (BinaryOperatorAST BinaryOperator.Assign
          (BinaryOperatorAST BinaryOperator.Assign
             (BinaryOperatorAST BinaryOperator.Add
                (IdentifierAST "a") (IdentifierAST "b"))
             (IdentifierAST "c"))
          (IdentifierAST "d"))
       (initialParserState [punct Token.Semicolon]).
Proof.
  pose proof (endsExpression_Semicolon ∅ []) as HE.
  pose proof (λ st T H, readsOperand_simple (Factory := PlainNodes 0) st T H) as HS.
  assert (H1 : operatorsAndOperands (Factory := PlainNodes 0)
                 (initialParserState tokens_1_plus_2_times_3) 0
                 [(punct Token.Plus, simpleOperand (tokInteger 2));
                  (punct Token.Star, simpleOperand (tokInteger 3))])
    by (repeat constructor; apply HS; reflexivity).
  split; [split; [apply HS; reflexivity | split; [exact H1 | exact HE]] |].
  split; [| split; [| split]].
  - exact (proj1 (parseExpression_precedence (Factory := PlainNodes 0)
             (initialParserState tokens_1_plus_2_times_3) 0
             (simpleOperand (tokInteger 1))
             [(punct Token.Plus, simpleOperand (tokInteger 2));
              (punct Token.Star, simpleOperand (tokInteger 3))]
             [punct Token.Semicolon] (HS _ (tokInteger 1) eq_refl) H1 eq_refl HE)
            7%nat (le_n _)).
  - refine (proj1 (parseExpression_precedence (Factory := PlainNodes 0)
              (initialParserState tokens_2_times_3_plus_1) 0
              (simpleOperand (tokInteger 2))
              [(punct Token.Star, simpleOperand (tokInteger 3));
               (punct Token.Plus, simpleOperand (tokInteger 1))]
              [punct Token.Semicolon] _ _ eq_refl HE) 7%nat (le_n _)).
    + apply HS. reflexivity.
    + repeat constructor; apply HS; reflexivity.
  - refine (proj1 (parseExpression_precedence (Factory := PlainNodes 0)
              (initialParserState tokens_paren_times_minus) 5
              (mkOperand
                 (punct Token.LParen ::
                  operandTokens (simpleOperand (tokInteger 1)) ++
                  flatOps [(punct Token.Plus, simpleOperand (tokInteger 2))] ++
                  [punct Token.RParen])
                 (expressionNode (Factory := PlainNodes 0)
                    (simpleOperand (tokInteger 1))
                    [(punct Token.Plus, simpleOperand (tokInteger 2))]))
              [(punct Token.Star,
                mkOperand
                  (punct Token.Minus :: operandTokens (simpleOperand (tokInteger 3)))
                  (tryFoldUnaryOp (ASTFactory := PlainNodes 0) UnaryOperator.Minus
                     (operandNode (simpleOperand (tokInteger 3)))))]
              [punct Token.Semicolon] _ _ eq_refl HE) 10%nat (le_n _)).
    + apply (readsOperand_paren (Factory := PlainNodes 0) _ 0
               (punct Token.LParen) (punct Token.RParen)
               (simpleOperand (tokInteger 1))
               [(punct Token.Plus, simpleOperand (tokInteger 2))]);
        try reflexivity.
      * apply HS. reflexivity.
      * repeat constructor; apply HS; reflexivity.
    + repeat constructor.
      apply (readsOperand_more _ 1 5); [lia |].
      apply (readsOperand_unary (Factory := PlainNodes 0) _ 0 (punct Token.Minus)).
      * right. left. split; reflexivity.
      * apply HS. reflexivity.
  - refine (proj1 (parseExpression_precedence (Factory := PlainNodes 0)
              (initialParserState tokens_a_plus_b_c_d) 0
              (simpleOperand (tokIdentifier "a"))
              [(punct Token.Plus, simpleOperand (tokIdentifier "b"));
               (punct Token.Equal, simpleOperand (tokIdentifier "c"));
               (punct Token.Equal, simpleOperand (tokIdentifier "d"))]
              [punct Token.Semicolon] _ _ eq_refl HE) 9%nat (le_n _)).
    + apply HS. reflexivity.
    + repeat constructor; apply HS; reflexivity.
Defined.

(** [a = b = c]: [=] is an operator of the builtin table, of level 1, but
    the expression parses to Assign(a, Assign(b, c)), which is not the node
    of a tree that respects left associativity: the only such tree over
    these operands and operators stands for Assign(Assign(a, b), c). *)
Lemma assignment_associates_to_the_right :
  isBinOp Token.Equal = true ∧ precedenceOf Token.Equal = 1 ∧
  parseExpression (Factory := PlainNodes 0) 9 (initialParserState tokens_a_b_c) =
  Done (BinaryOperatorAST BinaryOperator.Assign (IdentifierAST "a")
          (BinaryOperatorAST BinaryOperator.Assign
             (IdentifierAST "b") (IdentifierAST "c")))
       (initialParserState [punct Token.Semicolon]) ∧
  ¬ (∃ T : Shape,
       firstOperand T = simpleOperand (tokIdentifier "a") ∧
       operatorPairs T =
         [(punct Token.Equal, simpleOperand (tokIdentifier "b"));
          (punct Token.Equal, simpleOperand (tokIdentifier "c"))] ∧
       respectsPrecedence T ∧
       build (Factory := PlainNodes 0) T =
       BinaryOperatorAST BinaryOperator.Assign (IdentifierAST "a")
         (BinaryOperatorAST BinaryOperator.Assign
            (IdentifierAST "b") (IdentifierAST "c"))).
Proof.
  split; [reflexivity | split; [reflexivity | split; [reflexivity |]]].
  intros (T & H1 & H2 & H3 & H4).
  rewrite (respectsPrecedence_unique T _ _ H1 H2 H3) in H4.
  discriminate H4.
Qed.

(** ** Statement execution (C9, C2, C10) *)

(** C9: the statement executor implements expression statements, blocks,
    return statements and declaration lists, each by its own function.
    Executing an if statement yields the Normal outcome and leaves the state
    as it was, whatever the condition and the branches are and even with no
    fuel left to evaluate anything: neither the condition nor a branch is
    run.  Executing a while or a for statement ends the run with a fatal
    runtime error. *)
Theorem executeStatement_implemented_kinds {RT : Runtime} (This : CMMInterpreter)
    (fuel : nat) (st : InterpreterState) :
  (∀ Expression,
     executeStatement This (S fuel) (Some (ExprStatementAST Expression)) =
     executeExprStatement (evaluateExpression This fuel) Expression) ∧
  (∀ StatementList,
     executeStatement This (S fuel) (Some (BlockAST StatementList)) =
     executeBlock (executeStatement This fuel) StatementList) ∧
  (∀ ReturnValue,
     executeStatement This (S fuel) (Some (ReturnStatementAST ReturnValue)) =
     executeReturnStatement (evaluateExpression This fuel) ReturnValue) ∧
  (∀ Type_ DeclarationList,
     executeStatement This (S fuel) (Some (DeclarationListAST Type_ DeclarationList)) =
     executeDeclarationList (evaluateExpression This fuel) DeclarationList) ∧
  (∀ Condition StatementThen StatementElse,
     executeStatement This 1 (Some (IfStatementAST Condition StatementThen StatementElse)) st =
       Done ExecutionResult_default st ∧
     executeStatement This (S fuel)
       (Some (IfStatementAST Condition StatementThen StatementElse)) st =
       Done ExecutionResult_default st ∧
     Normal ExecutionResult_default) ∧
  (∀ Condition Statement,
     executeStatement This (S fuel) (Some (WhileStatementAST Condition Statement)) st =
     Raise (ExitFailure "single declaration should not be used by user") st) ∧
  (∀ Init Condition Post Statement,
     executeStatement This (S fuel)
       (Some (ForStatementAST Init Condition Post Statement)) st =
     Raise (ExitFailure "single declaration should not be used by user") st).
Proof. repeat split. Qed.

Lemma executeStatementList_app
    (exec : option StatementAST → Interp ExecutionResult.t)
    (Pre Rest : list (option StatementAST)) :
  ∀ (Res0 R : ExecutionResult.t) (s0 s1 : InterpreterState),
  executeStatementList exec Pre Res0 s0 = Done R s1 →
  Normal R →
  executeStatementList exec (Pre ++ Rest) Res0 s0 = executeStatementList exec Rest R s1.
Proof.
  induction Pre as [| S Pre IH]; intros Res0 R s0 s1 Hrun HR; simpl in *.
  - unfold ret in Hrun. injection Hrun as -> ->. reflexivity.
  - unfold bind in *. destruct (exec S s0) as [r s | e s |]; try discriminate.
    destruct (bool_decide _) eqn:Hk.
    + unfold ret in Hrun. injection Hrun as -> ->.
      apply bool_decide_eq_true in Hk. contradiction.
    + apply (IH _ _ _ _ Hrun HR).
Qed.

Lemma executeStatementList_kind {RT : Runtime}
    (exec : option StatementAST → Interp ExecutionResult.t) :
  (∀ Stmt s R s', exec Stmt s = Done R s' → returnsOrFallsThrough R) →
  ∀ l Res s R s', returnsOrFallsThrough Res →
    executeStatementList exec l Res s = Done R s' → returnsOrFallsThrough R.
Proof.
  intros Hexec l. induction l as [| Stmt l IH]; intros Res s R s' HRes H; simpl in H.
  - unfold ret in H. injection H as <- _. exact HRes.
  - unfold bind in H. destruct (exec Stmt s) as [r s1 | e s1 |] eqn:E; try discriminate.
    pose proof (Hexec _ _ _ _ E) as Hr.
    destruct (bool_decide _).
    + unfold ret in H. injection H as <- _. exact Hr.
    + apply (IH _ _ _ _ Hr H).
Qed.

Lemma executeDeclarationList_kind {RT : Runtime}
    (eval : ExpressionAST → Interp cvm.BasicValue) :
  ∀ l s R s', executeDeclarationList eval l s = Done R s' → returnsOrFallsThrough R.
Proof.
  induction l as [| D l IH]; intros s R s' H; simpl in H.
  - unfold ret in H. injection H as <- _. left. reflexivity.
  - unfold bind in H.
    destruct (executeDeclaration eval D s) as [r s1 | e s1 |]; try discriminate.
    apply (IH _ _ _ H).
Qed.

(** Whatever the statement, the nesting and the fuel, an execution that
    completes yields Normal or Return: by induction on the fuel, the
    outcome of a block being the outcome of one of its statements. *)
Lemma executeStatement_kind {RT : Runtime} (This : CMMInterpreter) :
  ∀ fuel Stmt s R s',
  executeStatement This fuel Stmt s = Done R s' → returnsOrFallsThrough R.
Proof.
  induction fuel as [| n IH]; intros Stmt s R s' H; [discriminate H |].
  simpl in H. destruct Stmt as [[] |]; simpl in H; try discriminate H.
  - (* block *)
    unfold executeBlock, bind, modify, ret in H.
    destruct (executeStatementList _ _ _ _) as [r s1 | e s1 |] eqn:E;
      try discriminate.
    injection H as <- _.
    refine (executeStatementList_kind _ IH _ _ _ _ _ _ E). left. reflexivity.
  - (* if *)
    unfold ret in H. injection H as <- _. left. reflexivity.
  - (* return *)
    unfold executeReturnStatement in H. destruct ReturnValue.
    + unfold bind, ret in H.
      destruct (evaluateExpression This n _ s); try discriminate.
      injection H as <- _. right. reflexivity.
    + unfold ret in H. injection H as <- _. right. reflexivity.
  - (* expression statement *)
    unfold executeExprStatement, bind, ret in H.
    destruct (evaluateExpression This n _ s); try discriminate.
    injection H as <- _. left. reflexivity.
  - (* declaration list *)
    apply (executeDeclarationList_kind _ _ _ _ _ H).
Qed.

(** C2, as amended: executing a break or a continue statement ends the run
    with a fatal runtime error, and statement execution never yields the
    Break or the Continue outcome: whatever the statement, however deeply
    nested, and whatever the fuel, an execution that completes yields Normal
    or Return.  A block stops at the first statement whose outcome is not
    Normal, does not run the statements after it, and passes that outcome
    upward unchanged (whatever runs the statements, hence also for the
    outcomes the executor does not produce yet). *)
Theorem break_continue_and_block_propagation {RT : Runtime} (This : CMMInterpreter) :
  (∀ fuel st,
     executeStatement This (S fuel) (Some BreakStatementAST) st =
     Raise (ExitFailure "single declaration should not be used by user") st) ∧
  (∀ fuel st,
     executeStatement This (S fuel) (Some ContinueStatementAST) st =
     Raise (ExitFailure "single declaration should not be used by user") st) ∧
  (∀ fuel (Stmt : option StatementAST) (st st' : InterpreterState)
     (Res : ExecutionResult.t),
     executeStatement This fuel Stmt st = Done Res st' →
     returnsOrFallsThrough Res ∧
     ExecutionResult.Kind Res ≠ ExecutionResult.BreakStatementResult ∧
     ExecutionResult.Kind Res ≠ ExecutionResult.ContinueStatementResult) ∧
  (∀ (exec : option StatementAST → Interp ExecutionResult.t)
     (Pre : list (option StatementAST)) (Stmt : option StatementAST)
     (Rest : list (option StatementAST))
     (R Res : ExecutionResult.t) (st s1 s2 : InterpreterState),
     executeStatementList exec Pre ExecutionResult_default
       (mkInterpreterState (TopLevelEnv st) (∅ :: Scopes st)) = Done R s1 →
     Normal R →
     exec Stmt s1 = Done Res s2 →
     ¬ Normal Res →
     executeBlock exec (Pre ++ Stmt :: Rest) st =
     Done Res (mkInterpreterState (TopLevelEnv s2) (tl (Scopes s2)))).
Proof.
  split; [reflexivity | split; [reflexivity | split]].
  - intros fuel Stmt st st' Res H.
    pose proof (executeStatement_kind This _ _ _ _ _ H) as HK.
    split; [exact HK |].
    destruct HK as [HK | HK]; rewrite HK; split; discriminate.
  - intros exec Pre Stmt Rest R Res st s1 s2 Hpre HR Hstmt HRes.
    unfold executeBlock, bind, modify.
    rewrite (executeStatementList_app exec Pre (Stmt :: Rest) _ _ _ _ Hpre HR).
    simpl. unfold bind. rewrite Hstmt.
    rewrite bool_decide_eq_true_2 by exact HRes. reflexivity.
Qed.

(** The block [{ break; }] never yields an outcome, whatever the fuel: with
    enough fuel to reach the break statement the run ends in a fatal error. *)
Lemma break_in_block_never_yields_Break :
  executeStatement (RT := Reference.runtime) emptyInterpreter 2
    (Some (BlockAST [Some BreakStatementAST])) initialInterpreterState =
  Raise (ExitFailure "single declaration should not be used by user")
        (mkInterpreterState ∅ [∅]) ∧
  ¬ (∃ fuel Res st',
       executeStatement (RT := Reference.runtime) emptyInterpreter fuel
         (Some (BlockAST [Some BreakStatementAST])) initialInterpreterState =
       Done Res st').
Proof.
  split; [reflexivity |].
  intros (fuel & Res & st' & H).
  destruct fuel as [| [| fuel]]; discriminate H.
Qed.

(** The block [{ 1; return 2; 3; }] stops at the return statement, and the
    outcome of [return 2;] is Return, neither Break nor Continue. *)
Lemma block_propagation_example :
  ((executeStatementList (executeStatement (RT := Reference.runtime) emptyInterpreter 2)
      [Some (ExprStatementAST (IntAST 1))] (ExecutionResult_default (RT := Reference.runtime))
      (mkInterpreterState ∅ [∅]) =
    Done (ExecutionResult_default (RT := Reference.runtime)) (mkInterpreterState ∅ [∅]) ∧
    Normal (ExecutionResult_default (RT := Reference.runtime)) ∧
    executeStatement (RT := Reference.runtime) emptyInterpreter 2
      (Some (ReturnStatementAST (Some (IntAST 2)))) (mkInterpreterState ∅ [∅]) =
    Done (ExecutionResult.mk ExecutionResult.ReturnStatementResult (cvm.IntValue 2))
         (mkInterpreterState ∅ [∅]) ∧
    ¬ Normal (ExecutionResult.mk ExecutionResult.ReturnStatementResult (cvm.IntValue 2))) ∧
   executeBlock (RT := Reference.runtime)
     (executeStatement (RT := Reference.runtime) emptyInterpreter 2)
     [Some (ExprStatementAST (IntAST 1));
      Some (ReturnStatementAST (Some (IntAST 2)));
      Some (ExprStatementAST (IntAST 3))] initialInterpreterState =
   Done (ExecutionResult.mk ExecutionResult.ReturnStatementResult (cvm.IntValue 2))
        initialInterpreterState) ∧
  (returnsOrFallsThrough
     (ExecutionResult.mk ExecutionResult.ReturnStatementResult (cvm.IntValue 2)) ∧
   ExecutionResult.ReturnStatementResult ≠ ExecutionResult.BreakStatementResult ∧
   ExecutionResult.ReturnStatementResult ≠ ExecutionResult.ContinueStatementResult).
Proof.
  assert (H4 : ¬ Normal (ExecutionResult.mk ExecutionResult.ReturnStatementResult
                           (cvm.IntValue 2))) by discriminate.
  split; [split; [repeat split; exact H4 |] |].
  - exact (proj2 (proj2 (proj2 (break_continue_and_block_propagation
                           (RT := Reference.runtime) emptyInterpreter)))
             (executeStatement (RT := Reference.runtime) emptyInterpreter 2)
             [Some (ExprStatementAST (IntAST 1))]
             (Some (ReturnStatementAST (Some (IntAST 2))))
             [Some (ExprStatementAST (IntAST 3))]
             (ExecutionResult_default (RT := Reference.runtime))
             (ExecutionResult.mk ExecutionResult.ReturnStatementResult (cvm.IntValue 2))
             initialInterpreterState (mkInterpreterState ∅ [∅]) (mkInterpreterState ∅ [∅])
             eq_refl eq_refl eq_refl H4).
  - exact (proj1 (proj2 (proj2 (break_continue_and_block_propagation
                           (RT := Reference.runtime) emptyInterpreter)))
             2%nat (Some (ReturnStatementAST (Some (IntAST 2))))
             (mkInterpreterState ∅ [∅]) (mkInterpreterState ∅ [∅])
             (ExecutionResult.mk ExecutionResult.ReturnStatementResult (cvm.IntValue 2))
             eq_refl).
Defined.

(** ** Binary operators (C4) *)

(** C4: the arithmetic operators [+] (on operands that are not strings),
    [-], [*] and [/] dispatch to the arithmetic evaluator, but the [switch]
    of [evaluateBinaryCalc] has no case for [Modulo]: for every pair of
    operands, and so for every pair of int operands, evaluating [%] falls to
    the default case and ends the run with the fatal error for an unknown
    operator kind; [7 % 3] is an instance. *)
Theorem evaluateBinaryCalc_Modulo_is_rejected {RT : Runtime} (This : CMMInterpreter)
    (LHS RHS : cvm.BasicValue) (st : InterpreterState) :
  evaluateBinaryCalc BinaryOperator.Minus LHS RHS =
    liftRuntime (evaluateBinArith BinaryOperator.Minus LHS RHS) ∧
  evaluateBinaryCalc BinaryOperator.Multiply LHS RHS =
    liftRuntime (evaluateBinArith BinaryOperator.Multiply LHS RHS) ∧
  evaluateBinaryCalc BinaryOperator.Division LHS RHS =
    liftRuntime (evaluateBinArith BinaryOperator.Division LHS RHS) ∧
  evaluateBinaryCalc BinaryOperator.Add LHS RHS =
    (if cvm.isString LHS || cvm.isString RHS
     then ret (cvm.StringValue (toString LHS ++ toString RHS))
     else liftRuntime (evaluateBinArith BinaryOperator.Add LHS RHS)) ∧
  evaluateBinaryCalc BinaryOperator.Modulo LHS RHS st =
    Raise (ExitFailure "unknown binary operator kind (code :4)") st ∧
  evaluateExpression This 2
    (BinaryOperatorAST BinaryOperator.Modulo (IntAST 7) (IntAST 3)) st =
    Raise (ExitFailure "unknown binary operator kind (code :4)") st.
Proof. repeat split. Qed.

(** ** Empty statements (C10) *)

Lemma interpretStatements_app {RT : Runtime} (This : CMMInterpreter) (fuel : nat)
    (Pre Rest : list (option StatementAST)) :
  ∀ (st st' : InterpreterState),
  interpretStatements This fuel Pre st = Done tt st' →
  interpretStatements This fuel (Pre ++ Rest) st = interpretStatements This fuel Rest st'.
Proof.
  induction Pre as [| S Pre IH]; intros st st' H; simpl in *.
  - unfold ret in H. injection H as ->. reflexivity.
  - unfold bind in *.
    destruct (executeStatement This fuel S st) as [r s | e s |]; try discriminate.
    destruct (bool_decide _); [discriminate |].
    apply IH, H.
Qed.

Lemma interpretStatements_app_Raise {RT : Runtime} (This : CMMInterpreter)
    (fuel : nat) (Pre Rest : list (option StatementAST)) :
  ∀ (st st' : InterpreterState) (e : Abort),
  interpretStatements This fuel Pre st = Raise e st' →
  interpretStatements This fuel (Pre ++ Rest) st = Raise e st'.
Proof.
  induction Pre as [| S Pre IH]; intros st st' e H; simpl in *.
  - discriminate H.
  - unfold bind in *.
    destruct (executeStatement This fuel S st) as [r s | e' s |]; try discriminate.
    + destruct (bool_decide _); [exact H |]. apply IH, H.
    + exact H.
Qed.

(** C10, as amended: parsing a lone [;] emits the warning "empty statement"
    and yields the null statement pointer, which [parseTopLevel] appends to
    the top-level statement list and the loop of [parseBlock] to the list of
    the block; [executeStatement] dereferences the pointer it is given
    without a check.  So a run that reaches the empty statement dereferences
    a null pointer there: at the top level and in a block when the
    statements before it have completed normally, and in a call of a
    function whose body it is.  A run does not reach an empty statement
    that is a branch of an if statement (executing an if statement runs
    neither branch) or that comes after a statement that ends the run: there
    the run goes on, or ends, as without it. *)
Theorem empty_statement_null_pointer {Factory : ASTFactory} {RT : Runtime}
    (This : CMMInterpreter)
    (errs : list Diagnostic) (precs : gmap string Z)
    (funcs : gmap string FunctionDefinitionAST)
    (infixes : gmap string InfixOpDefinitionAST)
    (top : list (option StatementAST))
    (T : Lexeme) (toks : list Lexeme) (n fuel : nat)
    (Pre Rest : list (option StatementAST)) (st st' : InterpreterState) :
  Kind T = Token.Semicolon →
  interpretStatements This (S fuel) Pre st = Done tt st' →
  let Warned :=
    (errs ++ [mkDiagnostic (T :: toks) ErrorKind.Warning "empty statement"])%list in
  parseStatement (S n) (mkParserState (T :: toks) errs precs funcs infixes top) =
    Done None (mkParserState toks Warned precs funcs infixes top) ∧
  parseTopLevel (S n) (mkParserState (T :: toks) errs precs funcs infixes top) =
    Done tt (mkParserState toks Warned precs funcs infixes (top ++ [None])) ∧
  (∀ StatementList,
     parseBlock_loop (S (S n)) StatementList
       (mkParserState (T :: toks) errs precs funcs infixes top) =
     parseBlock_loop (S n) (StatementList ++ [None])
       (mkParserState toks Warned precs funcs infixes top)) ∧
  executeStatement This (S fuel) None st' = Raise NullPointerDereference st' ∧
  interpretStatements This (S fuel) (Pre ++ None :: Rest) st =
    Raise NullPointerDereference st' ∧
  (∀ R s0 s1,
     executeStatementList (executeStatement This (S fuel)) Pre ExecutionResult_default
       (mkInterpreterState (TopLevelEnv s0) (∅ :: Scopes s0)) = Done R s1 →
     Normal R →
     executeBlock (executeStatement This (S fuel)) (Pre ++ None :: Rest) s0 =
     Raise NullPointerDereference s1) ∧
  (∀ Function Args FuncEnv s0 s1,
     FuncStatement Function = None →
     length Args = getParameterCount Function →
     bindArguments Function (ParameterList Function) Args ∅ s0 = Done FuncEnv s1 →
     callUserFunction (executeStatement This (S fuel)) Function Args s0 =
     Raise NullPointerDereference (mkInterpreterState (TopLevelEnv s1) [FuncEnv])) ∧
  (∀ Condition s0,
     executeStatement This (S fuel) (Some (IfStatementAST Condition None None)) s0 =
     Done ExecutionResult_default s0) ∧
  (∀ Before e s0 s1,
     interpretStatements This (S fuel) Before s0 = Raise e s1 →
     interpretStatements This (S fuel) (Before ++ None :: Rest) s0 = Raise e s1).
Proof.
  intros HT Hpre Warned.
  destruct T as [k s i d b]. simpl in HT. subst k.
  split; [reflexivity | split; [reflexivity | split; [reflexivity |]]].
  split; [reflexivity | split; [| split; [| split; [| split]]]].
  - rewrite (interpretStatements_app This (S fuel) Pre (None :: Rest) _ _ Hpre).
    reflexivity.
  - intros R s0 s1 Hrun HR.
    unfold executeBlock, bind, modify.
    rewrite (executeStatementList_app _ Pre (None :: Rest) _ _ _ _ Hrun HR).
    reflexivity.
  - intros Function Args FuncEnv s0 s1 Hbody Hlen Hbind.
    unfold callUserFunction.
    rewrite bool_decide_eq_false_2 by (intros Hne; apply Hne, Hlen).
    unfold bind. rewrite Hbind. rewrite Hbody. reflexivity.
  - intros Condition s0. reflexivity.
  - intros Before e s0 s1 H.
    apply (interpretStatements_app_Raise This (S fuel) Before (None :: Rest) _ _ _ H).
Qed.

Lemma empty_statement_example :
  (Kind (punct Token.Semicolon) = Token.Semicolon ∧
   interpretStatements (RT := Reference.runtime) emptyInterpreter 2
     [Some (ExprStatementAST (IntAST 1))] initialInterpreterState =
   Done tt initialInterpreterState) ∧
  parse (Factory := PlainNodes 0) 10 (initialParserState tokens_1_then_empty) =
  Done tt (mkParserState []
             [mkDiagnostic [punct Token.Semicolon] ErrorKind.Warning "empty statement"]
             ∅ ∅ ∅ [Some (ExprStatementAST (IntAST 1)); None]) ∧
  interpretStatements (RT := Reference.runtime) emptyInterpreter 2
    [Some (ExprStatementAST (IntAST 1)); None] initialInterpreterState =
  Raise NullPointerDereference initialInterpreterState.
Proof.
  assert (Hpre :
    interpretStatements (RT := Reference.runtime) emptyInterpreter 2
      [Some (ExprStatementAST (IntAST 1))] initialInterpreterState =
    Done tt initialInterpreterState) by reflexivity.
  split; [split; [reflexivity | exact Hpre] |].
  split; [reflexivity |].
  exact (proj1 (proj2 (proj2 (proj2 (proj2
           (empty_statement_null_pointer (Factory := PlainNodes 0)
              (RT := Reference.runtime) emptyInterpreter
              [] ∅ ∅ ∅ [] (punct Token.Semicolon) [] 0 1
              [Some (ExprStatementAST (IntAST 1))] [] initialInterpreterState
              initialInterpreterState eq_refl Hpre)))))).
Defined.

(** Three programs with a lone [;] that run without dereferencing a null
    pointer: in [if (1) ;] the empty statement is the branch of an if
    statement, which is not executed; in [int f() ; 1;] it is the body of a
    function that is not called; in [x; ;] the run has ended, with a fatal
    error at [x], before it is reached. *)
Lemma bare_semicolon_not_reached :
  (parse (Factory := PlainNodes 0) 10 (initialParserState tokens_if_empty) =
     Done tt parsed_if_empty ∧
   ∀ fuel,
     interpret (RT := Reference.runtime)
       (makeInterpreter (RT := Reference.runtime) parsed_if_empty)
       (S fuel) initialInterpreterState = Done tt initialInterpreterState) ∧
  (parse (Factory := PlainNodes 0) 10 (initialParserState tokens_empty_body) =
     Done tt parsed_empty_body ∧
   ∀ fuel,
     interpret (RT := Reference.runtime)
       (makeInterpreter (RT := Reference.runtime) parsed_empty_body)
       (S (S fuel)) initialInterpreterState = Done tt initialInterpreterState) ∧
  (parse (Factory := PlainNodes 0) 10 (initialParserState tokens_x_then_empty) =
     Done tt parsed_x_then_empty ∧
   (∀ fuel,
      interpret (RT := Reference.runtime)
        (makeInterpreter (RT := Reference.runtime) parsed_x_then_empty)
        (S (S fuel)) initialInterpreterState =
      Raise (ExitFailure "variable `x' is undefined") initialInterpreterState) ∧
   ∀ fuel st',
     interpret (RT := Reference.runtime)
       (makeInterpreter (RT := Reference.runtime) parsed_x_then_empty)
       fuel initialInterpreterState ≠ Raise NullPointerDereference st').
Proof.
  split; [split; [vm_compute; reflexivity | intros fuel; reflexivity] |].
  split; [split; [vm_compute; reflexivity | intros fuel; reflexivity] |].
  split; [vm_compute; reflexivity | split].
  - intros fuel. reflexivity.
  - intros [| [| fuel]] st'; discriminate.
Qed.

(** ** Calls of user functions (C5) *)

Lemma bindArguments_mismatch {RT : Runtime} (Function : FunctionDefinitionAST)
    (Args : list cvm.BasicValue) :
  ∀ (Paras : list FunctionParameter) (FuncEnv : gmap string cvm.BasicValue)
    (st : InterpreterState),
  typeMismatch Paras Args →
  ∃ Msg, bindArguments Function Paras Args FuncEnv st = Raise (ExitFailure Msg) st.
Proof.
  induction Args as [| Arg Args IH]; intros Paras FuncEnv st (i & P & A & HP & HA & Hne).
  - discriminate HA.
  - destruct Paras as [| Para Paras]; [discriminate HP |].
    simpl. destruct (bool_decide (ParamType Para ≠ cvm.Type_ Arg)) eqn:Hd.
    + eexists. reflexivity.
    + apply bool_decide_eq_false in Hd.
      destruct i as [| i].
      * simpl in HP, HA. injection HP as <-. injection HA as <-. contradiction.
      * apply IH. exists i, P, A. auto.
Qed.

(** C5: when a user function is called with a number of arguments other
    than its number of parameters, or with an argument whose runtime type is
    not exactly the declared type of its parameter (an int argument for a
    double parameter included: nothing is widened here), the call ends the
    run with a fatal runtime error; the error is the same whatever executing
    the body would do, so it is signalled before the body is executed. *)
Theorem callUserFunction_rejects_mismatch {RT : Runtime}
    (Function : FunctionDefinitionAST) (Args : list cvm.BasicValue)
    (st : InterpreterState) :
  length Args ≠ getParameterCount Function ∨
  typeMismatch (ParameterList Function) Args →
  ∃ Msg, ∀ executeStatement : option StatementAST → Interp ExecutionResult.t,
    callUserFunction executeStatement Function Args st = Raise (ExitFailure Msg) st.
Proof.
  intros H. unfold callUserFunction.
  destruct (bool_decide (length Args ≠ getParameterCount Function)) eqn:Hlen.
  - eexists. intros exec. reflexivity.
  - apply bool_decide_eq_false in Hlen.
    destruct H as [H | H]; [contradiction |].
    destruct (bindArguments_mismatch Function Args (ParameterList Function) ∅ st H)
      as (Msg & HMsg).
    exists Msg. intros exec. unfold bind. rewrite HMsg. reflexivity.
Qed.

Lemma call_with_int_for_double_example :
  typeMismatch (ParameterList function_half) [cvm.IntValue 1] ∧
  ∃ Msg, ∀ executeStatement : option StatementAST → Interp ExecutionResult.t,
    callUserFunction (RT := Reference.runtime) executeStatement function_half
      [cvm.IntValue 1] initialInterpreterState =
    Raise (ExitFailure Msg) initialInterpreterState.
Proof.
  assert (H : typeMismatch (ParameterList function_half) [cvm.IntValue 1]).
  { exists 0%nat, (mkParameter "x" cvm.DoubleType []), (cvm.IntValue 1).
    repeat split. discriminate. }
  split; [exact H |].
  exact (callUserFunction_rejects_mismatch (RT := Reference.runtime)
           function_half [cvm.IntValue 1] initialInterpreterState (or_intror H)).
Defined.

(** The message of that call, and the one of a call with no argument. *)
Lemma call_with_int_for_double_message
    (executeStatement : option StatementAST → Interp ExecutionResult.t) :
  callUserFunction (RT := Reference.runtime) executeStatement function_half
    [cvm.IntValue 1] initialInterpreterState =
  Raise (ExitFailure
           "in function `half', parameter `x' has type double, but argument has type int")
        initialInterpreterState ∧
  callUserFunction (RT := Reference.runtime) executeStatement function_half
    [] initialInterpreterState =
  Raise (ExitFailure "Function `half' expects 1 parameter(s), 0 argument(s) provided")
        initialInterpreterState.
Proof. split; reflexivity. Qed.

(** ** Declarations with an initializer (C6) *)

(** C6, as amended: for every declaration with an initializer that is not
    an array declaration, whose name is not yet defined in the current scope
    and whose initializer evaluates to a value, execution succeeds exactly
    when the runtime type of the value equals the declared type, or the
    declared type is double and the value is an int; the variable is then
    bound to the value, widened to double in the second case.  Every other
    type mismatch is a fatal runtime error. *)
Theorem executeDeclaration_initializer {RT : Runtime}
    (evaluateExpression : ExpressionAST → Interp cvm.BasicValue)
    (Decl : DeclarationAST) (Init : ExpressionAST) (V : cvm.BasicValue)
    (st st1 : InterpreterState) :
  Initializer Decl = Some Init →
  isArray Decl = false →
  CurrentEnv st !! DeclName Decl = None →
  evaluateExpression Init st = Done V st1 →
  (initializerAccepted (DeclType Decl) V →
   executeDeclaration evaluateExpression Decl st =
   Done ExecutionResult_default
        (set_CurrentEnv
           (emplace (DeclName Decl) (initialValue (DeclType Decl) V) (CurrentEnv st1)).1
           st1)) ∧
  (¬ initializerAccepted (DeclType Decl) V →
   executeDeclaration evaluateExpression Decl st =
   Raise (ExitFailure ("variable `" ++ DeclName Decl ++ "' is declared to be " ++
                       TypeToStr (DeclType Decl) ++ ", but is initialized to be " ++
                       TypeToStr (cvm.Type_ V))) st1) ∧
  ((∃ Res st', executeDeclaration evaluateExpression Decl st = Done Res st') ↔
   initializerAccepted (DeclType Decl) V).
Proof.
  intros HInit HArr HName HEval.
  assert (Hrun : executeDeclaration evaluateExpression Decl st =
    (if bool_decide (cvm.Type_ V ≠ DeclType Decl) then
       if bool_decide (DeclType Decl = cvm.DoubleType) && cvm.isInt V
       then Done ExecutionResult_default
              (set_CurrentEnv
                 (emplace (DeclName Decl) (initialValue (DeclType Decl) V)
                    (CurrentEnv st1)).1 st1)
       else Raise (ExitFailure ("variable `" ++ DeclName Decl ++ "' is declared to be " ++
                       TypeToStr (DeclType Decl) ++ ", but is initialized to be " ++
                       TypeToStr (cvm.Type_ V))) st1
     else Done ExecutionResult_default
            (set_CurrentEnv
               (emplace (DeclName Decl) (initialValue (DeclType Decl) V)
                  (CurrentEnv st1)).1 st1))).
  { unfold executeDeclaration, bind, get.
    rewrite bool_decide_eq_false_2 by (rewrite HName; intros [? [=]]).
    rewrite HArr, HInit, HEval.
    destruct (bool_decide (cvm.Type_ V ≠ DeclType Decl)) eqn:Hne.
    - destruct (bool_decide (DeclType Decl = cvm.DoubleType)) eqn:Hd; simpl.
      + apply bool_decide_eq_true in Hd. rewrite Hd.
        destruct V; reflexivity.
      + reflexivity.
    - apply bool_decide_eq_false in Hne.
      assert (HeqT : cvm.Type_ V = DeclType Decl)
        by (destruct (decide (cvm.Type_ V = DeclType Decl)); [assumption | contradiction]).
      unfold initialValue. rewrite <- HeqT.
      destruct V; reflexivity. }
  assert (Hdec : initializerAccepted (DeclType Decl) V ↔
    (bool_decide (cvm.Type_ V ≠ DeclType Decl) = false ∨
     bool_decide (DeclType Decl = cvm.DoubleType) && cvm.isInt V = true)).
  { unfold initializerAccepted. split.
    - intros [H | [H1 H2]].
      + left. apply bool_decide_eq_false. intros Hc. contradiction.
      + right. rewrite bool_decide_eq_true_2 by assumption.
        destruct V; try discriminate H2. reflexivity.
    - intros [H | H].
      + apply bool_decide_eq_false in H. left.
        destruct (decide (cvm.Type_ V = DeclType Decl)); [assumption | contradiction].
      + apply andb_true_iff in H as [H1 H2]. apply bool_decide_eq_true in H1.
        right. split; [assumption |]. destruct V; try discriminate H2. reflexivity. }
  rewrite Hrun, Hdec.
  destruct (bool_decide (cvm.Type_ V ≠ DeclType Decl));
    destruct (bool_decide (DeclType Decl = cvm.DoubleType) && cvm.isInt V).
  - split; [reflexivity | split].
    + intros H. exfalso. apply H. right. reflexivity.
    + split; [right; reflexivity | intros _; do 2 eexists; reflexivity].
  - split; [intros [H | H]; discriminate H | split].
    + reflexivity.
    + split; [intros (? & ? & [=]) | intros [H | H]; discriminate H].
  - split; [reflexivity | split].
    + intros H. exfalso. apply H. left. reflexivity.
    + split; [left; reflexivity | intros _; do 2 eexists; reflexivity].
  - split; [reflexivity | split].
    + intros H. exfalso. apply H. left. reflexivity.
    + split; [left; reflexivity | intros _; do 2 eexists; reflexivity].
Qed.

(** [int x = 1; int x = 2;]: the initializer of the second declaration has
    the declared type, and its execution never succeeds. *)
Lemma redeclaration_with_matching_type_fails :
  cvm.Type_ (cvm.IntValue 2) = cvm.IntType ∧
  interpretStatements (RT := Reference.runtime) emptyInterpreter 3
    [declare_int_x 1; declare_int_x 2] initialInterpreterState =
  Raise (ExitFailure "variable `x' is already defined in current scope")
        (mkInterpreterState (<["x" := cvm.IntValue 1]> ∅) []) ∧
  ¬ (∃ fuel Res st',
       executeStatement (RT := Reference.runtime) emptyInterpreter fuel
         (declare_int_x 2) (mkInterpreterState (<["x" := cvm.IntValue 1]> ∅) []) =
       Done Res st').
Proof.
  split; [reflexivity | split; [vm_compute; reflexivity |]].
  intros (fuel & Res & st' & H).
  destruct fuel as [| fuel]; [discriminate H |].
  vm_compute in H. discriminate H.
Qed.

(** [double y = 3;] in the empty top-level environment. *)
Lemma declaration_widening_example :
  (Initializer (mkDeclarationAST "y" cvm.DoubleType (Some (IntAST 3)) []) =
     Some (IntAST 3) ∧
   isArray (mkDeclarationAST "y" cvm.DoubleType (Some (IntAST 3)) []) = false ∧
   CurrentEnv initialInterpreterState !! "y" = None ∧
   evaluateExpression (RT := Reference.runtime) emptyInterpreter 1 (IntAST 3)
     initialInterpreterState = Done (cvm.IntValue 3) initialInterpreterState ∧
   initializerAccepted cvm.DoubleType (cvm.IntValue 3)) ∧
  executeDeclaration (RT := Reference.runtime)
    (evaluateExpression (RT := Reference.runtime) emptyInterpreter 1)
    (mkDeclarationAST "y" cvm.DoubleType (Some (IntAST 3)) [])
    initialInterpreterState =
  Done (ExecutionResult_default (RT := Reference.runtime))
       (mkInterpreterState (<["y" := cvm.DoubleValue 3%float]> ∅) []).
Proof.
  assert (HA : initializerAccepted cvm.DoubleType (cvm.IntValue 3))
    by (right; split; reflexivity).
  split; [repeat split; exact HA |].
  exact (proj1 (executeDeclaration_initializer (RT := Reference.runtime)
                  (evaluateExpression (RT := Reference.runtime) emptyInterpreter 1)
                  (mkDeclarationAST "y" cvm.DoubleType (Some (IntAST 3)) [])
                  (IntAST 3) (cvm.IntValue 3)
                  initialInterpreterState initialInterpreterState
                  eq_refl eq_refl eq_refl eq_refl) HA).
Defined.

(** ** User-defined infix operators (C3) *)

(** C3, as amended: a program that declares [infix 5 a <> b = a - b;] and
    then contains [10 <> 3 <> 1] parses: the operator is registered with
    precedence 5 and applied left to right at equal precedence, as
    (10 <> 3) <> 1.  Evaluating an application of a user-defined infix
    operator, and so running that program, ends with the fatal runtime error
    "unknown expression kind": the evaluator has no case for it. *)
Theorem infix_operator_parsed_but_not_evaluated {Factory : ASTFactory} {RT : Runtime} :
  (∀ extra, parse (12 + extra) (initialParserState tokens_infix_program) =
            Done tt parsed_infix_program) ∧
  (∀ This fuel Symbol LHS RHS st,
     evaluateExpression This (S fuel) (InfixOpExprAST Symbol LHS RHS) st =
     Raise (ExitFailure "unknown expression kind") st) ∧
  (∀ fuel st,
     interpret (makeInterpreter parsed_infix_program) (S (S fuel)) st =
     Raise (ExitFailure "unknown expression kind") st).
Proof.
  split; [| split; reflexivity].
  intros extra. apply parse_more_fuel; [vm_compute; reflexivity | discriminate].
Qed.

(** Evaluating [10 <> 3 <> 1] after that declaration never yields a value,
    6 or another. *)
Lemma infix_expression_never_evaluates :
  parse (Factory := PlainNodes 0) 12 (initialParserState tokens_infix_program) =
  Done tt (parsed_infix_program (Factory := PlainNodes 0)) ∧
  interpret (RT := Reference.runtime)
    (makeInterpreter (RT := Reference.runtime)
       (parsed_infix_program (Factory := PlainNodes 0)))
    2 initialInterpreterState =
  Raise (ExitFailure "unknown expression kind") initialInterpreterState ∧
  ¬ (∃ fuel V st',
       evaluateExpression (RT := Reference.runtime)
         (makeInterpreter (RT := Reference.runtime)
            (parsed_infix_program (Factory := PlainNodes 0)))
         fuel expr_10_3_1 initialInterpreterState = Done V st').
Proof.
  split; [vm_compute; reflexivity | split; [reflexivity |]].
  intros (fuel & V & st' & H).
  destruct fuel as [| fuel]; discriminate H.
Qed.

(** ** Redefinitions (C1) *)

Lemma emplace_existing {V} (k : string) (v old : V) (m : gmap string V) :
  emplace k v (<[k := old]> m) = (<[k := old]> m, false).
Proof. unfold emplace. rewrite lookup_insert_eq. reflexivity. Qed.

(** C1: a second definition of a function name or of an infix-operator
    symbol is accepted with a warning and without an error, but it does not
    replace the first one: [emplace] leaves a table that holds the key as
    it is, so the table of functions, the table of infix operators and the
    precedence table all keep the earlier definition, while the warning says
    that the new one overrides. *)
Theorem redefinition_keeps_first_definition {Factory : ASTFactory} :
  (∀ V (k : string) (v old : V) (m : gmap string V),
     emplace k v (<[k := old]> m) = (<[k := old]> m, false)) ∧
  (∀ extra, parsedAs (parse (12 + extra) (initialParserState tokens_f_defined_twice)) =
  Some ([(ErrorKind.Warning, "function `f' overrides another one")],
        [],
        [("f", mkFunctionDefinitionAST "f" cvm.IntType []
                 (Some (ReturnStatementAST (Some (IntAST 1)))))],
        [])) ∧
  (∀ extra, parsedAs (parse (12 + extra) (initialParserState tokens_infix_defined_twice)) =
  Some ([(ErrorKind.Warning, "infix operator <> overrides another")],
        [("<>", 5)],
        [],
        [("<>", mkInfixOpDefinitionAST "<>" "a" "b"
                  (Some (ExprStatementAST (IdentifierAST "a"))))])).
Proof.
  split; [intros V k v old m; apply emplace_existing |].
  split; intros extra.
  - rewrite (parse_more_fuel 12 extra _ _ eq_refl) by (vm_compute; discriminate).
    vm_compute. reflexivity.
  - rewrite (parse_more_fuel 12 extra _ _ eq_refl) by (vm_compute; discriminate).
    vm_compute. reflexivity.
Qed.

(** ** Assignment (C8) *)

(** C8: the special case for [=] at the head of [parseBinOpRHS] builds the
    assignment from whatever expression was parsed on the left and reports
    no error, so an [=] whose left side is not a plain identifier is accepted
    at parse time: [1 = 3;] parses to one expression statement.  When such a
    node is evaluated, its left side is used as an identifier node through an
    unchecked cast. *)
Theorem assignment_left_side_is_not_checked {Factory : ASTFactory} {RT : Runtime} :
  (∀ extra,
     parse (8 + extra) (initialParserState tokens_assign_to_literal) =
     Done tt (mkParserState [] [] ∅ ∅ ∅
                [Some (ExprStatementAST
                         (BinaryOperatorAST_create Token.Equal (IntAST 1) (IntAST 3)))])) ∧
  (∀ n ExprPrec Res s i d b toks errs precs funcs infixes top,
     parseBinOpRHS (S n) ExprPrec Res
       (mkParserState (mkLexeme Token.Equal s i d b :: toks)
          errs precs funcs infixes top) =
     (RHS ← parseExpression n;
      ret (BinaryOperatorAST_create Token.Equal Res RHS))
       (mkParserState toks errs precs funcs infixes top)) ∧
  (∀ This fuel Value RHS st,
     evaluateExpression This (S fuel)
       (BinaryOperatorAST BinaryOperator.Assign (IntAST Value) RHS) st =
     Raise InvalidDowncast st).
Proof.
  split; [| split; reflexivity].
  intros extra. apply parse_more_fuel; [vm_compute; reflexivity | discriminate].
Qed.

(** * Further properties of the parser *)

(** ** Sequencing *)

Section Post.
Context {S E : Type} (D : S → S → Prop) (R : E → S → S → Prop)
  (HDR : Sequential D R).

Lemma post_ret {A} (a : A) : post (E := E) D R (ret a).
Proof. intros s. apply (seq_refl _ _ HDR). Qed.

Lemma post_get : post (E := E) D R get.
Proof. intros s. apply (seq_refl _ _ HDR). Qed.

Lemma post_outOfFuel {A} : post (E := E) (A := A) D R outOfFuel.
Proof. intros s. exact I. Qed.

Lemma post_modify (f : S → S) : (∀ s, D s (f s)) → post (E := E) D R (modify f).
Proof. intros H s. apply H. Qed.

Lemma post_bind {A B} (m : M S E A) (k : A → M S E B) :
  post D R m → (∀ a, post D R (k a)) → post D R (bind m k).
Proof.
  intros Hm Hk s. unfold bind. specialize (Hm s).
  destruct (m s) as [a s1 | e s1 |]; [| exact Hm | exact I].
  specialize (Hk a s1).
  destruct (k a s1) as [b s2 | e s2 |]; [| | exact I].
  - apply (seq_trans _ _ HDR _ _ _ Hm Hk).
  - apply (seq_fail _ _ HDR _ _ _ _ Hm Hk).
Qed.

(** A sequence that starts by reading the state. *)
Lemma post_bind_get {B} (k : S → M S E B) :
  (∀ s, match k s s with
        | Done _ s' => D s s'
        | Raise e s' => R e s s'
        | OutOfFuel => True
        end) →
  post D R (bind get k).
Proof. intros H s. apply H. Qed.
End Post.

Ltac head_of t := lazymatch t with ?f _ => head_of f | _ => t end.

Ltac post_step :=
  match goal with
  | |- post _ _ (ret _) => apply post_ret; assumption
  | |- post _ _ get => apply post_get; assumption
  | |- post _ _ outOfFuel => apply post_outOfFuel
  | |- post _ _ (bind _ _) => apply post_bind; [assumption | | intros ?]
  | |- post _ _ (if ?b then _ else _) => destruct b
  | |- post _ _ (match ?x with _ => _ end) => destruct x
  | H : ?T |- post _ _ ?c =>
      let h := head_of c in
      lazymatch T with context [h] => simple apply H end
  end.
Ltac post_auto := repeat post_step.

Section ParserPost.
Context {Factory : ASTFactory}.
Variable D : ParserState → ParserState → Prop.
Variable R : ParserExit → ParserState → ParserState → Prop.
Hypothesis Steps : ParserSteps D R.

Let HSeq : Sequential D R := steps_seq D R Steps.
Let HLex := steps_Lex D R Steps.
Let HError := steps_Error D R Steps.
Let HWarning := steps_Warning D R Steps.
Let HWarningAt := steps_WarningAt D R Steps.
Let HAssert := steps_assert D R Steps.

Lemma post_getTok : post D R getTok.
Proof. intros s. apply (seq_refl _ _ HSeq). Qed.

Lemma post_getLoc : post D R getLoc.
Proof. intros s. apply (seq_refl _ _ HSeq). Qed.

Lemma post_getKind : post D R getKind.
Proof. intros s. apply (seq_refl _ _ HSeq). Qed.

Lemma post_getStrVal : post D R getStrVal.
Proof. intros s. apply (seq_refl _ _ HSeq). Qed.

Lemma post_getIntVal : post D R getIntVal.
Proof. intros s. apply (seq_refl _ _ HSeq). Qed.

Lemma post_Lexer_is K : post D R (Lexer_is K).
Proof. intros s. apply (seq_refl _ _ HSeq). Qed.

Lemma post_Lexer_isNot K : post D R (Lexer_isNot K).
Proof. intros s. apply (seq_refl _ _ HSeq). Qed.

Lemma post_getBinOpPrecedence : post D R getBinOpPrecedence.
Proof. intros s. apply (seq_refl _ _ HSeq). Qed.

Ltac parser_post :=
  pose proof post_getTok; pose proof post_getLoc; pose proof post_getKind;
  pose proof post_getStrVal; pose proof post_getIntVal; pose proof post_Lexer_is;
  pose proof post_Lexer_isNot; pose proof post_getBinOpPrecedence;
  pose proof HLex; pose proof HError; pose proof HWarning; pose proof HWarningAt;
  pose proof HAssert; pose proof HSeq;
  post_auto.

Lemma post_parseTypeSpecifier : post D R parseTypeSpecifier.
Proof. unfold parseTypeSpecifier. parser_post. Qed.

Lemma post_parseConstantExpression : post D R parseConstantExpression.
Proof.
  unfold parseConstantExpression.
  apply post_bind; [exact HSeq | apply post_getTok | intros Tok].
  parser_post.
Qed.

Lemma post_parseEmptyStatement : post D R parseEmptyStatement.
Proof. unfold parseEmptyStatement. parser_post. Qed.

Lemma post_parseBreakStatement : post D R parseBreakStatement.
Proof. unfold parseBreakStatement. parser_post. Qed.

Lemma post_parseContinueStatement : post D R parseContinueStatement.
Proof. unfold parseContinueStatement. parser_post. Qed.

Lemma post_parseExpression_knot : ∀ n, exprPost D R n.
Proof.
  pose proof post_parseConstantExpression as HC.
  induction n as [| n IH].
  - repeat split; intros; apply post_outOfFuel.
  - destruct IH as (H1 & H2 & H3 & H4 & H5 & H6 & H7 & H8 & H9).
    repeat split; intros; cbn -[bool_decide]; parser_post.
Qed.

Lemma post_parseExpression n : post D R (parseExpression n).
Proof. apply post_parseExpression_knot. Qed.

Lemma post_parseExprStatement n : post D R (parseExprStatement n).
Proof.
  pose proof (post_parseExpression n). unfold parseExprStatement. parser_post.
Qed.

Lemma post_parseReturnStatement n : post D R (parseReturnStatement n).
Proof.
  pose proof (post_parseExpression n). unfold parseReturnStatement. parser_post.
Qed.

Lemma post_parseCountExprList : ∀ n l, post D R (parseCountExprList n l).
Proof.
  induction n as [| n IH]; intros l; [apply post_outOfFuel |].
  pose proof (post_parseExpression n). cbn -[bool_decide]. parser_post.
Qed.

Lemma post_parseDeclarators : ∀ n T l, post D R (parseDeclarators n T l).
Proof.
  induction n as [| n IH]; intros T l; [apply post_outOfFuel |].
  pose proof (post_parseExpression n). pose proof (post_parseCountExprList n).
  cbn -[bool_decide]. parser_post.
Qed.

Lemma post_parseDeclarationStatement_typed n T :
  post D R (parseDeclarationStatement_typed n T).
Proof.
  pose proof (post_parseDeclarators n). unfold parseDeclarationStatement_typed.
  parser_post.
Qed.

Lemma post_parseDeclarationStatement n : post D R (parseDeclarationStatement n).
Proof.
  pose proof (post_parseDeclarationStatement_typed n).
  pose proof post_parseTypeSpecifier.
  unfold parseDeclarationStatement. parser_post.
Qed.

Lemma post_parseStatement_knot : ∀ n, stmtPost D R n.
Proof.
  pose proof post_parseEmptyStatement as HE.
  pose proof post_parseBreakStatement as HB.
  pose proof post_parseContinueStatement as HC.
  induction n as [| n IH].
  - repeat split; intros; apply post_outOfFuel.
  - destruct IH as (H1 & H2 & H3 & H4 & H5 & H6).
    pose proof (post_parseExpression n).
    pose proof (post_parseExprStatement n).
    pose proof (post_parseReturnStatement n).
    pose proof (post_parseDeclarationStatement n).
    repeat split; intros; cbn -[bool_decide]; parser_post.
Qed.

Lemma post_parseStatement n : post D R (parseStatement n).
Proof. apply post_parseStatement_knot. Qed.
End ParserPost.

Section Registering.
Variable D : ParserState → ParserState → Prop.
Variable R : ParserExit → ParserState → ParserState → Prop.
Hypothesis Steps : ParserSteps D R.
Hypothesis Writes : TableWrites D.

Let HSeq : Sequential D R := steps_seq D R Steps.

Lemma post_registerInfixOp Loc Symbol Precedence Def :
  post D R (registerInfixOp Loc Symbol Precedence Def).
Proof.
  apply post_bind_get. intros s.
  pose proof (writes_BinOpPrecedence D Writes Symbol (int8_t Precedence) s) as HP.
  destruct (emplace Symbol (int8_t Precedence) (BinOpPrecedence s))
    as [Precs Inserted].
  simpl in HP.
  assert (HT : post D R
    ((if Inserted then ret tt
      else WarningAt Loc ("infix operator " ++ Symbol ++ " overrides another"));;
     modify (λ st, set_InfixOpDefinition
                     (emplace Symbol Def (InfixOpDefinition st)).1 st))).
  { apply post_bind; [exact HSeq | | intros _].
    - destruct Inserted; [apply post_ret; exact HSeq |].
      apply (steps_WarningAt D R Steps).
    - apply post_modify. intros s'. apply (writes_InfixOpDefinition D Writes). }
  specialize (HT (set_BinOpPrecedence Precs s)).
  unfold bind at 1. unfold modify at 1. cbn beta iota.
  match type of HT with match ?c with _ => _ end => destruct c end; auto.
  - eapply (seq_trans _ _ HSeq); eassumption.
  - eapply (seq_fail _ _ HSeq); eassumption.
Qed.

Lemma post_registerFunction Loc Name FuncDef :
  post D R (registerFunction Loc Name FuncDef).
Proof.
  apply post_bind_get. intros s.
  pose proof (writes_FunctionDefinition D Writes Name FuncDef s) as HP.
  destruct (emplace Name FuncDef (FunctionDefinition s)) as [Funcs Inserted].
  simpl in HP.
  assert (HT : post D R
    (if Inserted then ret tt
     else WarningAt Loc ("function `" ++ Name ++ "' overrides another one"))).
  { destruct Inserted; [apply post_ret; exact HSeq |].
    apply (steps_WarningAt D R Steps). }
  specialize (HT (set_FunctionDefinition Funcs s)).
  unfold bind at 1. unfold modify at 1. cbn beta iota.
  match type of HT with match ?c with _ => _ end => destruct c end; auto.
  - eapply (seq_trans _ _ HSeq); eassumption.
  - eapply (seq_fail _ _ HSeq); eassumption.
Qed.
End Registering.

Section ParameterListPost.
Variable D : ParserState → ParserState → Prop.
Variable R : ParserExit → ParserState → ParserState → Prop.
Hypothesis Steps : ParserSteps D R.
Hypothesis Ignored : ∀ s s', R ReturnedTrue s s' → D s s'.

Let HSeq : Sequential D R := steps_seq D R Steps.

Lemma post_returned {A} (m : Parser A) : post D R m → post D R (returned m).
Proof.
  intros H s. specialize (H s). unfold returned.
  destruct (m s) as [a s' | [| Msg] s' |]; auto.
Qed.

Lemma post_parseParameterList_loop : ∀ n l, post D R (parseParameterList_loop n l).
Proof.
  induction n as [| n IH]; intros l; [apply post_outOfFuel |].
  pose proof (post_returned _ (post_parseTypeSpecifier D R Steps)).
  pose proof (post_getLoc D R Steps); pose proof (post_getStrVal D R Steps);
  pose proof (post_Lexer_is D R Steps); pose proof (post_Lexer_isNot D R Steps);
  pose proof (steps_Lex D R Steps); pose proof (steps_Warning D R Steps);
  pose proof HSeq.
  cbn -[bool_decide]. post_auto.
Qed.

Lemma post_parseParameterList n l : post D R (parseParameterList n l).
Proof.
  pose proof (post_parseParameterList_loop n).
  pose proof (post_Lexer_is D R Steps); pose proof (steps_Lex D R Steps);
  pose proof HSeq.
  unfold parseParameterList. post_auto.
Qed.
End ParameterListPost.

Section TopLevelPost.
Context {Factory : ASTFactory}.
Variable D : ParserState → ParserState → Prop.
Variable R : ParserExit → ParserState → ParserState → Prop.
Hypothesis Top : TopLevelSteps D R.

Let Steps : ParserSteps D R := top_steps D R Top.
Let HSeq : Sequential D R := steps_seq D R Steps.

Lemma post_addStatement x : post D R (addStatement x).
Proof. intros s. apply (top_addStatement D R Top). Qed.

Ltac toplevel_facts :=
  pose proof (post_getTok D R Steps); pose proof (post_getLoc D R Steps);
  pose proof (post_getKind D R Steps); pose proof (post_getStrVal D R Steps);
  pose proof (post_getIntVal D R Steps); pose proof (post_Lexer_is D R Steps);
  pose proof (post_Lexer_isNot D R Steps);
  pose proof (steps_Lex D R Steps); pose proof (steps_Error D R Steps);
  pose proof (steps_Warning D R Steps); pose proof (steps_WarningAt D R Steps);
  pose proof (steps_assert D R Steps);
  pose proof post_addStatement;
  pose proof HSeq.
Ltac toplevel_post := toplevel_facts; post_auto.

Lemma post_parseInfixOpDefinition n : post D R (parseInfixOpDefinition n).
Proof.
  pose proof (post_parseStatement D R Steps n).
  pose proof (post_parseExprStatement D R Steps n).
  unfold parseInfixOpDefinition. toplevel_facts.
  repeat first
    [ match goal with
      | |- post _ _ (bind get _) => apply (top_registerInfixOp D R Top)
      end
    | post_step ].
Qed.

Lemma post_parseFunctionDefinition_named n T Name :
  post D R (parseFunctionDefinition_named n T Name).
Proof.
  pose proof (post_parseStatement D R Steps n).
  pose proof (post_parseParameterList D R Steps (top_ignored D R Top) n).
  unfold parseFunctionDefinition_named. toplevel_facts.
  repeat first
    [ match goal with
      | |- post _ _ (bind get _) => apply (top_registerFunction D R Top)
      | |- post _ _ (bind _ (λ '(_, _), _)) =>
          apply post_bind; [exact HSeq | | intros [? ?]]
      end
    | post_step ].
Qed.

Lemma post_parseFunctionDefinition n : post D R (parseFunctionDefinition n).
Proof.
  pose proof (post_parseFunctionDefinition_named n).
  pose proof (post_parseTypeSpecifier D R Steps).
  unfold parseFunctionDefinition. toplevel_post.
Qed.

(** Between [getLoc] and [seekLoc] the lexer only moves one token ahead,
    so whichever way the lookahead goes, the rest runs from a state the
    lexer has read forward to. *)
Lemma post_parseTopLevel_lookahead n T :
  post D R
    (Loc ← getLoc;
     b ← Lexer_isNot Token.Identifier;
     if b then Error "expect identifier after type"
     else
       Name ← getStrVal;
       Lex;;
       p ← Lexer_is Token.LParen;
       if p then parseFunctionDefinition_named n T Name
       else
         seekLoc_Lex Loc;;
         DeclStatement ← parseDeclarationStatement_typed n T;
         addStatement DeclStatement).
Proof.
  intros s.
  destruct s as [inp errs precs funcs infixes top].
  unfold bind at 1. unfold getLoc at 1. cbn [Input].
  unfold bind at 1. unfold Lexer_isNot, Lexer_is, getTok, bind at 1, ret at 1.
  cbn [Input]. unfold bind at 1, ret at 1. cbn -[bool_decide].
  destruct (bool_decide (Kind (hd (punct Token.Eof) inp) = Token.Identifier)) eqn:EId;
    cbn -[bool_decide].
  2: { apply (steps_Error D R Steps (option StatementAST) _
                (mkParserState inp errs precs funcs infixes top)). }
  destruct (bool_decide (Kind (hd (punct Token.Eof) (tl inp)) = Token.LParen)) eqn:EP;
    cbn -[bool_decide].
  - assert (H : post D R
      (Lex;; parseFunctionDefinition_named n T (StrVal (hd (punct Token.Eof) inp)))).
    { apply post_bind; [exact HSeq | apply (steps_Lex D R Steps) | intros _].
      apply post_parseFunctionDefinition_named. }
    exact (H (mkParserState inp errs precs funcs infixes top)).
  - assert (H : post D R
      (DeclStatement ← parseDeclarationStatement_typed n T;
       addStatement DeclStatement)).
    { apply post_bind; [exact HSeq | | intros ?].
      - apply (post_parseDeclarationStatement_typed D R Steps).
      - apply post_addStatement. }
    exact (H (mkParserState inp errs precs funcs infixes top)).
Qed.

Lemma post_parseTopLevel n : post D R (parseTopLevel n).
Proof.
  pose proof (post_parseFunctionDefinition n).
  pose proof (post_parseInfixOpDefinition n).
  pose proof (post_parseTypeSpecifier D R Steps).
  pose proof (post_parseStatement D R Steps n).
  unfold parseTopLevel. toplevel_facts.
  repeat first
    [ match goal with
      | |- post _ _ (bind getLoc _) => apply post_parseTopLevel_lookahead
      end
    | post_step ].
Qed.

Lemma post_parse : ∀ n, post D R (parse n).
Proof.
  induction n as [| n IH]; [apply post_outOfFuel |].
  pose proof (post_parseTopLevel n).
  cbn -[bool_decide]. toplevel_post.
Qed.
End TopLevelPost.

Lemma emplace_subseteq {V} (k : string) (v : V) (m : gmap string V) :
  m ⊆ (emplace k v m).1.
Proof.
  unfold emplace. destruct (m !! k) eqn:E; simpl; [reflexivity |].
  apply insert_subseteq. exact E.
Qed.

(** An assert looks at the current token and changes nothing. *)
Lemma post_assert_Lexer_is (D : ParserState → ParserState → Prop)
    (R : ParserExit → ParserState → ParserState → Prop) K Msg :
  (∀ s, D s s) → (∀ s, R (AssertionFailed Msg) s s) →
  post D R (assert_Lexer_is K Msg).
Proof.
  intros HD HR s. unfold assert_Lexer_is, Lexer_is, getTok, bind, ret, raise.
  destruct (bool_decide (Kind (hd (punct Token.Eof) (Input s)) = K));
    [apply HD | apply HR].
Qed.

Lemma keepsRecords_steps : ParserSteps keepsRecords (atExit keepsRecords).
Proof.
  assert (Hrefl : ∀ s, keepsRecords s s) by (intros s; repeat split; reflexivity).
  split; [split |..].
  - exact Hrefl.
  - intros s1 s2 s3 (A1 & A2 & A3 & A4 & A5) (B1 & B2 & B3 & B4 & B5).
    repeat split; etrans; eassumption.
  - intros e s1 s2 s3 (A1 & A2 & A3 & A4 & A5) (B1 & B2 & B3 & B4 & B5).
    repeat split; etrans; eassumption.
  - intros s. repeat split; reflexivity.
  - intros A Msg s. repeat split; try reflexivity. apply prefix_app_r. reflexivity.
  - intros Msg s. repeat split; try reflexivity. apply prefix_app_r. reflexivity.
  - intros Loc Msg s. repeat split; try reflexivity. apply prefix_app_r. reflexivity.
  - intros K Msg. apply post_assert_Lexer_is; exact Hrefl.
Qed.

Lemma keepsRecords_writes : TableWrites keepsRecords.
Proof.
  split; intros k v s; repeat split; try reflexivity; apply emplace_subseteq.
Qed.

Lemma keepsRecords_top : TopLevelSteps keepsRecords (atExit keepsRecords).
Proof.
  split.
  - exact keepsRecords_steps.
  - auto.
  - intros. apply post_registerInfixOp;
      [exact keepsRecords_steps | exact keepsRecords_writes].
  - intros. apply post_registerFunction;
      [exact keepsRecords_steps | exact keepsRecords_writes].
  - intros x s. repeat split; try reflexivity. apply prefix_app_r. reflexivity.
Qed.

Lemma sameTables_steps : ParserSteps sameTables (atExit sameTables).
Proof.
  split; [split |..].
  - intros s. repeat split.
  - intros s1 s2 s3 (A1 & A2 & A3 & A4) (B1 & B2 & B3 & B4).
    repeat split; etrans; eassumption.
  - intros e s1 s2 s3 (A1 & A2 & A3 & A4) (B1 & B2 & B3 & B4).
    repeat split; etrans; eassumption.
  - intros s. repeat split.
  - intros A Msg s. repeat split.
  - intros Msg s. repeat split.
  - intros Loc Msg s. repeat split.
  - intros K Msg. apply post_assert_Lexer_is; intros s; repeat split.
Qed.

Lemma warned_same s s' : ErrorList s' = ErrorList s → warned s s'.
Proof.
  intros E. exists []. split; [rewrite E; symmetry; apply app_nil_r | constructor].
Qed.

Lemma warned_one s s' d :
  ErrorList s' = (ErrorList s ++ [d])%list → isWarning d → warned s s'.
Proof. intros E W. exists [d]. split; [exact E | repeat constructor; exact W]. Qed.

Lemma diagnostics_steps : ParserSteps warned (onReturn failed).
Proof.
  split; [split |..].
  - intros s. apply warned_same. reflexivity.
  - intros s1 s2 s3 (w1 & E1 & W1) (w2 & E2 & W2).
    exists (w1 ++ w2)%list. split.
    + rewrite E2, E1, <- app_assoc. reflexivity.
    + apply Forall_app. split; assumption.
  - intros [| Msg] s1 s2 s3 (w1 & E1 & W1); [| intros _; exact I].
    intros (w2 & e & E2 & W2 & He).
    exists (w1 ++ w2)%list, e. split; [| split].
    + rewrite E2, E1, <- !app_assoc. reflexivity.
    + apply Forall_app. split; assumption.
    + exact He.
  - intros s. apply warned_same. reflexivity.
  - intros A Msg s. exists [], (mkDiagnostic (Input s) ErrorKind.Error Msg).
    split; [reflexivity | split; [constructor | reflexivity]].
  - intros Msg s. eapply warned_one; reflexivity.
  - intros Loc Msg s. eapply warned_one; reflexivity.
  - intros K Msg. apply post_assert_Lexer_is; intros s; [| exact I].
    apply warned_same. reflexivity.
Qed.

Lemma endsWithError_steps : ParserSteps (λ _ _, True) (onReturn endsWithError).
Proof.
  split; [split |..].
  - intros s. exact I.
  - intros s1 s2 s3 _ _. exact I.
  - intros [| Msg] s1 s2 s3 _ H; exact H.
  - intros s. exact I.
  - intros A Msg s. exists (ErrorList s), (mkDiagnostic (Input s) ErrorKind.Error Msg).
    split; reflexivity.
  - intros Msg s. exact I.
  - intros Loc Msg s. exact I.
  - intros K Msg. apply post_assert_Lexer_is; intros s; exact I.
Qed.

Lemma endsWithError_top : TopLevelSteps (λ _ _, True) (onReturn endsWithError).
Proof.
  split; auto.
  - exact endsWithError_steps.
  - intros. apply post_registerInfixOp; [exact endsWithError_steps | split; auto].
  - intros. apply post_registerFunction; [exact endsWithError_steps | split; auto].
Qed.

Lemma consumed_steps : ParserSteps consumed (atExit consumed).
Proof.
  split; [split |..]; unfold atExit, consumed.
  - intros s. reflexivity.
  - intros s1 s2 s3 A B. etrans; eassumption.
  - intros e s1 s2 s3 A B. etrans; eassumption.
  - intros s. cbn. destruct (Input s) as [| T l]; cbn; [done |].
    apply suffix_cons_r. done.
  - intros A Msg s. cbn. done.
  - intros Msg s. cbn. done.
  - intros Loc Msg s. cbn. done.
  - intros K Msg. apply post_assert_Lexer_is; intros s; reflexivity.
Qed.

Lemma consumed_top : TopLevelSteps consumed (atExit consumed).
Proof.
  assert (W : TableWrites consumed) by (split; intros; unfold consumed; cbn; done).
  split; auto.
  - exact consumed_steps.
  - intros. apply post_registerInfixOp; [exact consumed_steps | exact W].
  - intros. apply post_registerFunction; [exact consumed_steps | exact W].
  - intros; unfold consumed; cbn; done.
Qed.

Lemma int8_t_range z : -128 ≤ int8_t z ≤ 127.
Proof. unfold int8_t. pose proof (Z.mod_pos_bound (z + 128) 256). lia. Qed.

Lemma keepsWellFormed_steps : ParserSteps keepsWellFormed (atExit keepsWellFormed).
Proof.
  split; [split |..]; unfold atExit, keepsWellFormed; auto.
  - intros s. cbn. auto.
  - intros A Msg s. cbn. auto.
  - intros Msg s. cbn. auto.
  - intros Loc Msg s. cbn. auto.
  - intros K Msg. apply post_assert_Lexer_is; auto.
Qed.

Lemma keepsWellFormed_top : TopLevelSteps keepsWellFormed (atExit keepsWellFormed).
Proof.
  split.
  - exact keepsWellFormed_steps.
  - auto.
  - intros Loc Symbol Precedence LHS RHS Statement s.
    destruct s as [inp errs precs funcs infixes top].
    unfold registerInfixOp, bind, get, modify, WarningAt, ret, emplace.
    cbn [BinOpPrecedence InfixOpDefinition].
    destruct (precs !! Symbol) as [p |] eqn:EP; cbn; rewrite ?EP;
      destruct (infixes !! Symbol) as [d |] eqn:EI; cbn;
      intros (HF & HI & HD & HP); cbn in HF, HI, HD, HP.
    + split; [| split; [| split]]; cbn; assumption.
    + exfalso. destruct (proj1 (HD Symbol)) as [x Hx]; [eauto | congruence].
    + exfalso. destruct (proj2 (HD Symbol)) as [x Hx]; [eauto | congruence].
    + split; [| split; [| split]]; cbn.
      * assumption.
      * intros k d. destruct (decide (k = Symbol)) as [-> |].
        -- rewrite lookup_insert_eq. intros [= <-]. reflexivity.
        -- rewrite lookup_insert_ne by congruence. apply HI.
      * intros k. destruct (decide (k = Symbol)) as [-> |].
        -- rewrite !lookup_insert_eq. split; eauto.
        -- rewrite !lookup_insert_ne by congruence. apply HD.
      * intros k p. destruct (decide (k = Symbol)) as [-> |].
        -- rewrite lookup_insert_eq. intros [= <-]. apply int8_t_range.
        -- rewrite lookup_insert_ne by congruence. apply HP.
  - intros Loc Name RetType Params Statement s.
    destruct s as [inp errs precs funcs infixes top].
    unfold registerFunction, bind, get, modify, WarningAt, ret, emplace.
    cbn [FunctionDefinition].
    destruct (funcs !! Name) as [d |] eqn:EF; cbn;
      intros (HF & HI & HD & HP); cbn in HF, HI, HD, HP.
    + split; [| split; [| split]]; cbn; assumption.
    + split; [| split; [| split]]; cbn; try assumption.
      intros k d. destruct (decide (k = Name)) as [-> |].
      * rewrite lookup_insert_eq. intros [= <-]. reflexivity.
      * rewrite lookup_insert_ne by congruence. apply HF.
  - intros x s. unfold keepsWellFormed. cbn. auto.
Qed.

(** ** Asserts *)

(** The part of a nest of sequenced calls that runs first. *)
Ltac stuck t :=
  lazymatch t with
  | match ?c with Done _ _ => _ | Raise _ _ => _ | OutOfFuel => _ end => stuck c
  | if ?b then _ else _ => stuck b
  | (if ?b then _ else _) _ => stuck b
  | match ?x with _ => _ end => stuck x
  | (match ?x with _ => _ end) _ => stuck x
  | negb ?b => stuck b
  | _ => t
  end.

Ltac noabort_side :=
  unfold currentIs in *; cbn [Input set_Input] in *;
  first
    [ assumption
    | match goal with
      | H : bool_decide _ = true |- _ => apply bool_decide_eq_true_1 in H; exact H
      end
    | congruence ].

(** Use what is known of the call that runs first, then go on in each of
    its outcomes. *)
Ltac noabort_call P c :=
  lazymatch c with
  | ?m ?s1 =>
      let h := head_of m in
      let H := fresh "Hcall" in
      first
        [ assert (H : neverAborts m s1)
            by (match goal with
                | IH : ?T |- _ =>
                    lazymatch T with
                    | context [h] =>
                        lazymatch T with
                        | context [neverAborts] => simple apply IH; noabort_side
                        end
                    end
                end);
          unfold neverAborts, abortsOnlyWhere in H;
          destruct c as [? ? | [| ?] ? |]; [| | destruct H |]
        | assert (H : abortsOnlyWhere P m s1)
            by (match goal with
                | IH : ?T |- _ =>
                    lazymatch T with
                    | context [h] => simple apply IH
                    end
                end);
          unfold abortsOnlyWhere in H;
          destruct c as [? ? | [| ?] ? |]; [| | exact H |] ]
  end.

Ltac noabort_step P :=
  cbn -[bool_decide Z.ltb];
  cbv delta [assert_Lexer_is getBinOpPrecedence Lexer_isNot Lexer_is getKind
    getStrVal getIntVal getLoc getTok Lex seekLoc_Lex Error Warning WarningAt
    addStatement returned modify get raise bind ret];
  cbn -[bool_decide Z.ltb];
  lazymatch goal with
  | |- True => exact I
  | |- False =>
      match goal with
      | H : bool_decide _ = false |- _ =>
          apply bool_decide_eq_false_1 in H; apply H; noabort_side
      end
  | |- _ = _ ∧ ¬ _ =>
      split; [reflexivity |];
      match goal with
      | H : bool_decide _ = false |- _ =>
          apply bool_decide_eq_false_1 in H; exact H
      end
  | |- ?g =>
      let c := stuck g in
      lazymatch type of c with
      | Outcome _ _ _ => noabort_call P c
      | _ => destruct c eqn:?
      end
  end.

Ltac noabort P := unfold neverAborts, abortsOnlyWhere; repeat noabort_step P.

Section ParserAsserts.
Context {Factory : ASTFactory}.

#[local] Arguments parseTypeSpecifier : simpl never.
#[local] Arguments parseConstantExpression : simpl never.
#[local] Arguments parseEmptyStatement : simpl never.
#[local] Arguments parseBreakStatement : simpl never.
#[local] Arguments parseContinueStatement : simpl never.
#[local] Arguments parseExprStatement : simpl never.
#[local] Arguments parseReturnStatement : simpl never.
#[local] Arguments parseDeclarationStatement_typed : simpl never.
#[local] Arguments parseDeclarationStatement : simpl never.
#[local] Arguments parseParameterList : simpl never.
#[local] Arguments parseInfixOpDefinition : simpl never.
#[local] Arguments parseFunctionDefinition_named : simpl never.
#[local] Arguments parseFunctionDefinition : simpl never.
#[local] Arguments parseTopLevel : simpl never.

Let never : string → ParserState → Prop := λ _ _, False.

Lemma parseConstantExpression_guarded s : neverAborts parseConstantExpression s.
Proof. unfold parseConstantExpression. noabort never. Qed.

Lemma parseTypeSpecifier_guarded s : neverAborts parseTypeSpecifier s.
Proof. unfold parseTypeSpecifier. noabort never. Qed.

Lemma parseExpression_guarded_knot : ∀ n, exprGuarded n.
Proof.
  pose proof parseConstantExpression_guarded as HC.
  induction n as [| n IH].
  - repeat split; intros; exact I.
  - destruct IH as (H1 & H2 & H3 & H4 & H5 & H6 & H7 & H8 & H9).
    repeat split; intros; noabort never.
Qed.

Lemma parseExpression_guarded n s : neverAborts (parseExpression n) s.
Proof. apply parseExpression_guarded_knot. Qed.

Lemma parseEmptyStatement_guarded s : neverAborts parseEmptyStatement s.
Proof. unfold parseEmptyStatement. noabort never. Qed.

Lemma parseBreakStatement_guarded s :
  currentIs Token.Kw_break s → neverAborts parseBreakStatement s.
Proof. intros H. unfold parseBreakStatement. noabort never. Qed.

Lemma parseContinueStatement_guarded s :
  currentIs Token.Kw_continue s → neverAborts parseContinueStatement s.
Proof. intros H. unfold parseContinueStatement. noabort never. Qed.

Lemma parseExprStatement_guarded n s : neverAborts (parseExprStatement n) s.
Proof.
  pose proof (parseExpression_guarded n) as HE.
  unfold parseExprStatement. noabort never.
Qed.

Lemma parseReturnStatement_guarded n s :
  currentIs Token.Kw_return s → neverAborts (parseReturnStatement n) s.
Proof.
  intros H. pose proof (parseExpression_guarded n) as HE.
  unfold parseReturnStatement. noabort never.
Qed.

Lemma parseCountExprList_guarded : ∀ n l s, neverAborts (parseCountExprList n l) s.
Proof.
  induction n as [| n IH]; intros l s; [exact I |].
  pose proof (parseExpression_guarded n) as HE.
  noabort never.
Qed.

Lemma parseDeclarators_guarded : ∀ n T l s, neverAborts (parseDeclarators n T l) s.
Proof.
  induction n as [| n IH]; intros T l s; [exact I |].
  pose proof (parseExpression_guarded n) as HE.
  pose proof (parseCountExprList_guarded n) as HL.
  noabort never.
Qed.

Lemma parseDeclarationStatement_typed_guarded n T s :
  neverAborts (parseDeclarationStatement_typed n T) s.
Proof.
  pose proof (parseDeclarators_guarded n) as HD.
  unfold parseDeclarationStatement_typed. noabort never.
Qed.

Lemma parseDeclarationStatement_guarded n s :
  neverAborts (parseDeclarationStatement n) s.
Proof.
  pose proof (parseDeclarationStatement_typed_guarded n) as HD.
  pose proof parseTypeSpecifier_guarded as HT.
  unfold parseDeclarationStatement. noabort never.
Qed.

Lemma parseStatement_guarded_knot : ∀ n, stmtGuarded n.
Proof.
  pose proof parseEmptyStatement_guarded as HE.
  pose proof parseBreakStatement_guarded as HB.
  pose proof parseContinueStatement_guarded as HC.
  induction n as [| n IH].
  - repeat split; intros; exact I.
  - destruct IH as (H1 & H2 & H3 & H4 & H5 & H6).
    pose proof (parseExpression_guarded n) as HX.
    pose proof (parseExprStatement_guarded n) as HXS.
    pose proof (parseReturnStatement_guarded n) as HR.
    pose proof (parseDeclarationStatement_guarded n) as HD.
    repeat split; intros; noabort never.
Qed.

Lemma parseStatement_guarded n s : neverAborts (parseStatement n) s.
Proof. apply parseStatement_guarded_knot. Qed.

Lemma parseParameterList_loop_guarded : ∀ n l s,
  neverAborts (parseParameterList_loop n l) s.
Proof.
  induction n as [| n IH]; intros l s; [exact I |].
  pose proof parseTypeSpecifier_guarded as HT.
  noabort never.
Qed.

Lemma parseParameterList_guarded n l s : neverAborts (parseParameterList n l) s.
Proof.
  pose proof (parseParameterList_loop_guarded n) as HL.
  unfold parseParameterList. noabort never.
Qed.

Lemma parseInfixOpDefinition_guarded n s :
  currentIs Token.Kw_infix s → neverAborts (parseInfixOpDefinition n) s.
Proof.
  intros H.
  pose proof (parseStatement_guarded n) as HS.
  pose proof (parseExprStatement_guarded n) as HXS.
  unfold parseInfixOpDefinition. noabort never.
Qed.

Lemma parseFunctionDefinition_named_guarded n T Name s :
  currentIs Token.LParen s →
  neverAborts (parseFunctionDefinition_named n T Name) s.
Proof.
  intros H.
  pose proof (parseStatement_guarded n) as HS.
  pose proof (parseParameterList_guarded n) as HP.
  unfold parseFunctionDefinition_named. noabort never.
Qed.

(** Entered on any other token, [parseFunctionDefinition(RetType, Name)]
    stops at its assert. *)
Lemma parseFunctionDefinition_named_aborts n T Name s :
  abortsOnlyWhere functionDefinitionAssert (parseFunctionDefinition_named n T Name) s.
Proof.
  pose proof (parseStatement_guarded n) as HS.
  pose proof (parseParameterList_guarded n) as HP.
  unfold parseFunctionDefinition_named, functionDefinitionAssert.
  noabort functionDefinitionAssert.
Qed.

Lemma parseFunctionDefinition_aborts n s :
  abortsOnlyWhere functionDefinitionAssert (parseFunctionDefinition n) s.
Proof.
  pose proof (parseFunctionDefinition_named_aborts n) as HF.
  pose proof parseTypeSpecifier_guarded as HT.
  unfold parseFunctionDefinition. noabort functionDefinitionAssert.
Qed.

Lemma parseTopLevel_aborts n s :
  abortsOnlyWhere functionDefinitionAssert (parseTopLevel n) s.
Proof.
  pose proof (parseFunctionDefinition_aborts n) as HF.
  pose proof (parseFunctionDefinition_named_guarded n) as HN.
  pose proof (parseInfixOpDefinition_guarded n) as HI.
  pose proof parseTypeSpecifier_guarded as HT.
  pose proof (parseStatement_guarded n) as HS.
  pose proof (parseDeclarationStatement_typed_guarded n) as HD.
  unfold parseTopLevel. noabort functionDefinitionAssert.
Qed.

Lemma parse_aborts : ∀ n s, abortsOnlyWhere functionDefinitionAssert (parse n) s.
Proof.
  induction n as [| n IH]; intros s; [exact I |].
  pose proof (parseTopLevel_aborts n) as HT.
  noabort functionDefinitionAssert.
Qed.

End ParserAsserts.

Section ParserInvariants.
Context {Factory : ASTFactory}.

(** X1: whatever [parse] does, with any fuel and from any state, and
    whether it returns false, returns true or is stopped by an assert, it
    only adds to what is recorded: the
    diagnostics and the top-level statements there were are a prefix of the
    ones there are, and every entry of the precedence table, of the table of
    functions and of the table of infix operators is still there with the
    same content.  Nothing that was registered is removed or replaced by
    what is parsed later. *)
Theorem parse_keeps_records fuel st :
  match parse fuel st with
  | Done _ st' | Raise _ st' => keepsRecords st st'
  | OutOfFuel => True
  end.
Proof.
  pose proof (post_parse _ _ keepsRecords_top fuel st) as H.
  destruct (parse fuel st); exact H.
Qed.

(** X2: parsing a statement, successfully or not, leaves the precedence
    table, the table of functions, the table of infix operators and the
    top-level statement list exactly as they were: definitions are made at
    top level only, and no statement or expression registers anything. *)
Theorem parseStatement_sameTables fuel st :
  match parseStatement fuel st with
  | Done _ st' | Raise _ st' => sameTables st st'
  | OutOfFuel => True
  end.
Proof.
  pose proof (post_parseStatement _ _ sameTables_steps fuel st) as H.
  destruct (parseStatement fuel st); exact H.
Qed.

(** X3: a statement that parses reports warnings only; a statement that
    fails to parse reports warnings, then exactly one error, and nothing
    after it.  So the failure signal of [parseStatement] and an error in the
    diagnostics go together, and parsing stops at the first error.  There is
    no other way out of [parseStatement]: no assert fails in it. *)
Theorem parseStatement_diagnostics fuel st :
  match parseStatement fuel st with
  | Done _ st' => warned st st'
  | Raise _ st' => failed st st'
  | OutOfFuel => True
  end.
Proof.
  pose proof (post_parseStatement _ _ diagnostics_steps fuel st) as H.
  pose proof (parseStatement_guarded fuel st) as HA.
  unfold neverAborts, abortsOnlyWhere in HA.
  destruct (parseStatement fuel st) as [a s' | [| Msg] s' |];
    [exact H | exact H | destruct HA | exact I].
Qed.

(** X4: when [parse] returns true, the last diagnostic is an error: the
    failure signal never comes without a report.  (Where the assert of
    [parseFunctionDefinition] stops the run, nothing has been reported for
    it.) *)
Theorem parse_failure_ends_with_error fuel st :
  match parse fuel st with
  | Raise ReturnedTrue st' => endsWithError st st'
  | _ => True
  end.
Proof.
  pose proof (post_parse _ _ endsWithError_top fuel st) as H.
  destruct (parse fuel st) as [a s' | [| Msg] s' |]; auto.
Qed.

(** X5: the tokens [parse] leaves, when it returns and when an assert
    stops it, are an end piece of the tokens it was given.  The lexer is only read forward; the one rewind, of
    [parseTopLevel] after it has looked past the identifier of a declaration,
    goes back to a place behind the type specifier already taken. *)
Theorem parse_consumed fuel st :
  match parse fuel st with
  | Done _ st' | Raise _ st' => consumed st st'
  | OutOfFuel => True
  end.
Proof.
  pose proof (post_parse _ _ consumed_top fuel st) as H.
  destruct (parse fuel st); exact H.
Qed.

(** X6: after [parse] of any token list, however it ends, every
    function is filed under its own name, every infix operator under its own
    symbol, the symbols that have a precedence are exactly the ones that have
    a definition, and every precedence is in the range of a signed byte. *)
Theorem parse_tables_well_formed fuel tokens :
  match parse fuel (initialParserState tokens) with
  | Done _ st' | Raise _ st' => tablesWellFormed st'
  | OutOfFuel => True
  end.
Proof.
  pose proof (post_parse _ _ keepsWellFormed_top fuel (initialParserState tokens)) as H.
  assert (H0 : tablesWellFormed (initialParserState tokens)).
  { split; [| split; [| split]]; cbn; intros k; rewrite ?lookup_empty;
      try congruence.
    split; intros [x Hx]; congruence. }
  destruct (parse fuel (initialParserState tokens)); auto.
Qed.
End ParserInvariants.

Section TopLevelFacts.
Context {Factory : ASTFactory}.

(** X7: at top level, a type keyword other than [void] followed by an
    identifier that is not followed by a left parenthesis is a declaration:
    [parseTopLevel] looks one token past the identifier, rewinds, and from
    there does exactly what [parseStatement] does on the same tokens, then
    appends the statement to the top-level list. *)
Theorem parseTopLevel_declaration fuel (T Id : Lexeme) (rest : list Lexeme)
    (st : ParserState) :
  Input st = T :: Id :: rest →
  In (Kind T) [Token.Kw_int; Token.Kw_bool; Token.Kw_double; Token.Kw_string] →
  Kind Id = Token.Identifier →
  Kind (hd (punct Token.Eof) rest) ≠ Token.LParen →
  parseTopLevel fuel st =
  (Statement ← parseStatement (S fuel); addStatement Statement) st.
Proof.
  intros HI HT HId HP.
  destruct st as [inp errs precs funcs infixes top]. simpl in HI. subst inp.
  destruct T as [k s i d b], Id as [k' s' i' d' b']. simpl in HT, HId. subst k'.
  unfold parseTopLevel, bind, getKind, getTok, ret.
  simpl in HT.
  destruct HT as [<- | [<- | [<- | [<- | []]]]];
    cbn -[bool_decide parseDeclarationStatement_typed];
    rewrite bool_decide_eq_true_2 by reflexivity;
    cbn -[bool_decide parseDeclarationStatement_typed];
    rewrite (bool_decide_eq_false_2 _ HP); reflexivity.
Qed.

(** X8: an infix symbol that has no precedence registered, or one
    registered with a precedence below 1, is not an operator: after an
    operand the expression ends in front of it, and an expression statement
    fails there with the error [missing semicolon in statement], located at
    the symbol. *)
Theorem undefined_infix_symbol_ends_expression fuel (T Sym : Lexeme)
    (rest : list Lexeme) (st : ParserState) :
  Input st = T :: Sym :: rest →
  isOperand T = true →
  Kind Sym = Token.InfixOp →
  (∀ p, BinOpPrecedence st !! StrVal Sym = Some p → p < 1) →
  (3 ≤ fuel)%nat →
  parseExpression fuel st = Done (operandExpr T) (set_Input (Sym :: rest) st) ∧
  parseExprStatement fuel st =
  Raise ReturnedTrue
    (SourceManager_Error (Sym :: rest) "missing semicolon in statement"
       (set_Input (Sym :: rest) st)).
Proof.
  intros HI HT HS HP Hfuel.
  destruct st as [inp errs precs funcs infixes top]. simpl in HI, HP. subst inp.
  assert (HE : endsExpression precs (Sym :: rest)).
  { destruct Sym as [k s i d b]. simpl in HS, HP. subst k.
    unfold endsExpression. simpl.
    split; [| split; [| split]]; try discriminate.
    unfold tokenPrecedence. cbn.
    destruct (precs !! s) as [p |] eqn:E; [apply HP; reflexivity | lia]. }
  assert (HX : parseExpression fuel
                 (mkParserState (T :: Sym :: rest) errs precs funcs infixes top) =
               Done (operandExpr T)
                    (mkParserState (Sym :: rest) errs precs funcs infixes top)).
  { apply (parseExpression_spec errs precs funcs infixes top 0 []
             (simpleOperand T) (Sym :: rest) fuel); auto.
    - apply readsOperand_simple, HT.
    - constructor. }
  split; [exact HX |].
  unfold parseExprStatement, bind. rewrite HX.
  destruct Sym as [k s i d b]. simpl in HS. subst k. reflexivity.
Qed.

(** An assert on another token than the current one fails. *)
Lemma assert_Lexer_is_fails K Msg s :
  Kind (hd (punct Token.Eof) (Input s)) ≠ K →
  assert_Lexer_is K Msg s = Raise (AssertionFailed Msg) s.
Proof.
  intros H. unfold assert_Lexer_is, Lexer_is, getTok, bind, ret, raise.
  rewrite bool_decide_eq_false_2 by exact H. reflexivity.
Qed.

Lemma parseInfixOpDefinition_header fuel (Kw LHS Sym RHS : Lexeme)
    (Header rest : list Lexeme) (Precedence : Z) errs precs funcs infixes top :
  Kind Kw = Token.Kw_infix →
  (Header = [] ∧ Precedence = DefaultPrecedence) ∨
  (∃ P, Header = [P] ∧ Kind P = Token.Integer ∧ Precedence = IntVal P) →
  Kind LHS = Token.Identifier →
  Kind Sym = Token.InfixOp →
  Kind RHS = Token.Identifier →
  parseInfixOpDefinition fuel
    (mkParserState (Kw :: Header ++ LHS :: Sym :: RHS :: rest)
       errs precs funcs infixes top) =
  (Statement ← (e ← Lexer_is Token.Equal;
                if e then Lex;; parseExprStatement fuel else parseStatement fuel);
   registerInfixOp (Kw :: Header ++ LHS :: Sym :: RHS :: rest) (StrVal Sym)
     Precedence
     (mkInfixOpDefinitionAST (StrVal Sym) (StrVal LHS) (StrVal RHS) Statement))
    (mkParserState rest errs precs funcs infixes top).
Proof.
  intros HK HH HL HS HR.
  destruct Kw as [k0 s0 i0 d0 b0].
  destruct LHS as [k1 s1 i1 d1 b1], Sym as [k2 s2 i2 d2 b2], RHS as [k3 s3 i3 d3 b3].
  simpl in HK, HL, HS, HR. subst k0 k1 k2 k3.
  destruct HH as [[-> ->] | (P & -> & HP & ->)].
  - reflexivity.
  - destruct P as [k s i d b]. simpl in HP. subst k. reflexivity.
Qed.

Lemma bind_Done {S E A B} (m : M S E A) (k : A → M S E B) s b s' :
  bind m k s = Done b s' → ∃ a s1, m s = Done a s1 ∧ k a s1 = Done b s'.
Proof.
  unfold bind. destruct (m s) as [a s1 | e s1 |]; try discriminate. eauto.
Qed.

Lemma registerInfixOp_Done Loc Symbol Precedence Def s s' :
  registerInfixOp Loc Symbol Precedence Def s = Done tt s' →
  BinOpPrecedence s' = (emplace Symbol (int8_t Precedence) (BinOpPrecedence s)).1 ∧
  InfixOpDefinition s' = (emplace Symbol Def (InfixOpDefinition s)).1 ∧
  FunctionDefinition s' = FunctionDefinition s ∧
  TopLevelBlock s' = TopLevelBlock s.
Proof.
  destruct s as [inp errs precs funcs infixes top].
  unfold registerInfixOp, bind, get, modify, WarningAt, ret. cbn.
  destruct (emplace Symbol (int8_t Precedence) precs) as [Precs [|]];
    cbn; intros [= <-]; cbn; auto.
Qed.

(** X9: a successful [infix [Precedence] LHS Symbol RHS ...] definition
    changes the precedence table and the table of infix operators by one
    [emplace] each, both under [Symbol]: where the symbol is new it gets the
    precedence written (the default when none is written) reduced to a signed
    byte, and a definition with the two operand names; where it is already
    there both tables stay as they are.  The table of functions and the
    top-level statement list are untouched. *)
Theorem parseInfixOpDefinition_registers fuel (st st' : ParserState)
    (Kw LHS Sym RHS : Lexeme) (Header rest : list Lexeme) (Precedence : Z) :
  Input st = Kw :: Header ++ LHS :: Sym :: RHS :: rest →
  (Header = [] ∧ Precedence = DefaultPrecedence) ∨
  (∃ P, Header = [P] ∧ Kind P = Token.Integer ∧ Precedence = IntVal P) →
  Kind LHS = Token.Identifier →
  Kind Sym = Token.InfixOp →
  Kind RHS = Token.Identifier →
  parseInfixOpDefinition fuel st = Done tt st' →
  ∃ Body,
    BinOpPrecedence st' =
      (emplace (StrVal Sym) (int8_t Precedence) (BinOpPrecedence st)).1 ∧
    InfixOpDefinition st' =
      (emplace (StrVal Sym)
         (mkInfixOpDefinitionAST (StrVal Sym) (StrVal LHS) (StrVal RHS) Body)
         (InfixOpDefinition st)).1 ∧
    FunctionDefinition st' = FunctionDefinition st ∧
    TopLevelBlock st' = TopLevelBlock st.
Proof.
  intros HI HH HL HS HR HD.
  destruct st as [inp errs precs funcs infixes top]. simpl in HI. subst inp.
  destruct (decide (Kind Kw = Token.Kw_infix)) as [HK | HK].
  2: { unfold parseInfixOpDefinition in HD. unfold bind at 1 in HD.
       rewrite assert_Lexer_is_fails in HD by exact HK. discriminate HD. }
  rewrite (parseInfixOpDefinition_header fuel Kw LHS Sym RHS Header rest Precedence)
    in HD by assumption.
  apply bind_Done in HD. destruct HD as (Body & s1 & HB & HG).
  exists Body.
  assert (HT : sameTables (mkParserState rest errs precs funcs infixes top) s1).
  { assert (HP : post sameTables (atExit sameTables)
        (e ← Lexer_is Token.Equal;
         if e then Lex;; parseExprStatement fuel else parseStatement fuel)).
    { pose proof sameTables_steps as Steps.
      pose proof (steps_seq _ _ Steps) as HSeq.
      apply post_bind; [exact HSeq | apply (post_Lexer_is _ _ Steps) | intros e].
      destruct e.
      - apply post_bind; [exact HSeq | apply (steps_Lex _ _ Steps) | intros _].
        apply (post_parseExprStatement _ _ Steps).
      - apply (post_parseStatement _ _ Steps). }
    specialize (HP (mkParserState rest errs precs funcs infixes top)).
    rewrite HB in HP. exact HP. }
  destruct HT as (T1 & T2 & T3 & T4). cbn in T1, T2, T3, T4.
  apply registerInfixOp_Done in HG. destruct HG as (G1 & G2 & G3 & G4).
  cbn. rewrite G1, G2, G3, G4, T1, T2, T3, T4. auto.
Qed.

Lemma registerFunction_Done Loc Name Def s s' :
  registerFunction Loc Name Def s = Done tt s' →
  FunctionDefinition s' = (emplace Name Def (FunctionDefinition s)).1 ∧
  BinOpPrecedence s' = BinOpPrecedence s ∧
  InfixOpDefinition s' = InfixOpDefinition s ∧
  TopLevelBlock s' = TopLevelBlock s.
Proof.
  destruct s as [inp errs precs funcs infixes top].
  unfold registerFunction, bind, get, modify, WarningAt, ret. cbn.
  destruct (emplace Name Def funcs) as [Funcs [|]];
    cbn; intros [= <-]; cbn; auto.
Qed.

(** X10: a function definition that parses changes the table of
    functions by one [emplace] under the name of the function, of a
    definition that carries this name and the return type written; the other
    tables and the top-level statement list are untouched.  The error flag of
    the parameter list is not looked at, so this holds as well when the
    parameter list reported an error. *)
Theorem parseFunctionDefinition_named_registers fuel (RetType : cvm.BasicType)
    (Name : string) (st st' : ParserState) :
  parseFunctionDefinition_named fuel RetType Name st = Done tt st' →
  ∃ Params Body,
    FunctionDefinition st' =
      (emplace Name (mkFunctionDefinitionAST Name RetType Params Body)
         (FunctionDefinition st)).1 ∧
    BinOpPrecedence st' = BinOpPrecedence st ∧
    InfixOpDefinition st' = InfixOpDefinition st ∧
    TopLevelBlock st' = TopLevelBlock st.
Proof.
  intros HD.
  pose proof sameTables_steps as Steps.
  pose proof (steps_seq _ _ Steps) as HSeq.
  assert (Ignored : ∀ s s', atExit sameTables ReturnedTrue s s' → sameTables s s')
    by auto.
  unfold parseFunctionDefinition_named in HD.
  apply bind_Done in HD. destruct HD as ([] & s0 & H0 & HD).
  assert (T0 : sameTables st s0)
    by (pose proof (steps_assert _ _ Steps Token.LParen
                      "parseFunctionDefinition: unknown token" st) as P;
        rewrite H0 in P; exact P).
  apply bind_Done in HD. destruct HD as (Loc & s1 & H1 & HD).
  apply bind_Done in HD. destruct HD as ([] & s2 & H2 & HD).
  apply bind_Done in HD. destruct HD as (b & s3 & H3 & HD).
  apply bind_Done in HD. destruct HD as ([e Params] & s4 & H4 & HD).
  apply bind_Done in HD. destruct HD as (c & s5 & H5 & HD).
  destruct c; [discriminate HD |].
  apply bind_Done in HD. destruct HD as ([] & s6 & H6 & HD).
  apply bind_Done in HD. destruct HD as (Body & s7 & H7 & HD).
  exists Params, Body.
  assert (T1 : sameTables s0 s1)
    by (pose proof (post_getLoc _ _ Steps s0) as P; rewrite H1 in P; exact P).
  assert (T2 : sameTables s1 s2)
    by (pose proof (steps_Lex _ _ Steps s1) as P; rewrite H2 in P; exact P).
  assert (T3 : sameTables s2 s3)
    by (pose proof (post_Lexer_isNot _ _ Steps Token.RParen s2) as P;
        rewrite H3 in P; exact P).
  assert (T4 : sameTables s3 s4).
  { destruct b.
    - pose proof (post_parseParameterList _ _ Steps Ignored fuel [] s3) as P.
      rewrite H4 in P. exact P.
    - injection H4 as _ _ <-. apply (seq_refl _ _ HSeq). }
  assert (T5 : sameTables s4 s5)
    by (pose proof (post_Lexer_isNot _ _ Steps Token.RParen s4) as P;
        rewrite H5 in P; exact P).
  assert (T6 : sameTables s5 s6)
    by (pose proof (steps_Lex _ _ Steps s5) as P; rewrite H6 in P; exact P).
  assert (T7 : sameTables s6 s7)
    by (pose proof (post_parseStatement _ _ Steps fuel s6) as P;
        rewrite H7 in P; exact P).
  pose proof (seq_trans _ _ HSeq) as Tr.
  assert (T : sameTables st s7)
    by exact (Tr _ _ _ T0 (Tr _ _ _ T1 (Tr _ _ _ T2 (Tr _ _ _ T3 (Tr _ _ _ T4
                (Tr _ _ _ T5 (Tr _ _ _ T6 T7))))))).
  destruct T as (A1 & A2 & A3 & A4).
  apply registerFunction_Done in HD. destruct HD as (G1 & G2 & G3 & G4).
  rewrite G1, G2, G3, G4, A1, A2, A3, A4. auto.
Qed.
End TopLevelFacts.

Lemma parseTopLevel_declaration_example :
  parseTopLevel (Factory := PlainNodes 0) 5 (initialParserState tokens_int_x) =
  (Statement ← parseStatement (Factory := PlainNodes 0) 6; addStatement Statement)
    (initialParserState tokens_int_x) ∧
  parseTopLevel (Factory := PlainNodes 0) 5 (initialParserState tokens_int_x) =
  Done tt (mkParserState [] [] ∅ ∅ ∅
             [Some (DeclarationListAST cvm.IntType
                      [mkDeclarationAST "x" cvm.IntType None []])]).
Proof.
  split; [| vm_compute; reflexivity].
  apply (parseTopLevel_declaration (Factory := PlainNodes 0) 5
           (punct Token.Kw_int) (tokIdentifier "x") [punct Token.Semicolon]).
  - reflexivity.
  - left. reflexivity.
  - reflexivity.
  - discriminate.
Defined.

Lemma undefined_infix_symbol_example :
  parseExpression (Factory := PlainNodes 0) 3 (initialParserState tokens_1_at_2) =
  Done (IntAST 1)
    (initialParserState [tokInfixOp "@"; tokInteger 2; punct Token.Semicolon]) ∧
  parseExprStatement (Factory := PlainNodes 0) 3 (initialParserState tokens_1_at_2) =
  Raise ReturnedTrue
    (mkParserState [tokInfixOp "@"; tokInteger 2; punct Token.Semicolon]
       [mkDiagnostic [tokInfixOp "@"; tokInteger 2; punct Token.Semicolon]
          ErrorKind.Error "missing semicolon in statement"]
       ∅ ∅ ∅ []).
Proof.
  apply (undefined_infix_symbol_ends_expression (Factory := PlainNodes 0) 3
           (tokInteger 1) (tokInfixOp "@") [tokInteger 2; punct Token.Semicolon]
           (initialParserState tokens_1_at_2)).
  - reflexivity.
  - reflexivity.
  - reflexivity.
  - intros p H. cbn in H. rewrite lookup_empty in H. discriminate H.
  - lia.
Defined.

Lemma parseInfixOpDefinition_registers_example :
  ∃ st',
    parseInfixOpDefinition (Factory := PlainNodes 0) 8
      (initialParserState tokens_infix_defined_twice) = Done tt st' ∧
    BinOpPrecedence st' !! "<>" = Some 5 ∧
    ∃ Body,
      BinOpPrecedence st' = (emplace "<>" (int8_t 5) ∅).1 ∧
      InfixOpDefinition st' =
        (emplace "<>" (mkInfixOpDefinitionAST "<>" "a" "b" Body) ∅).1 ∧
      FunctionDefinition st' = ∅ ∧
      TopLevelBlock st' = [].
Proof.
  eexists. split; [vm_compute; reflexivity |].
  split; [reflexivity |].
  apply (parseInfixOpDefinition_registers (Factory := PlainNodes 0) 8
           (initialParserState tokens_infix_defined_twice) _
           (punct Token.Kw_infix) (tokIdentifier "a") (tokInfixOp "<>")
           (tokIdentifier "b") [tokInteger 5]
           [punct Token.Equal; tokIdentifier "a"; punct Token.Semicolon;
            punct Token.Kw_infix; tokInteger 7; tokIdentifier "a"; tokInfixOp "<>";
            tokIdentifier "b"; punct Token.Equal; tokIdentifier "b";
            punct Token.Semicolon] 5).
  - reflexivity.
  - right. exists (tokInteger 5). repeat split.
  - reflexivity.
  - reflexivity.
  - reflexivity.
  - vm_compute. reflexivity.
Defined.

Lemma parseFunctionDefinition_named_registers_example :
  ∃ st',
    parseFunctionDefinition_named (Factory := PlainNodes 0) 8 cvm.IntType "f"
      (initialParserState tokens_trailing_comma) = Done tt st' ∧
    map DiagKind (ErrorList st') = [ErrorKind.Error] ∧
    ∃ Params Body,
      FunctionDefinition st' =
        (emplace "f" (mkFunctionDefinitionAST "f" cvm.IntType Params Body) ∅).1 ∧
      BinOpPrecedence st' = ∅ ∧
      InfixOpDefinition st' = ∅ ∧
      TopLevelBlock st' = [].
Proof.
  eexists. split; [vm_compute; reflexivity |].
  split; [reflexivity |].
  apply (parseFunctionDefinition_named_registers (Factory := PlainNodes 0) 8
           cvm.IntType "f" (initialParserState tokens_trailing_comma)).
  vm_compute. reflexivity.
Defined.

Lemma length_tl_le {A} (l : list A) : (length (tl l) ≤ length l)%nat.
Proof. destruct l; simpl; lia. Qed.

Lemma returnsLt_Le {A} (c : Parser A) s : returnsLt c s → returnsLe c s.
Proof. unfold returnsLt, returnsLe. destruct (c s); auto. lia. Qed.

Ltac tl_facts :=
  repeat match goal with
  | |- context [length (tl ?l)] =>
      lazymatch goal with
      | _ : (length (tl l) ≤ length l)%nat |- _ => fail
      | _ => pose proof (length_tl_le l)
      end
  | _ : context [length (tl ?l)] |- _ =>
      lazymatch goal with
      | _ : (length (tl l) ≤ length l)%nat |- _ => fail
      | _ => pose proof (length_tl_le l)
      end
  end.

Ltac side := cbn [Input set_Input length tl] in *; tl_facts;
  first [lia | discriminate | congruence | assumption].


(** Use what is known of the call that runs first, then go on in each of
    its outcomes. *)
Ltac run_call c :=
  lazymatch c with
  | ?m ?s1 =>
      let h := head_of m in
      let H := fresh "Hcall" in
      first
        [ assert (H : returnsLt m s1)
            by (match goal with
                | IH : ?T |- _ =>
                    lazymatch T with context [h] => simple apply IH; side end
                end)
        | assert (H : returnsLe m s1)
            by (match goal with
                | IH : ?T |- _ =>
                    lazymatch T with context [h] => simple apply IH; side end
                end) ];
      unfold returnsLt, returnsLe in H;
      destruct c as [? ? | ? ? |]; [| | destruct H]
  end.

Ltac run_step :=
  cbn -[bool_decide Z.ltb];
  cbv delta [getBinOpPrecedence Lexer_isNot Lexer_is getKind getStrVal getIntVal
    getLoc getTok Lex seekLoc_Lex Error Warning WarningAt addStatement returned
    modify get bind ret];
  cbn -[bool_decide Z.ltb];
  lazymatch goal with
  | |- True => exact I
  | |- (_ < _)%nat => side
  | |- (_ ≤ _)%nat => side
  | |- ?g =>
      let c := stuck g in
      lazymatch type of c with
      | Outcome _ _ _ => run_call c
      | _ => destruct c eqn:?
      end
  end.

Ltac run := unfold returnsLt, returnsLe; repeat run_step.

(** A state whose current token is there to be taken. *)
Ltac nonempty s :=
  destruct s as [inp errs precs funcs infixes top];
  destruct inp as [| T rest]; [cbn in *; congruence |].

#[local] Arguments parseTypeSpecifier : simpl never.
#[local] Arguments parseConstantExpression : simpl never.
#[local] Arguments parseEmptyStatement : simpl never.
#[local] Arguments parseBreakStatement : simpl never.
#[local] Arguments parseContinueStatement : simpl never.
#[local] Arguments parseExprStatement : simpl never.
#[local] Arguments parseReturnStatement : simpl never.
#[local] Arguments parseDeclarationStatement_typed : simpl never.
#[local] Arguments parseDeclarationStatement : simpl never.
#[local] Arguments parseParameterList : simpl never.
#[local] Arguments parseInfixOpDefinition : simpl never.
#[local] Arguments parseFunctionDefinition_named : simpl never.
#[local] Arguments parseFunctionDefinition : simpl never.
#[local] Arguments parseTopLevel : simpl never.

Section ParserReturns.
Context {Factory : ASTFactory}.

Lemma parseConstantExpression_returns s : returnsLt parseConstantExpression s.
Proof.
  destruct s as [inp errs precs funcs infixes top].
  destruct inp as [| T rest]; [exact I |].
  unfold returnsLt, parseConstantExpression, bind, getTok. cbn.
  destruct (Kind T); cbn; try exact I; lia.
Qed.

Lemma parseExpression_returns : ∀ n, exprReturns n.
Proof.
  pose proof parseConstantExpression_returns as HC.
  induction n as [| n IH].
  - repeat split; intros; cbn in *; lia.
  - destruct IH as (H1 & H2 & H3 & H4 & H5 & H6 & H7 & H8 & H9).
    repeat split; intros.
    + run.
    + nonempty s. run.
    + destruct s as [inp errs precs funcs infixes top].
      destruct inp as [| T rest]; [exact I |].
      unfold returnsLt. cbn -[bool_decide Z.ltb].
      destruct (Kind T); run.
    + run.
    + run.
    + run.
    + nonempty s. run.
    + run.
    + run.
Qed.

Lemma parseExpression_returnsLt n s :
  (8 * length (Input s) + 3 ≤ n)%nat → returnsLt (parseExpression n) s.
Proof. apply parseExpression_returns. Qed.

Lemma parseTypeSpecifier_returns s : returnsLt parseTypeSpecifier s.
Proof.
  destruct s as [inp errs precs funcs infixes top].
  destruct inp as [| T rest]; [exact I |].
  unfold returnsLt, parseTypeSpecifier, bind, getKind, getTok, ret. cbn.
  destruct (Kind T); cbn; try exact I; lia.
Qed.

Lemma parseEmptyStatement_returns s : Input s ≠ [] → returnsLt parseEmptyStatement s.
Proof. intros H. nonempty s. unfold parseEmptyStatement. run. Qed.

Lemma parseBreakStatement_returns s : Input s ≠ [] → returnsLt parseBreakStatement s.
Proof. intros H. nonempty s. unfold parseBreakStatement. run. Qed.

Lemma parseContinueStatement_returns s :
  Input s ≠ [] → returnsLt parseContinueStatement s.
Proof. intros H. nonempty s. unfold parseContinueStatement. run. Qed.

Lemma parseExprStatement_returns n s :
  (8 * length (Input s) + 3 ≤ n)%nat → returnsLt (parseExprStatement n) s.
Proof.
  intros H. pose proof (parseExpression_returnsLt n) as HE.
  unfold parseExprStatement. run.
Qed.

Lemma parseReturnStatement_returns n s :
  Input s ≠ [] → (8 * length (Input s) ≤ n)%nat →
  returnsLt (parseReturnStatement n) s.
Proof.
  intros H Hn. pose proof (parseExpression_returnsLt n) as HE.
  nonempty s. unfold parseReturnStatement. run.
Qed.

Lemma parseCountExprList_returns : ∀ n l s,
  (8 * length (Input s) + 4 ≤ n)%nat → returnsLe (parseCountExprList n l) s.
Proof.
  induction n as [| n IH]; intros l s H; [cbn in *; lia |].
  pose proof (parseExpression_returnsLt n) as HE. run.
Qed.

Lemma parseDeclarators_returns : ∀ n T l s,
  (8 * length (Input s) + 5 ≤ n)%nat → returnsLt (parseDeclarators n T l) s.
Proof.
  induction n as [| n IH]; intros Ty l s H; [cbn in *; lia |].
  pose proof (parseExpression_returnsLt n) as HE.
  pose proof (parseCountExprList_returns n) as HC.
  destruct s as [inp errs precs funcs infixes top].
  destruct inp as [| T rest]; [exact I |].
  run.
Qed.

Lemma parseDeclarationStatement_typed_returns n T s :
  (8 * length (Input s) + 5 ≤ n)%nat →
  returnsLt (parseDeclarationStatement_typed n T) s.
Proof.
  intros H. pose proof (parseDeclarators_returns n) as HD.
  unfold parseDeclarationStatement_typed. run.
Qed.

Lemma parseDeclarationStatement_returns n s :
  (8 * length (Input s) ≤ n)%nat → returnsLt (parseDeclarationStatement n) s.
Proof.
  intros H. pose proof (parseDeclarationStatement_typed_returns n) as HD.
  pose proof parseTypeSpecifier_returns as HT.
  unfold parseDeclarationStatement. run.
Qed.

Lemma parseStatement_returns : ∀ n, stmtReturns n.
Proof.
  induction n as [| n IH].
  - repeat split; intros; cbn in *; lia.
  - destruct IH as (H1 & H2 & H3 & H4 & H5 & H6).
    pose proof (parseExpression_returnsLt n) as HE.
    pose proof (parseExprStatement_returns n) as HX.
    pose proof (parseReturnStatement_returns n) as HR.
    pose proof (parseDeclarationStatement_returns n) as HD.
    pose proof parseEmptyStatement_returns as HEm.
    pose proof parseBreakStatement_returns as HBr.
    pose proof parseContinueStatement_returns as HCo.
    repeat split; intros.
    + destruct s as [inp errs precs funcs infixes top].
      destruct inp as [| T rest]; [exact I |].
      unfold returnsLt. cbn -[bool_decide Z.ltb].
      cbv delta [getKind getTok bind ret]. cbn -[bool_decide Z.ltb].
      destruct (Kind T); run.
    + nonempty s. run.
    + run.
    + nonempty s. run.
    + nonempty s. run.
    + nonempty s. run.
Qed.

Lemma parseStatement_returnsLt n s :
  (8 * length (Input s) + 6 ≤ n)%nat → returnsLt (parseStatement n) s.
Proof. apply parseStatement_returns. Qed.

Lemma parseParameterList_loop_returns : ∀ n l s,
  (8 * length (Input s) + 1 ≤ n)%nat → returnsLe (parseParameterList_loop n l) s.
Proof.
  induction n as [| n IH]; intros l s H; [cbn in *; lia |].
  destruct s as [inp errs precs funcs infixes top].
  unfold returnsLe. cbn -[bool_decide Z.ltb]. unfold parseTypeSpecifier.
  destruct inp as [| T rest]; run.
Qed.

Lemma parseParameterList_returns n l s :
  (8 * length (Input s) + 1 ≤ n)%nat → returnsLe (parseParameterList n l) s.
Proof.
  intros H. pose proof (parseParameterList_loop_returns n) as HL.
  unfold parseParameterList. run.
Qed.

Lemma parseInfixOpDefinition_returns n s :
  (8 * length (Input s) + 6 ≤ n)%nat → returnsLt (parseInfixOpDefinition n) s.
Proof.
  intros H. pose proof (parseStatement_returnsLt n) as HS.
  pose proof (parseExprStatement_returns n) as HX.
  unfold parseInfixOpDefinition. run.
Qed.

Lemma parseFunctionDefinition_named_returns n T Name s :
  (8 * length (Input s) + 6 ≤ n)%nat →
  returnsLt (parseFunctionDefinition_named n T Name) s.
Proof.
  intros H. pose proof (parseStatement_returnsLt n) as HS.
  pose proof (parseParameterList_returns n) as HP.
  unfold parseFunctionDefinition_named. run.
Qed.

Lemma parseFunctionDefinition_returns n s :
  (8 * length (Input s) + 6 ≤ n)%nat → returnsLt (parseFunctionDefinition n) s.
Proof.
  intros H. pose proof (parseFunctionDefinition_named_returns n) as HF.
  pose proof parseTypeSpecifier_returns as HT.
  unfold parseFunctionDefinition. run.
Qed.

Lemma parseTopLevel_returns n s :
  (8 * length (Input s) + 7 ≤ n)%nat → returnsLt (parseTopLevel n) s.
Proof.
  intros H.
  pose proof (parseStatement_returnsLt n) as HS.
  pose proof (parseInfixOpDefinition_returns n) as HI.
  pose proof (parseFunctionDefinition_returns n) as HF.
  pose proof (parseFunctionDefinition_named_returns n) as HN.
  pose proof (parseDeclarationStatement_typed_returns n) as HD.
  destruct s as [inp errs precs funcs infixes top].
  unfold returnsLt, parseTopLevel, parseTypeSpecifier.
  destruct inp as [| T rest].
  - run.
  - cbv delta [getKind getTok bind ret]. cbn -[bool_decide Z.ltb].
    destruct (Kind T); run.
Qed.

Lemma parse_returnsLe : ∀ n s,
  (8 * length (Input s) + 8 ≤ n)%nat → returnsLe (parse n) s.
Proof.
  induction n as [| n IH]; intros s H; [cbn in *; lia |].
  pose proof (parseTopLevel_returns n) as HT.
  run.
Qed.

Lemma parse_stops_at_end : ∀ n s s',
  parse n s = Done tt s' → atEnd s'.
Proof.
  induction n as [| n IH]; intros s s' H; [discriminate H |].
  cbn -[bool_decide] in H. unfold bind at 1 in H.
  unfold getKind, bind, getTok, ret in H. cbn -[bool_decide] in H.
  unfold atEnd.
  destruct (Kind (hd (punct Token.Eof) (Input s))) eqn:EK;
    try (injection H as <-; auto; fail);
    (unfold bind in H;
     destruct (parseTopLevel n s) as [[] s1 | e s1 |]; try discriminate H;
     exact (IH _ _ H)).
Qed.

(** X11: [parse] ends on every input.  With eight units of fuel for
    every token and eight more, the run from any state ends in one of three
    ways: it returns false, and then the lexer is at an end-of-file or error
    token; it returns true; or the process is aborted by the assert at the
    head of [parseFunctionDefinition(RetType, Name)], on a current token
    that is not a left parenthesis (as after [void f] in [void f ;]).  No
    other assert of the parser fails, and every loop of the parser takes a
    token on each round. *)
Theorem parse_returns fuel st :
  (8 * length (Input st) + 8 ≤ fuel)%nat →
  (∃ st', parse fuel st = Done tt st' ∧ atEnd st') ∨
  (∃ st', parse fuel st = Raise ReturnedTrue st') ∨
  (∃ st', parse fuel st =
          Raise (AssertionFailed "parseFunctionDefinition: unknown token") st' ∧
          ¬ currentIs Token.LParen st').
Proof.
  intros H. pose proof (parse_returnsLe fuel st H) as HR.
  pose proof (parse_aborts fuel st) as HA.
  unfold returnsLe in HR. unfold abortsOnlyWhere in HA.
  destruct (parse fuel st) as [[] s' | [| Msg] s' |] eqn:E; [| | | destruct HR].
  - left. exists s'. split; [reflexivity |]. exact (parse_stops_at_end _ _ _ E).
  - right. left. exists s'. reflexivity.
  - right. right. exists s'. destruct HA as [-> HA]. split; [reflexivity | exact HA].
Qed.

(** X12: with six units of fuel more than eight for every token,
    [parseStatement] and [parseExpression] return, and where they return
    normally they have taken at least one token: no statement and no
    expression is empty.  They return indeed: none of the asserts of the
    functions they call fails, each being entered on the token it asserts. *)
Theorem parseStatement_progress fuel st :
  (8 * length (Input st) + 6 ≤ fuel)%nat →
  (returnsLt (parseStatement fuel) st ∧ returnsLt (parseExpression fuel) st) ∧
  neverAborts (parseStatement fuel) st ∧ neverAborts (parseExpression fuel) st.
Proof.
  intros H. split; [split | split].
  - apply parseStatement_returnsLt, H.
  - apply parseExpression_returnsLt. lia.
  - apply parseStatement_guarded.
  - apply parseExpression_guarded.
Qed.
End ParserReturns.

(** [int x ;] is parsed to the end; [void f ;] stops at the assert, on
    the semicolon. *)
Lemma parse_returns_example :
  (8 * length (Input (initialParserState tokens_int_x)) + 8 ≤ 32)%nat ∧
  ((∃ st', parse (Factory := PlainNodes 0) 32 (initialParserState tokens_int_x) =
           Done tt st' ∧ atEnd st') ∨
   (∃ st', parse (Factory := PlainNodes 0) 32 (initialParserState tokens_int_x) =
           Raise ReturnedTrue st') ∨
   (∃ st', parse (Factory := PlainNodes 0) 32 (initialParserState tokens_int_x) =
           Raise (AssertionFailed "parseFunctionDefinition: unknown token") st' ∧
           ¬ currentIs Token.LParen st')) ∧
  parse (Factory := PlainNodes 0) 32 (initialParserState tokens_int_x) =
  Done tt (mkParserState [] [] ∅ ∅ ∅
             [Some (DeclarationListAST cvm.IntType
                      [mkDeclarationAST "x" cvm.IntType None []])]) ∧
  parse (Factory := PlainNodes 0) 32 (initialParserState tokens_void_f) =
  Raise (AssertionFailed "parseFunctionDefinition: unknown token")
        (initialParserState [punct Token.Semicolon]).
Proof.
  assert (H : (8 * length (Input (initialParserState tokens_int_x)) + 8 ≤ 32)%nat)
    by (cbn; lia).
  split; [exact H |].
  split; [| split; vm_compute; reflexivity].
  exact (parse_returns (Factory := PlainNodes 0) 32
           (initialParserState tokens_int_x) H).
Defined.

Lemma parseStatement_progress_example :
  (8 * length (Input (initialParserState tokens_int_x)) + 6 ≤ 30)%nat ∧
  (returnsLt (parseStatement (Factory := PlainNodes 0) 30)
     (initialParserState tokens_int_x) ∧
   returnsLt (parseExpression (Factory := PlainNodes 0) 30)
     (initialParserState tokens_int_x)) ∧
  neverAborts (parseStatement (Factory := PlainNodes 0) 30)
    (initialParserState tokens_int_x) ∧
  neverAborts (parseExpression (Factory := PlainNodes 0) 30)
    (initialParserState tokens_int_x).
Proof.
  assert (H : (8 * length (Input (initialParserState tokens_int_x)) + 6 ≤ 30)%nat)
    by (cbn; lia).
  split; [exact H |].
  exact (parseStatement_progress (Factory := PlainNodes 0) 30
           (initialParserState tokens_int_x) H).
Defined.

(** * Further properties of the interpreter *)

Lemma envSame_refl E : envSame E E.
Proof. intros Name. destruct (E !! Name); auto. Qed.

Lemma envSame_trans E1 E2 E3 : envSame E1 E2 → envSame E2 E3 → envSame E1 E3.
Proof.
  intros H1 H2 Name. specialize (H1 Name). specialize (H2 Name).
  destruct (E1 !! Name), (E2 !! Name), (E3 !! Name); try tauto; congruence.
Qed.

Lemma envSame_Grows E E' : envSame E E' → envGrows E E'.
Proof.
  intros H Name V HV. specialize (H Name). rewrite HV in H.
  destruct (E' !! Name) as [V' |]; [eauto | contradiction].
Qed.

Lemma envGrows_refl E : envGrows E E.
Proof. intros Name V H. eauto. Qed.

Lemma envGrows_trans E1 E2 E3 : envGrows E1 E2 → envGrows E2 E3 → envGrows E1 E3.
Proof.
  intros H1 H2 Name V HV.
  destruct (H1 _ _ HV) as (V2 & HV2 & T2).
  destruct (H2 _ _ HV2) as (V3 & HV3 & T3).
  exists V3. split; [exact HV3 | congruence].
Qed.

Lemma envSame_chain_refl l : Forall2 envSame l l.
Proof. induction l; constructor; auto using envSame_refl. Qed.

Lemma envSame_chain_trans l1 : ∀ l2 l3,
  Forall2 envSame l1 l2 → Forall2 envSame l2 l3 → Forall2 envSame l1 l3.
Proof.
  induction l1 as [| E l1 IH]; intros l2 l3 H1 H2.
  - inversion H1; subst. inversion H2; subst. constructor.
  - inversion H1; subst. inversion H2; subst. constructor.
    + eapply envSame_trans; eassumption.
    + eapply IH; eassumption.
Qed.

Lemma EnvChain_cons st : EnvChain st = CurrentEnv st :: tl (EnvChain st).
Proof. unfold EnvChain, CurrentEnv. destruct (Scopes st); reflexivity. Qed.

Lemma chainSame_Grows st st' : chainSame st st' → chainGrows st st'.
Proof.
  unfold chainSame, chainGrows.
  rewrite (EnvChain_cons st), (EnvChain_cons st'). intros H.
  inversion H; subst. split; [apply envSame_Grows |]; assumption.
Qed.

Lemma chainSame_seq : Sequential chainSame anyState.
Proof.
  split.
  - intros s. apply envSame_chain_refl.
  - intros s1 s2 s3. apply envSame_chain_trans.
  - intros; exact I.
Qed.

Lemma chainGrows_seq : Sequential chainGrows anyState.
Proof.
  split.
  - intros s. split; [apply envGrows_refl | apply envSame_chain_refl].
  - intros s1 s2 s3 [A1 A2] [B1 B2]. split.
    + eapply envGrows_trans; eassumption.
    + eapply envSame_chain_trans; eassumption.
  - intros; exact I.
Qed.

Lemma post_weaken {A} (c : Interp A) :
  post chainSame anyState c → post chainGrows anyState c.
Proof.
  intros H s. specialize (H s). destruct (c s); auto using chainSame_Grows.
Qed.

Lemma post_liftRuntime {A} (r : string + A) : post chainSame anyState (liftRuntime r).
Proof. intros s. destruct r; cbn; [exact I | apply envSame_chain_refl]. Qed.

Lemma post_RuntimeError {A} D Msg : post D anyState (RuntimeError (A := A) Msg).
Proof. intros s. exact I. Qed.

Lemma post_raise {A} D (e : Abort) : post D anyState (raise (A := A) e).
Proof. intros s. exact I. Qed.

Lemma CurrentEnv_set_CurrentEnv E st : CurrentEnv (set_CurrentEnv E st) = E.
Proof. unfold CurrentEnv, set_CurrentEnv. destruct (Scopes st); reflexivity. Qed.

Lemma EnvChain_set_CurrentEnv E st :
  tl (EnvChain (set_CurrentEnv E st)) = tl (EnvChain st).
Proof. unfold EnvChain, set_CurrentEnv. destruct (Scopes st); reflexivity. Qed.

Lemma envGrows_emplace Name V E : envGrows E (emplace Name V E).1.
Proof.
  unfold emplace. destruct (E !! Name) eqn:HE; cbn; [apply envGrows_refl |].
  intros N W HW. destruct (decide (N = Name)) as [-> |]; [congruence |].
  exists W. rewrite lookup_insert_ne by congruence. auto.
Qed.

Lemma chainGrows_declare Name V st :
  chainGrows st (set_CurrentEnv (emplace Name V (CurrentEnv st)).1 st).
Proof.
  split.
  - rewrite CurrentEnv_set_CurrentEnv. apply envGrows_emplace.
  - rewrite EnvChain_set_CurrentEnv. apply envSame_chain_refl.
Qed.

Lemma EnvChain_length st : length (EnvChain st) = S (length (Scopes st)).
Proof. unfold EnvChain. rewrite length_app. cbn. lia. Qed.

Lemma EnvChain_set_EnvAt i E st :
  (i < length (EnvChain st))%nat →
  EnvChain (set_EnvAt i E st) = <[i := E]> (EnvChain st).
Proof.
  rewrite EnvChain_length. intros Hi. unfold set_EnvAt, EnvChain.
  destruct (i <? length (Scopes st))%nat eqn:Hlt; cbn.
  - apply Nat.ltb_lt in Hlt. rewrite insert_app_l by exact Hlt. reflexivity.
  - apply Nat.ltb_ge in Hlt. assert (i = length (Scopes st)) as -> by lia.
    rewrite insert_app_r_alt by lia. rewrite Nat.sub_diag. reflexivity.
Qed.

Lemma envSame_assign Name V W E :
  E !! Name = Some W → cvm.Type_ V = cvm.Type_ W → envSame E (<[Name := V]> E).
Proof.
  intros HW HT N. destruct (decide (N = Name)) as [-> |].
  - rewrite HW, lookup_insert_eq. exact HT.
  - rewrite lookup_insert_ne by congruence. destruct (E !! N); auto.
Qed.

Lemma chainSame_write i Name V W E st :
  EnvChain st !! i = Some E → E !! Name = Some W →
  cvm.Type_ V = cvm.Type_ W →
  chainSame st (set_EnvAt i (<[Name := V]> E) st).
Proof.
  intros Hi HW HT. unfold chainSame.
  rewrite EnvChain_set_EnvAt by (eapply lookup_lt_Some; exact Hi).
  apply Forall2_same_length_lookup. split; [rewrite length_insert; reflexivity |].
  intros j E1 E2 H1 H2. destruct (decide (j = i)) as [-> |].
  - rewrite list_lookup_insert_eq in H2 by (eapply lookup_lt_Some; exact Hi).
    injection H2 as <-. rewrite Hi in H1. injection H1 as <-.
    eapply envSame_assign; eassumption.
  - rewrite list_lookup_insert_ne in H2 by congruence.
    rewrite H1 in H2. injection H2 as <-. apply envSame_refl.
Qed.

Section InterpreterScopes.
Context {RT : Runtime}.
Variable This : CMMInterpreter.

Section BodiesScopes.
Variable executeStatement : option StatementAST → Interp ExecutionResult.t.
Variable evaluateExpression : ExpressionAST → Interp cvm.BasicValue.
Hypothesis Hexec : ∀ Stmt, post chainGrows anyState (executeStatement Stmt).
Hypothesis Heval : ∀ Expr, post chainSame anyState (evaluateExpression Expr).

Lemma post_executeStatementList l : ∀ Res,
  post chainGrows anyState (executeStatementList executeStatement l Res).
Proof.
  pose proof chainGrows_seq as HSeq.
  induction l as [| Stmt l IH]; intros Res; cbn -[bool_decide]; post_auto.
Qed.

Lemma post_executeBlock l :
  post chainSame anyState (executeBlock executeStatement l).
Proof.
  intros st. unfold executeBlock, bind, modify, ret. cbn.
  pose proof (post_executeStatementList l ExecutionResult_default
                (mkInterpreterState (TopLevelEnv st) (∅ :: Scopes st))) as H.
  destruct (executeStatementList _ _ _ _) as [Res s1 | e s1 |]; [| exact I | exact I].
  destruct H as [_ H]. cbn in H.
  unfold chainSame. fold (EnvChain st) in H.
  assert (HL := Forall2_length _ _ _ H).
  unfold EnvChain in *. cbn.
  destruct (Scopes s1) as [| E1 Outer1]; cbn in *.
  - rewrite length_app in HL. cbn in HL. lia.
  - exact H.
Qed.

Lemma post_executeExprStatement Expression :
  post chainSame anyState (executeExprStatement evaluateExpression Expression).
Proof.
  pose proof chainSame_seq as HSeq. unfold executeExprStatement. post_auto.
Qed.

Lemma post_executeReturnStatement ReturnValue :
  post chainSame anyState (executeReturnStatement evaluateExpression ReturnValue).
Proof.
  pose proof chainSame_seq as HSeq. unfold executeReturnStatement. post_auto.
Qed.

Ltac interp_facts :=
  pose proof (λ A, @post_RuntimeError A chainSame) as HRE;
  pose proof (λ A, @post_RuntimeError A chainGrows) as HRE';
  pose proof (λ A, @post_raise A chainSame) as HRa;
  pose proof (λ A, @post_raise A chainGrows) as HRa';
  pose proof (@post_liftRuntime) as HLift.

Lemma post_executeDeclaration Decl :
  post chainGrows anyState (executeDeclaration evaluateExpression Decl).
Proof.
  pose proof chainGrows_seq as HSeq. interp_facts.
  unfold executeDeclaration. apply post_bind_get. intros st.
  destruct (bool_decide _); [exact I |].
  destruct (isArray Decl); [exact I |].
  revert st.
  match goal with
  | |- ∀ st, match ?c st with _ => _ end => change (post chainGrows anyState c)
  end.
  apply post_bind; [exact HSeq | | intros Val].
  - apply post_weaken. pose proof chainSame_seq. clear HSeq. post_auto.
  - apply post_bind; [exact HSeq | | intros _; apply post_ret; exact HSeq].
    apply post_modify. intros s. apply chainGrows_declare.
Qed.

Lemma post_executeDeclarationList l :
  post chainGrows anyState (executeDeclarationList evaluateExpression l).
Proof.
  pose proof chainGrows_seq as HSeq. pose proof post_executeDeclaration.
  induction l as [| Decl l IH]; cbn; post_auto.
Qed.

Lemma post_searchVariable Name : post chainSame anyState (searchVariable Name).
Proof.
  pose proof chainSame_seq as HSeq. interp_facts. unfold searchVariable. post_auto.
Qed.

Lemma post_readVariable i Name : post chainSame anyState (readVariable i Name).
Proof.
  pose proof chainSame_seq as HSeq. interp_facts. unfold readVariable. post_auto.
Qed.

Lemma post_evaluateIdentifierExpr Name :
  post chainSame anyState (evaluateIdentifierExpr Name).
Proof.
  pose proof chainSame_seq as HSeq.
  pose proof post_searchVariable. pose proof post_readVariable.
  unfold evaluateIdentifierExpr. post_auto.
Qed.

Lemma post_evaluateAssignment Name Expr :
  post chainSame anyState (evaluateAssignment evaluateExpression Name Expr).
Proof.
  pose proof chainSame_seq as HSeq. pose proof post_searchVariable.
  unfold evaluateAssignment.
  apply post_bind; [exact HSeq | apply post_searchVariable | intros It].
  apply post_bind; [exact HSeq | apply Heval | intros RHS].
  intros st. unfold bind, readVariable, get, ret, writeVariable, modify. cbn.
  destruct (EnvChain st !! It) as [E |] eqn:HE; cbn; [| exact I].
  destruct (E !! Name) as [LHS |] eqn:HL; cbn; [| exact I].
  destruct (bool_decide (cvm.Type_ LHS ≠ cvm.Type_ RHS)) eqn:HT.
  - destruct LHS, RHS; cbn; try exact I.
    rewrite HE. eapply chainSame_write; eauto.
  - apply bool_decide_eq_false in HT.
    assert (HT' : cvm.Type_ RHS = cvm.Type_ LHS)
      by (destruct (decide (cvm.Type_ LHS = cvm.Type_ RHS)); [congruence | tauto]).
    cbn. rewrite HE. eapply chainSame_write; eauto.
Qed.

Lemma post_evaluateBinaryCalc OpKind LHS RHS :
  post chainSame anyState (evaluateBinaryCalc OpKind LHS RHS).
Proof.
  pose proof chainSame_seq as HSeq. interp_facts.
  unfold evaluateBinaryCalc. post_auto.
Qed.

Lemma post_evaluateBinaryOpExpr OpKind LHS RHS :
  post chainSame anyState (evaluateBinaryOpExpr evaluateExpression OpKind LHS RHS).
Proof.
  pose proof chainSame_seq as HSeq. interp_facts.
  pose proof post_evaluateAssignment. pose proof post_evaluateBinaryCalc.
  unfold evaluateBinaryOpExpr. post_auto.
Qed.

Lemma post_evaluateArgumentList l :
  post chainSame anyState (evaluateArgumentList evaluateExpression l).
Proof.
  pose proof chainSame_seq as HSeq.
  induction l as [| P l IH]; cbn; post_auto.
Qed.

Lemma post_callNativeFunction F Args :
  post chainSame anyState (callNativeFunction F Args).
Proof. apply post_liftRuntime. Qed.

Lemma bindArguments_state F Paras : ∀ Args Env st,
  match bindArguments F Paras Args Env st with
  | Done _ st' => st' = st
  | _ => True
  end.
Proof.
  induction Paras as [| Para Paras IH]; intros [| Arg Args] Env st;
    cbn -[bool_decide]; auto.
  destruct (bool_decide _); cbn; auto. apply IH.
Qed.

Lemma post_callUserFunction F Args :
  post chainSame anyState (callUserFunction executeStatement F Args).
Proof.
  intros st. unfold callUserFunction.
  destruct (bool_decide (length Args ≠ getParameterCount F)); [exact I |].
  unfold bind at 1.
  pose proof (bindArguments_state F (ParameterList F) Args ∅ st) as HB.
  destruct (bindArguments F (ParameterList F) Args ∅ st) as [FuncEnv s0 | |];
    [subst s0 | exact I | exact I].
  unfold bind, get, modify, ret. cbn.
  pose proof (Hexec (FuncStatement F)
                (mkInterpreterState (TopLevelEnv st) [FuncEnv])) as HE.
  destruct (executeStatement (FuncStatement F) _) as [Result s1 | |];
    [| exact I | exact I].
  destruct HE as [_ HE]. cbn in HE.
  assert (HTop : envSame (TopLevelEnv st) (TopLevelEnv s1)).
  { unfold EnvChain in HE. destruct (Scopes s1) as [| E1 [| E2 O]]; cbn in HE.
    - inversion HE.
    - inversion HE; subst. assumption.
    - inversion HE; subst. destruct O; inversion H4. }
  assert (HC : chainSame st (mkInterpreterState (TopLevelEnv s1) (Scopes st))).
  { unfold chainSame, EnvChain. cbn. apply Forall2_app.
    - apply envSame_chain_refl.
    - constructor; [exact HTop | constructor]. }
  destruct (bool_decide _); cbn; [exact I | exact HC].
Qed.

Lemma post_evaluateFunctionCallExpr Callee Arguments :
  post chainSame anyState
    (evaluateFunctionCallExpr This executeStatement evaluateExpression
       Callee Arguments).
Proof.
  pose proof chainSame_seq as HSeq. interp_facts.
  pose proof post_evaluateArgumentList. pose proof post_callUserFunction.
  pose proof post_callNativeFunction.
  unfold evaluateFunctionCallExpr. post_auto.
Qed.

Lemma post_executeStatement_switch Stmt :
  post chainGrows anyState
    (executeStatement_switch executeStatement evaluateExpression Stmt).
Proof.
  pose proof chainGrows_seq as HSeq. interp_facts.
  pose proof (λ e, post_weaken _ (post_executeExprStatement e)).
  pose proof (λ l, post_weaken _ (post_executeBlock l)).
  pose proof (λ r, post_weaken _ (post_executeReturnStatement r)).
  pose proof post_executeDeclarationList.
  unfold executeStatement_switch. post_auto.
Qed.

Lemma post_evaluateExpression_switch Expr :
  post chainSame anyState
    (evaluateExpression_switch This executeStatement evaluateExpression Expr).
Proof.
  pose proof chainSame_seq as HSeq. interp_facts.
  pose proof post_evaluateIdentifierExpr. pose proof post_evaluateFunctionCallExpr.
  pose proof post_evaluateBinaryOpExpr.
  unfold evaluateExpression_switch. post_auto.
Qed.
End BodiesScopes.

Lemma post_executeStatement : ∀ fuel,
  (∀ Stmt, post chainGrows anyState (executeStatement This fuel Stmt)) ∧
  (∀ Expr, post chainSame anyState (evaluateExpression This fuel Expr)).
Proof.
  induction fuel as [| fuel [IHs IHe]].
  - split; intros; apply post_outOfFuel.
  - split; intros; cbn.
    + apply post_executeStatement_switch; assumption.
    + apply post_evaluateExpression_switch; assumption.
Qed.
End InterpreterScopes.

Lemma findEnv_innermost Name Chain : ∀ i k,
  findEnv Name Chain i = Some k ↔
  ∃ Inner E, innermost Name Chain Inner E ∧ k = (i + length Inner)%nat.
Proof.
  induction Chain as [| E0 Chain IH]; intros i k; cbn.
  - split; [discriminate |].
    intros (Inner & E & ((Outer & H) & _) & _). destruct Inner; discriminate H.
  - destruct (E0 !! Name) as [V |] eqn:HE.
    + split.
      * intros [= <-]. exists [], E0. split; [| cbn; lia].
        split; [exists Chain; reflexivity | split; [constructor | eauto]].
      * intros (Inner & E & ((Outer & H) & HF & HS) & ->).
        destruct Inner as [| E1 Inner]; [f_equal; cbn; lia |].
        injection H as <- _. inversion HF; subst. congruence.
    + rewrite IH. split.
      * intros (Inner & E & ((Outer & ->) & HF & HS) & ->).
        exists (E0 :: Inner), E. split; [| cbn; lia].
        split; [exists Outer; reflexivity | split; [constructor; assumption | exact HS]].
      * intros (Inner & E & ((Outer & H) & HF & HS) & ->).
        destruct Inner as [| E1 Inner].
        -- injection H as <- _. destruct HS as [x Hx]. congruence.
        -- injection H as <- ->. inversion HF; subst.
           exists Inner, E. split; [| cbn; lia].
           split; [exists Outer; reflexivity | split; assumption].
Qed.

Lemma findEnv_None Name Chain : ∀ i,
  findEnv Name Chain i = None ↔ Forall (λ E, E !! Name = None) Chain.
Proof.
  induction Chain as [| E0 Chain IH]; intros i; cbn.
  - split; [constructor | reflexivity].
  - destruct (E0 !! Name) as [V |] eqn:HE.
    + split; [discriminate |]. intros H. inversion H; subst. congruence.
    + rewrite IH. split; [constructor; assumption |].
      intros H. inversion H; assumption.
Qed.

Lemma evaluateIdentifierExpr_found Name st Inner E V :
  innermost Name (EnvChain st) Inner E → E !! Name = Some V →
  evaluateIdentifierExpr Name st = Done V st.
Proof.
  intros HI HV.
  assert (HF : findEnv Name (EnvChain st) 0 = Some (length Inner))
    by (apply findEnv_innermost; eauto).
  unfold evaluateIdentifierExpr, searchVariable, readVariable, bind, get, ret.
  rewrite HF. cbn.
  destruct HI as ((Outer & HC) & _ & _). rewrite HC.
  rewrite lookup_app_r by lia. rewrite Nat.sub_diag. cbn. rewrite HV. reflexivity.
Qed.

Lemma evaluateIdentifierExpr_undefined Name st :
  Forall (λ E, E !! Name = None) (EnvChain st) →
  evaluateIdentifierExpr Name st =
  Raise (ExitFailure ("variable `" ++ Name ++ "' is undefined")) st.
Proof.
  intros HF. apply (findEnv_None Name _ 0%nat) in HF.
  unfold evaluateIdentifierExpr, searchVariable, bind, get. rewrite HF. reflexivity.
Qed.

(** X13: reading a variable walks the scopes from the current one
    outwards and takes the first that holds the name, so a variable of an
    inner scope hides the ones of the same name further out; the state is
    not changed.  When no scope holds the name, down to the top-level
    environment, the run ends with the error that the variable is
    undefined. *)
Theorem evaluateIdentifierExpr_innermost (Name : string) (st : InterpreterState) :
  (∀ Inner E V, innermost Name (EnvChain st) Inner E → E !! Name = Some V →
                evaluateIdentifierExpr Name st = Done V st) ∧
  (Forall (λ E, E !! Name = None) (EnvChain st) →
   evaluateIdentifierExpr Name st =
   Raise (ExitFailure ("variable `" ++ Name ++ "' is undefined")) st).
Proof.
  split.
  - intros Inner E V. apply evaluateIdentifierExpr_found.
  - apply evaluateIdentifierExpr_undefined.
Qed.

Lemma findEnv_same Name l : ∀ l' i,
  Forall2 envSame l l' → findEnv Name l' i = findEnv Name l i.
Proof.
  induction l as [| E l IH]; intros l' i H; inversion H as [| E0 E' l0 l'' HE HL]; subst.
  - reflexivity.
  - cbn. specialize (HE Name).
    destruct (E !! Name), (E' !! Name); try contradiction; [reflexivity |].
    apply IH. assumption.
Qed.

Lemma findEnv_lookup Name l : ∀ i k,
  findEnv Name l i = Some k →
  ∃ j E, k = (i + j)%nat ∧ l !! j = Some E ∧ is_Some (E !! Name).
Proof.
  intros i k H. apply findEnv_innermost in H.
  destruct H as (Inner & E & ((Outer & ->) & _ & HS) & ->).
  exists (length Inner), E. split; [reflexivity |]. split; [| exact HS].
  rewrite lookup_app_r by lia. rewrite Nat.sub_diag. reflexivity.
Qed.

Lemma findEnv_insert Name V l : ∀ i j E,
  findEnv Name l i = Some (i + j)%nat → l !! j = Some E →
  findEnv Name (<[j := <[Name := V]> E]> l) i = Some (i + j)%nat.
Proof.
  induction l as [| E0 l IH]; intros i j E H HL; [discriminate HL |].
  cbn in H. destruct j as [| j].
  - cbn. rewrite lookup_insert_eq. f_equal. lia.
  - cbn in HL. cbn. destruct (E0 !! Name) eqn:HE.
    + injection H as H. lia.
    + replace (i + S j)%nat with (S i + j)%nat in * by lia.
      apply IH; assumption.
Qed.

Section InterpreterRoundTrips.
Context {RT : Runtime}.
Variable This : CMMInterpreter.

Lemma evaluateExpression_chainSame fuel Expr st V st' :
  evaluateExpression This fuel Expr st = Done V st' → chainSame st st'.
Proof.
  intros HE. pose proof (proj2 (post_executeStatement This fuel) Expr st) as H.
  rewrite HE in H. exact H.
Qed.

(** X14: evaluating an expression, with the assignments and the
    function calls in it, leaves the scopes as they are: where it returns a
    value there are the same scopes as before, each with the same variables,
    and every variable has a value of the type it had.  An assignment never
    changes the type of a variable, and nothing a called function declares
    is left behind. *)
Theorem evaluateExpression_keeps_scopes (fuel : nat) (Expr : ExpressionAST)
    (st : InterpreterState) :
  match evaluateExpression This fuel Expr st with
  | Done _ st' => chainSame st st'
  | _ => True
  end.
Proof.
  pose proof (proj2 (post_executeStatement This fuel) Expr st) as H.
  destruct (evaluateExpression This fuel Expr st); auto.
Qed.

Lemma post_interpretStatements fuel l :
  post chainGrows anyState (interpretStatements This fuel l).
Proof.
  pose proof chainGrows_seq as HSeq.
  pose proof (proj1 (post_executeStatement This fuel)) as HS.
  pose proof (λ A, @post_RuntimeError A chainGrows) as HRE.
  induction l as [| Stmt l IH]; cbn -[bool_decide]; post_auto.
Qed.

(** X15: executing a statement, or the list of top-level statements,
    only adds variables, and only to the current scope: where it completes,
    the scopes are the same, every variable that was there is still there
    with a value of the same type, and the scopes outside the current one
    have exactly the variables they had. *)
Theorem executeStatement_keeps_variables (fuel : nat) (st : InterpreterState) :
  (∀ Stmt, match executeStatement This fuel Stmt st with
           | Done _ st' => chainGrows st st'
           | _ => True
           end) ∧
  (∀ StatementList, match interpretStatements This fuel StatementList st with
                    | Done _ st' => chainGrows st st'
                    | _ => True
                    end).
Proof.
  split.
  - intros Stmt. pose proof (proj1 (post_executeStatement This fuel) Stmt st) as H.
    destruct (executeStatement This fuel Stmt st); auto.
  - intros l. pose proof (post_interpretStatements fuel l st) as H.
    destruct (interpretStatements This fuel l st); auto.
Qed.

(** X16: what a block declares ends with the block: where a block
    statement completes, however it was left, the scopes are the ones from
    before the block with the same variables at the same types. *)
Theorem block_variables_do_not_escape (fuel : nat)
    (StatementList : list (option StatementAST)) (st : InterpreterState) :
  match executeStatement This fuel (Some (BlockAST StatementList)) st with
  | Done _ st' => chainSame st st'
  | _ => True
  end.
Proof.
  destruct fuel as [| fuel]; [exact I |].
  pose proof (post_executeBlock (executeStatement This fuel)
                (proj1 (post_executeStatement This fuel)) StatementList st) as H.
  change (executeStatement This (S fuel) (Some (BlockAST StatementList)) st)
    with (executeBlock (executeStatement This fuel) StatementList st).
  destruct (executeBlock _ _ _); auto.
Qed.

(** X17: a declaration that completes can be read back: the name is
    then a variable of the current scope, reading it gives a value of the
    declared type, which is the zero value of the type when there is no
    initializer, and otherwise the value of the initializer, or that integer
    as a double when the declared type is double. *)
Theorem declaration_then_read (fuel : nat) (Decl : DeclarationAST)
    (st st' : InterpreterState) (Res : ExecutionResult.t) :
  executeDeclaration (evaluateExpression This fuel) Decl st = Done Res st' →
  ∃ V,
    evaluateIdentifierExpr (DeclName Decl) st' = Done V st' ∧
    CurrentEnv st' !! DeclName Decl = Some V ∧
    cvm.Type_ V = DeclType Decl ∧
    match Initializer Decl with
    | None => V = cvm.zeroValue (DeclType Decl)
    | Some Init =>
        ∃ Val s1, evaluateExpression This fuel Init st = Done Val s1 ∧
                  (V = Val ∨
                   ∃ IntVal, Val = cvm.IntValue IntVal ∧
                             V = cvm.DoubleValue (cvm.double_of_int IntVal))
    end.
Proof.
  intros H. unfold executeDeclaration in H.
  unfold bind at 1, get in H.
  destruct (bool_decide (is_Some (CurrentEnv st !! DeclName Decl))) eqn:HG;
    [discriminate H |].
  apply bool_decide_eq_false in HG.
  assert (HN : CurrentEnv st !! DeclName Decl = None).
  { destruct (CurrentEnv st !! DeclName Decl) eqn:E; [| reflexivity].
    exfalso. apply HG. eauto. }
  destruct (isArray Decl); [discriminate H |].
  apply bind_Done in H. destruct H as (V & s1 & HV & H).
  unfold bind, modify, ret in H. injection H as _ <-.
  assert (HS : chainSame st s1 ∧ cvm.Type_ V = DeclType Decl ∧
    match Initializer Decl with
    | None => V = cvm.zeroValue (DeclType Decl)
    | Some Init =>
        ∃ Val s1, evaluateExpression This fuel Init st = Done Val s1 ∧
                  (V = Val ∨
                   ∃ IntVal, Val = cvm.IntValue IntVal ∧
                             V = cvm.DoubleValue (cvm.double_of_int IntVal))
    end).
  { destruct (Initializer Decl) as [Init |].
    - apply bind_Done in HV. destruct HV as (Val & s2 & HE & HV).
      pose proof (evaluateExpression_chainSame _ _ _ _ _ HE) as HK.
      destruct (bool_decide (cvm.Type_ Val ≠ DeclType Decl)) eqn:HT.
      + destruct (bool_decide (DeclType Decl = cvm.DoubleType)) eqn:HD;
          [| discriminate HV].
        apply bool_decide_eq_true in HD.
        destruct Val; cbn in HV; try discriminate HV.
        injection HV as <- <-. split; [exact HK |]. split; [symmetry; exact HD |].
        eexists _, _. split; [exact HE |]. right. eauto.
      + apply bool_decide_eq_false in HT. injection HV as <- <-.
        split; [exact HK |].
        split; [destruct (decide (cvm.Type_ Val = DeclType Decl)); [assumption | tauto] |].
        eexists _, _. split; [exact HE |]. left. reflexivity.
    - injection HV as <- <-. split; [apply envSame_chain_refl |].
      split; [destruct (DeclType Decl); reflexivity | reflexivity]. }
  destruct HS as (HK & HT & HI).
  assert (HN1 : CurrentEnv s1 !! DeclName Decl = None).
  { unfold chainSame in HK. rewrite (EnvChain_cons st), (EnvChain_cons s1) in HK.
    inversion HK as [| ? ? ? ? HE _]; subst. specialize (HE (DeclName Decl)).
    rewrite HN in HE. destruct (CurrentEnv s1 !! DeclName Decl); [contradiction | reflexivity]. }
  assert (HC : CurrentEnv
                 (set_CurrentEnv (emplace (DeclName Decl) V (CurrentEnv s1)).1 s1)
               !! DeclName Decl = Some V).
  { rewrite CurrentEnv_set_CurrentEnv. unfold emplace. rewrite HN1. cbn.
    apply lookup_insert_eq. }
  exists V. split; [| split; [exact HC | split; assumption]].
  eapply (evaluateIdentifierExpr_found _ _ []); [| exact HC].
  split; [| split; [constructor | eauto]].
  eexists. rewrite EnvChain_cons. reflexivity.
Qed.

(** X18: an assignment that completes can be read back: reading the
    variable afterwards gives the value the assignment returned, which is the
    value of the right-hand side, or that integer as a double when the
    variable is a double.  The write goes to the scope the variable was
    found in, also when the right-hand side has run other code in
    between. *)
Theorem assignment_then_read (fuel : nat) (Name : string) (Expr : ExpressionAST)
    (st st' : InterpreterState) (V : cvm.BasicValue) :
  evaluateAssignment (evaluateExpression This fuel) Name Expr st = Done V st' →
  evaluateIdentifierExpr Name st' = Done V st' ∧
  ∃ RHS s1, evaluateExpression This fuel Expr st = Done RHS s1 ∧
            (V = RHS ∨
             ∃ IntVal, RHS = cvm.IntValue IntVal ∧
                       V = cvm.DoubleValue (cvm.double_of_int IntVal)).
Proof.
  intros H. unfold evaluateAssignment in H.
  apply bind_Done in H. destruct H as (It & s0 & HS & H).
  unfold searchVariable, bind, get in HS.
  destruct (findEnv Name (EnvChain st) 0) as [i |] eqn:HF; [| discriminate HS].
  injection HS as <- <-.
  apply bind_Done in H. destruct H as (RHS & s1 & HE & H).
  pose proof (evaluateExpression_chainSame _ _ _ _ _ HE) as HK.
  assert (HF1 : findEnv Name (EnvChain s1) 0 = Some i)
    by (rewrite (findEnv_same Name _ _ 0%nat HK); exact HF).
  apply bind_Done in H. destruct H as (LHS & s2 & HR & H).
  unfold readVariable, bind, get in HR.
  destruct (EnvChain s1 !! i) as [E |] eqn:HEi; cbn in HR; [| discriminate HR].
  destruct (E !! Name) as [L |] eqn:HL; cbn in HR; [| discriminate HR].
  injection HR as <- <-.
  assert (HW : ∀ W, evaluateIdentifierExpr Name
                      (set_EnvAt i (<[Name := W]> E) s1) =
                    Done W (set_EnvAt i (<[Name := W]> E) s1)).
  { intros W.
    unfold evaluateIdentifierExpr, searchVariable, readVariable, bind, get, ret.
    rewrite EnvChain_set_EnvAt by (eapply lookup_lt_Some; exact HEi).
    rewrite (findEnv_insert Name W (EnvChain s1) 0%nat i E HF1 HEi). cbn.
    rewrite EnvChain_set_EnvAt by (eapply lookup_lt_Some; exact HEi).
    rewrite list_lookup_insert_eq by (eapply lookup_lt_Some; exact HEi). cbn.
    rewrite lookup_insert_eq. reflexivity. }
  destruct (bool_decide (cvm.Type_ L ≠ cvm.Type_ RHS)) eqn:HT.
  - destruct L, RHS; try discriminate H.
    unfold bind, writeVariable, modify, ret in H. rewrite HEi in H.
    injection H as <- <-. split; [apply HW |].
    eexists _, _. split; [exact HE |]. right. eauto.
  - unfold bind, writeVariable, modify, ret in H. rewrite HEi in H.
    injection H as <- <-. split; [apply HW |].
    eexists _, _. split; [exact HE |]. left. reflexivity.
Qed.

Lemma bindArguments_bindAll (F : FunctionDefinitionAST) Paras : ∀ Args Env st,
  Forall2 (λ Para Arg, ParamType Para = cvm.Type_ Arg) Paras Args →
  bindArguments F Paras Args Env st = Done (bindAll Paras Args Env) st.
Proof.
  induction Paras as [| Para Paras IH]; intros Args Env st H;
    inversion H as [| ? Arg ? Args' HT HR]; subst; [reflexivity |].
  cbn -[bool_decide]. rewrite bool_decide_eq_false_2 by tauto.
  apply IH. exact HR.
Qed.

Lemma bindAll_other Name Paras : ∀ Args Env,
  Forall (λ Para, ParamName Para ≠ Name) Paras →
  bindAll Paras Args Env !! Name = Env !! Name.
Proof.
  induction Paras as [| Para Paras IH]; intros [| Arg Args] Env H; cbn; auto.
  inversion H; subst. rewrite IH by assumption.
  apply lookup_insert_ne. assumption.
Qed.

Lemma bindAll_lookup Paras : ∀ Args Env i Para Arg,
  NoDup (map ParamName Paras) →
  Paras !! i = Some Para → Args !! i = Some Arg →
  bindAll Paras Args Env !! ParamName Para = Some Arg.
Proof.
  induction Paras as [| P Paras IH]; intros [| A Args] Env i Para Arg HN HP HA;
    try discriminate.
  cbn in HN. inversion HN as [| ? ? Hnotin HN']; subst.
  destruct i as [| i]; cbn in HP, HA.
  - injection HP as ->. injection HA as ->. cbn.
    rewrite bindAll_other; [apply lookup_insert_eq |].
    apply Forall_forall. intros Q HQ HE. apply Hnotin.
    rewrite <- HE. apply list_elem_of_In, in_map, list_elem_of_In. exact HQ.
  - cbn. eapply IH; eassumption.
Qed.

(** X19: a call with as many arguments as parameters, each of the type
    of its parameter, runs the body of the function over the top-level
    environment and one fresh scope that holds the parameters bound to the
    arguments and nothing else: none of the scopes of the caller is visible.
    When the body is done the scopes of the caller are put back as they
    were, and the value is returned only if it has the declared return type;
    otherwise the run ends with an error.  With parameter names that differ
    from each other, every parameter is bound to its own argument. *)
Theorem callUserFunction_runs_body
    (executeStatement : option StatementAST → Interp ExecutionResult.t)
    (F : FunctionDefinitionAST) (Args : list cvm.BasicValue)
    (st : InterpreterState) :
  Forall2 (λ Para Arg, ParamType Para = cvm.Type_ Arg) (ParameterList F) Args →
  callUserFunction executeStatement F Args st =
  match executeStatement (FuncStatement F)
          (mkInterpreterState (TopLevelEnv st) [bindAll (ParameterList F) Args ∅])
  with
  | Done Result s1 =>
      (if bool_decide (cvm.Type_ (ExecutionResult.ReturnValue Result) ≠ FuncType F)
       then RuntimeError ("function `" ++ FuncName F ++ "' ought to return " ++
                          TypeToStr (FuncType F) ++ ", but got " ++
                          TypeToStr (cvm.Type_ (ExecutionResult.ReturnValue Result)))
       else ret (ExecutionResult.ReturnValue Result))
        (mkInterpreterState (TopLevelEnv s1) (Scopes st))
  | Raise e s1 => Raise e s1
  | OutOfFuel => OutOfFuel
  end ∧
  (∀ i Para Arg, NoDup (map ParamName (ParameterList F)) →
     ParameterList F !! i = Some Para → Args !! i = Some Arg →
     bindAll (ParameterList F) Args ∅ !! ParamName Para = Some Arg) ∧
  (∀ Name, Forall (λ Para, ParamName Para ≠ Name) (ParameterList F) →
     bindAll (ParameterList F) Args ∅ !! Name = None).
Proof.
  intros HT. split; [| split].
  - unfold callUserFunction.
    rewrite bool_decide_eq_false_2
      by (unfold getParameterCount; rewrite (Forall2_length _ _ _ HT); tauto).
    unfold bind at 1. rewrite (bindArguments_bindAll F _ _ _ _ HT).
    unfold bind, get, modify. cbn.
    destruct (executeStatement _ _) as [Result s1 | e s1 |]; reflexivity.
  - intros i Para Arg HN HP HA. eapply bindAll_lookup; eassumption.
  - intros Name HF. rewrite bindAll_other by exact HF. apply lookup_empty.
Qed.
End InterpreterRoundTrips.

(** [int x = 7;] at top level, then [x]. *)
Lemma declaration_then_read_example :
  executeDeclaration (RT := Reference.runtime)
    (evaluateExpression (RT := Reference.runtime) emptyInterpreter 1)
    (mkDeclarationAST "x" cvm.IntType (Some (IntAST 7)) [])
    initialInterpreterState =
  Done (ExecutionResult_default (RT := Reference.runtime))
       (mkInterpreterState (<["x" := cvm.IntValue 7]> ∅) []) ∧
  ∃ V,
    evaluateIdentifierExpr "x" (mkInterpreterState (<["x" := cvm.IntValue 7]> ∅) []) =
    Done V (mkInterpreterState (<["x" := cvm.IntValue 7]> ∅) []) ∧
    cvm.Type_ V = cvm.IntType.
Proof.
  assert (H : executeDeclaration (RT := Reference.runtime)
                (evaluateExpression (RT := Reference.runtime) emptyInterpreter 1)
                (mkDeclarationAST "x" cvm.IntType (Some (IntAST 7)) [])
                initialInterpreterState =
              Done (ExecutionResult_default (RT := Reference.runtime))
                   (mkInterpreterState (<["x" := cvm.IntValue 7]> ∅) []))
    by (vm_compute; reflexivity).
  split; [exact H |].
  destruct (declaration_then_read (RT := Reference.runtime) emptyInterpreter 1
              _ _ _ _ H) as (V & H1 & _ & H2 & _).
  exists V. split; [exact H1 | exact H2].
Defined.

(** [x = 5] where [x] is a global of type int. *)
Lemma assignment_then_read_example :
  evaluateAssignment (RT := Reference.runtime)
    (evaluateExpression (RT := Reference.runtime) emptyInterpreter 1)
    "x" (IntAST 5) (mkInterpreterState (<["x" := cvm.IntValue 1]> ∅) [∅]) =
  Done (cvm.IntValue 5) (mkInterpreterState (<["x" := cvm.IntValue 5]> ∅) [∅]) ∧
  evaluateIdentifierExpr "x" (mkInterpreterState (<["x" := cvm.IntValue 5]> ∅) [∅]) =
  Done (cvm.IntValue 5) (mkInterpreterState (<["x" := cvm.IntValue 5]> ∅) [∅]).
Proof.
  assert (H : evaluateAssignment (RT := Reference.runtime)
                (evaluateExpression (RT := Reference.runtime) emptyInterpreter 1)
                "x" (IntAST 5) (mkInterpreterState (<["x" := cvm.IntValue 1]> ∅) [∅]) =
              Done (cvm.IntValue 5)
                   (mkInterpreterState (<["x" := cvm.IntValue 5]> ∅) [∅]))
    by (vm_compute; reflexivity).
  split; [exact H |].
  exact (proj1 (assignment_then_read (RT := Reference.runtime) emptyInterpreter 1
                  _ _ _ _ _ H)).
Defined.

(** [half(3.0)] *)
Lemma callUserFunction_runs_body_example :
  Forall2 (λ Para Arg, ParamType Para = cvm.Type_ Arg)
    (ParameterList function_half) [cvm.DoubleValue 3%float] ∧
  bindAll (ParameterList function_half) [cvm.DoubleValue 3%float] ∅ !! "x" =
  Some (cvm.DoubleValue 3%float) ∧
  bindAll (ParameterList function_half) [cvm.DoubleValue 3%float] ∅ !! "y" = None.
Proof.
  assert (H : Forall2 (λ Para Arg, ParamType Para = cvm.Type_ Arg)
                (ParameterList function_half) [cvm.DoubleValue 3%float])
    by (repeat constructor).
  split; [exact H |].
  destruct (callUserFunction_runs_body (RT := Reference.runtime)
              (executeStatement (RT := Reference.runtime) emptyInterpreter 3)
              function_half [cvm.DoubleValue 3%float] initialInterpreterState H)
    as (_ & H2 & H3).
  split.
  - apply (H2 0%nat (mkParameter "x" cvm.DoubleType []) (cvm.DoubleValue 3%float));
      [| reflexivity | reflexivity].
    cbn. apply NoDup_singleton.
  - apply H3. repeat constructor. discriminate.
Defined.

(** * Further properties of the source manager *)

Lemma Forall_lt_trans x y l : x < y → Forall (Z.lt y) l → Forall (Z.lt x) l.
Proof. intros H HF. eapply Forall_impl; [exact HF |]. cbn. intros z Hz. lia. Qed.

Lemma recorded_cons v x l :
  recorded v (x :: l) =
  if x <? v then x :: recorded v l
  else if x =? v then x :: l else v :: x :: l.
Proof.
  unfold recorded. cbn. destruct (x <? v) eqn:E; cbn; [| reflexivity].
  destruct (l !! SourceManager.lower_bound v l) as [y |]; [| reflexivity].
  destruct (y =? v); reflexivity.
Qed.

Lemma recorded_elements v l : Forall (λ y, y = v ∨ In y l) (recorded v l).
Proof.
  induction l as [| x l IH].
  - unfold recorded. cbn. constructor; [auto | constructor].
  - rewrite recorded_cons. destruct (x <? v).
    + constructor; [right; left; reflexivity |].
      eapply Forall_impl; [exact IH |]. cbn. intros y [-> | H]; auto.
    + destruct (x =? v).
      * apply Forall_forall. intros y H. right. apply list_elem_of_In. exact H.
      * constructor; [auto |]. apply Forall_forall. intros y H.
        right. apply list_elem_of_In. exact H.
Qed.

Lemma recorded_sorted v l :
  StronglySorted Z.lt l → StronglySorted Z.lt (recorded v l).
Proof.
  induction 1 as [| x l HS IH HF].
  - unfold recorded. cbn. repeat constructor.
  - rewrite recorded_cons. destruct (x <? v) eqn:E.
    + apply Z.ltb_lt in E. constructor; [exact IH |].
      pose proof (recorded_elements v l) as HE.
      rewrite Forall_forall in HE, HF. apply Forall_forall. intros y Hy.
      destruct (HE y Hy) as [-> | Hin]; [exact E |].
      apply HF. apply list_elem_of_In. exact Hin.
    + apply Z.ltb_ge in E. destruct (x =? v) eqn:E2.
      * constructor; assumption.
      * apply Z.eqb_neq in E2. constructor; [constructor; assumption |].
        constructor; [lia |]. eapply Forall_lt_trans; [| exact HF]. lia.
Qed.

Lemma recorded_lineTable v l : 0 < v → lineTable l → lineTable (recorded v l).
Proof.
  intros Hv [[l' ->] HS]. split; [| apply recorded_sorted; exact HS].
  rewrite recorded_cons. assert ((0 <? v) = true) as -> by (apply Z.ltb_lt; lia).
  eauto.
Qed.

Lemma get_recorded s :
  SourceManager.LineNoOffsets (SourceManager.get s).2 =
  match SourceManager.SourceStream s !! SourceManager.StreamPos s with
  | Some c =>
      if isNewline c
      then recorded (Z.of_nat (S (SourceManager.StreamPos s)))
             (SourceManager.LineNoOffsets s)
      else SourceManager.LineNoOffsets s
  | None => SourceManager.LineNoOffsets s
  end.
Proof.
  unfold SourceManager.get.
  destruct (SourceManager.SourceStream s !! SourceManager.StreamPos s); reflexivity.
Qed.

(** X20: the table of line offsets starts as the single offset 0, and
    [get] keeps it starting with 0 and strictly increasing from whatever
    position it reads: a newline that is read again, after the lexer has
    gone back, is not recorded twice, and a newline read out of order is put
    in its place. *)
Theorem get_keeps_lineTable :
  (∀ Source, lineTable (SourceManager.LineNoOffsets (SourceManager.create Source))) ∧
  (∀ s, lineTable (SourceManager.LineNoOffsets s) →
        lineTable (SourceManager.LineNoOffsets (SourceManager.get s).2)).
Proof.
  split.
  - intros Source. split; [eexists; reflexivity | repeat constructor].
  - intros s H. rewrite get_recorded.
    destruct (SourceManager.SourceStream s !! SourceManager.StreamPos s) as [c |];
      [| exact H].
    destruct (isNewline c); [| exact H].
    apply recorded_lineTable; [lia | exact H].
Qed.

Lemma upper_bound_spec L l :
  StronglySorted Z.lt l →
  let k := SourceManager.upper_bound L l in
  (k ≤ length l)%nat ∧
  (∀ i x, (i < k)%nat → l !! i = Some x → x ≤ L) ∧
  (∀ i x, (k ≤ i)%nat → l !! i = Some x → L < x).
Proof.
  induction 1 as [| y l HS IH HF]; cbn.
  - split; [lia |]. split; intros i x _ H; discriminate H.
  - destruct (y <=? L) eqn:E.
    + apply Z.leb_le in E. destruct IH as (I1 & I2 & I3).
      split; [cbn; lia |]. split.
      * intros [| i] x Hi Hx; cbn in Hx; [injection Hx as <-; exact E |].
        apply (I2 i); [lia | exact Hx].
      * intros [| i] x Hi Hx; [lia |]. cbn in Hx. apply (I3 i); [lia | exact Hx].
    + apply Z.leb_gt in E. split; [lia |]. split; [intros i x Hi; lia |].
      intros [| i] x _ Hx; cbn in Hx; [injection Hx as <-; exact E |].
      rewrite Forall_forall in HF.
      assert (y < x) by (apply HF; eapply list_elem_of_lookup_2; exact Hx). lia.
Qed.

(** X21: for a table that starts with 0 and is strictly increasing, and
    a position that is not negative, [getLineColByLoc] gives the one line
    whose start is at or before the position and whose successor, if there is
    one, starts behind it, and as column the distance from that start.  For
    a negative position, as the stream reports after a failed read, the
    iterator arithmetic leaves the table and there is no result. *)
Theorem getLineColByLoc_spec (s : SourceManager.t) (L : Z) :
  lineTable (SourceManager.LineNoOffsets s) →
  (0 ≤ L →
   ∃ LineIndex ColIndex,
     SourceManager.getLineColByLoc s L = Some (LineIndex, ColIndex) ∧
     0 ≤ ColIndex ∧
     SourceManager.LineNoOffsets s !! LineIndex = Some (L - ColIndex) ∧
     (∀ Next, SourceManager.LineNoOffsets s !! S LineIndex = Some Next → L < Next)) ∧
  (L < 0 → SourceManager.getLineColByLoc s L = None).
Proof.
  intros [[l' Hl] HS]. unfold SourceManager.getLineColByLoc.
  pose proof (upper_bound_spec L _ HS) as U. cbv zeta in U.
  destruct U as (U1 & U2 & U3).
  split.
  - intros HL.
    destruct (SourceManager.upper_bound L (SourceManager.LineNoOffsets s))
      as [| k] eqn:EK.
    + exfalso. assert (L < 0); [| lia].
      apply (U3 0%nat); [lia | rewrite Hl; reflexivity].
    + assert (Hk : (k < length (SourceManager.LineNoOffsets s))%nat) by lia.
      destruct (lookup_lt_is_Some_2 _ _ Hk) as [x Hx].
      rewrite Hx. exists k, (L - x). split; [reflexivity |].
      pose proof (U2 k x ltac:(lia) Hx) as HxL.
      split; [lia |].
      split; [rewrite Hx; f_equal; lia |].
      intros Next HN. apply (U3 (S k)); [lia | exact HN].
  - intros HL. rewrite Hl. cbn.
    assert ((0 <=? L) = false) as -> by (apply Z.leb_gt; lia). reflexivity.
Qed.

Lemma recorded_append v l : Forall (λ x, x < v) l → recorded v l = (l ++ [v])%list.
Proof.
  induction 1 as [| x l Hx HF IH]; [reflexivity |].
  rewrite recorded_cons. assert ((x <? v) = true) as -> by (apply Z.ltb_lt; lia).
  rewrite IH. reflexivity.
Qed.

Lemma lineStarts_app A : ∀ B i,
  lineStarts (A ++ B) i = (lineStarts A i ++ lineStarts B (i + length A))%list.
Proof.
  induction A as [| c A IH]; intros B i; cbn.
  - rewrite Nat.add_0_r. reflexivity.
  - rewrite IH. replace (S i + length A)%nat with (i + S (length A))%nat by lia.
    destruct (isNewline c); reflexivity.
Qed.

Lemma lineStarts_bounds T : ∀ i,
  Forall (λ x, Z.of_nat i < x ≤ Z.of_nat (i + length T)) (lineStarts T i).
Proof.
  induction T as [| c T IH]; intros i; cbn; [constructor |].
  specialize (IH (S i)).
  assert (H : Forall (λ x, Z.of_nat i < x ≤ Z.of_nat (i + S (length T)))
                (lineStarts T (S i)))
    by (eapply Forall_impl; [exact IH |]; cbn; intros x Hx; lia).
  destruct (isNewline c); [constructor; [lia | exact H] | exact H].
Qed.

Lemma lineStarts_length T : ∀ i, length (lineStarts T i) = newlines T.
Proof.
  induction T as [| c T IH]; intros i; cbn; [reflexivity |].
  destruct (isNewline c); cbn; rewrite IH; reflexivity.
Qed.

Lemma lineStarts_last T : ∀ i base,
  (base ≤ i)%nat →
  (Z.of_nat base :: lineStarts T i) !! newlines T =
  Some (Z.of_nat (i + length T) - Z.of_nat (column (i - base) T)).
Proof.
  induction T as [| c T IH]; intros i base H.
  - cbn. f_equal. lia.
  - cbn [lineStarts newlines column length]. destruct (isNewline c).
    + change ((Z.of_nat base :: Z.of_nat (S i) :: lineStarts T (S i))
                !! S (newlines T))
        with ((Z.of_nat (S i) :: lineStarts T (S i)) !! newlines T).
      rewrite (IH (S i) (S i)) by lia. rewrite Nat.sub_diag. f_equal. lia.
    + rewrite (IH (S i) base) by lia.
      replace (S i - base)%nat with (S (i - base)) by lia. f_equal. lia.
Qed.

Lemma upper_bound_app L A : ∀ B,
  Forall (λ x, x ≤ L) A → Forall (λ x, L < x) B →
  SourceManager.upper_bound L (A ++ B) = length A.
Proof.
  induction A as [| x A IH]; intros B HA HB; cbn.
  - destruct B as [| y B]; [reflexivity |]. cbn. inversion HB; subst.
    assert ((y <=? L) = false) as -> by (apply Z.leb_gt; lia). reflexivity.
  - inversion HA; subst.
    assert ((x <=? L) = true) as -> by (apply Z.leb_le; lia).
    rewrite IH by assumption. reflexivity.
Qed.

Lemma read_state Source : ∀ n i,
  (i + n ≤ length Source)%nat →
  readChars n
    (SourceManager.mk Source i (0 :: lineStarts (take i Source) 0)) =
  SourceManager.mk Source (i + n) (0 :: lineStarts (take (i + n) Source) 0).
Proof.
  induction n as [| n IH]; intros i H; cbn.
  - rewrite Nat.add_0_r. reflexivity.
  - destruct (lookup_lt_is_Some_2 Source i ltac:(lia)) as [c Hc].
    unfold SourceManager.get. cbn [SourceManager.SourceStream SourceManager.StreamPos
                                   SourceManager.LineNoOffsets].
    rewrite Hc. cbn [snd].
    replace (i + S n)%nat with (S i + n)%nat by lia.
    rewrite <- IH by lia. f_equal. f_equal.
    rewrite (take_S_r _ _ _ Hc), lineStarts_app. cbn [lineStarts].
    fold (isNewline c). fold (recorded (Z.of_nat (S i)) (0 :: lineStarts (take i Source) 0)).
    destruct (isNewline c).
    + rewrite recorded_append.
      * rewrite length_take, Nat.min_l by lia. reflexivity.
      * constructor; [lia |].
        pose proof (lineStarts_bounds (take i Source) 0) as HB.
        eapply Forall_impl; [exact HB |]. cbn. intros x Hx.
        rewrite length_take in Hx. lia.
    + rewrite app_nil_r. reflexivity.
Qed.

(** X22: after the first [n] characters of a file have been read from
    its beginning, a position within them is mapped to the number of newline
    characters in front of it as line index and to the number of characters
    behind the last of these newlines as column index. *)
Theorem getLineColByLoc_counts_newlines (Source : list Ascii.ascii) (n L : nat) :
  (n ≤ length Source)%nat → (L ≤ n)%nat →
  SourceManager.getLineColByLoc
    (readChars n (SourceManager.create Source)) (Z.of_nat L) =
  Some (newlines (take L Source), Z.of_nat (column 0 (take L Source))).
Proof.
  intros Hn HL.
  change (SourceManager.create Source)
    with (SourceManager.mk Source 0 (0 :: lineStarts (take 0 Source) 0)).
  rewrite read_state by (cbn; lia). cbn [Nat.add].
  unfold SourceManager.getLineColByLoc. cbn [SourceManager.LineNoOffsets].
  assert (HT : take n Source = (take L Source ++ drop L (take n Source))%list).
  { rewrite <- (take_drop L (take n Source)) at 1. f_equal.
    rewrite take_take. f_equal. lia. }
  rewrite HT, lineStarts_app.
  assert (HLen : length (take L Source) = L)
    by (rewrite length_take; lia).
  rewrite HLen. cbn [Nat.add].
  change (0 :: lineStarts (take L Source) 0 ++ lineStarts (drop L (take n Source)) L)%list
    with ((0 :: lineStarts (take L Source) 0) ++
          lineStarts (drop L (take n Source)) L)%list.
  rewrite (upper_bound_app (Z.of_nat L) (0 :: lineStarts (take L Source) 0)).
  - cbn [length]. rewrite lineStarts_length.
    rewrite lookup_app_l
      by (cbn [length]; rewrite lineStarts_length; lia).
    change 0 with (Z.of_nat 0) at 1.
    rewrite (lineStarts_last (take L Source) 0 0) by lia.
    rewrite HLen. cbn [Nat.add Nat.sub]. f_equal. f_equal. lia.
  - constructor; [lia |].
    pose proof (lineStarts_bounds (take L Source) 0) as HB.
    eapply Forall_impl; [exact HB |]. cbn. intros x Hx. rewrite HLen in Hx. lia.
  - pose proof (lineStarts_bounds (drop L (take n Source)) L) as HB.
    eapply Forall_impl; [exact HB |]. cbn. intros x Hx. lia.
Qed.

Lemma getLineColByLoc_spec_example :
  lineTable (SourceManager.LineNoOffsets
               (readChars 5 (SourceManager.create source_ab_c))) ∧
  SourceManager.getLineColByLoc
    (readChars 5 (SourceManager.create source_ab_c)) 4 = Some (1%nat, 1) ∧
  SourceManager.getLineColByLoc
    (readChars 5 (SourceManager.create source_ab_c)) (-1) = None.
Proof.
  assert (H : lineTable (SourceManager.LineNoOffsets
                 (readChars 5 (SourceManager.create source_ab_c)))).
  { split; [eexists; vm_compute; reflexivity |].
    vm_compute. repeat constructor. }
  split; [exact H |].
  destruct (getLineColByLoc_spec
              (readChars 5 (SourceManager.create source_ab_c)) 4 H)
    as [_ _].
  split; [reflexivity |].
  exact (proj2 (getLineColByLoc_spec
                  (readChars 5 (SourceManager.create source_ab_c))
                  (-1) H) eq_refl).
Defined.

Lemma getLineColByLoc_counts_newlines_example :
  ((5 ≤ length source_ab_c)%nat ∧ (4 ≤ 5)%nat) ∧
  SourceManager.getLineColByLoc
    (readChars 5 (SourceManager.create source_ab_c)) 4 =
  Some (1%nat, 1).
Proof.
  assert (H1 : (5 ≤ length source_ab_c)%nat) by (cbn; lia).
  assert (H2 : (4 ≤ 5)%nat) by lia.
  split; [split; assumption |].
  exact (getLineColByLoc_counts_newlines source_ab_c 5 4 H1 H2).
Defined.
